(** * 9000 Code: terminal session orchestration

    A shallow embedding of the session-orchestration core of the desktop
    shell: the local terminal registry of the main process
    ([src/main/index.ts]), the renderer's terminal bootstrap
    ([XTerminal.initTerminal]), the remote gateway
    ([src/main/webTerminal.ts] with [webAuth] and [shared/license.ts]) and
    the split-layout slice of the renderer store ([appStore]).

    Conventions.
    - Module-level mutable variables of the source ([terminals],
      [pendingTerminals], [webTerminals], [accessToken], [currentEdition],
      the zustand store) are fields of explicit state records; handlers are
      state transformers.
    - Every observable side effect (process spawn, PTY write/resize/kill,
      IPC send, socket emit, socket disconnect) is appended to a trace, in
      program order.
    - External collaborators (node-pty's [spawn], [fs.existsSync],
      [os.homedir], [process.platform], [process.env],
      [crypto.randomBytes]) are inputs: fields of an environment record or
      arguments of the function that calls them. *)

From Stdlib Require Import QArith Qabs Qminmax Lqa.
From Stdlib.Strings Require Import Byte Ascii.
From stdpp Require Import gmap strings list fin_maps pretty.

Local Open Scope string_scope.
Local Open Scope list_scope.
Local Open Scope nat_scope.

(** ** JavaScript idioms *)

(** [s || d] on a possibly-undefined string: the empty string is falsy. *)
Definition str_or (s : option string) (d : string) : string :=
  match s with
  | Some v => if decide (v = "") then d else v
  | None => d
  end.

(** [n || d] on a possibly-undefined number: zero is falsy. *)
Definition num_or (n : option nat) (d : nat) : nat :=
  match n with
  | Some 0 => d
  | Some v => v
  | None => d
  end.

(** Result objects [{ success, error? }] returned across the IPC boundary. *)
Inductive IpcResult :=
  | Success
  | Failure (error : string).

Definition success (r : IpcResult) : bool :=
  match r with Success => true | Failure _ => false end.

(** ** node-pty and the host, as seen by the code *)

Record SpawnOptions := {
  sp_file : string;
  sp_args : list string;
  sp_cols : nat;
  sp_rows : nat;
  sp_cwd : string;
}.

(** [pty.spawn] either returns a handle whose [pid] is read at once, or
    throws; [String(error)] is the text carried by [SpawnThrew]. *)
Inductive SpawnOutcome :=
  | Spawned (pid : nat)
  | SpawnThrew (error : string).

Record Env := {
  platform_win32 : bool;              (* process.platform === 'win32' *)
  env_COMSPEC : option string;        (* process.env.COMSPEC *)
  env_SHELL : option string;          (* process.env.SHELL *)
  existsSync : string → bool;         (* fs.existsSync *)
  homedir : string;                   (* os.homedir() *)
  (* outcome of the n-th call of pty.spawn in this process *)
  pty_spawn : nat → SpawnOptions → SpawnOutcome;
}.

Definition getValidCwd (env : Env) (requestedCwd : option string) : string :=
  match requestedCwd with
  | Some c => if negb (bool_decide (c = "")) && existsSync env c then c else homedir env
  | None => homedir env
  end.

Definition cmd_exe : string := "C:\Windows\System32\cmd.exe".
Definition powershellPath : string :=
  "C:\Windows\System32\WindowsPowerShell\v1.0\powershell.exe".

(** Shell selection of [terminal:create]. *)
Definition createShell (env : Env) : string * list string :=
  if platform_win32 env
  then (str_or (env_COMSPEC env) cmd_exe, [])
  else (str_or (env_SHELL env) "/bin/bash", ["--login"]).

(** Shell selection of [terminal:runClaude] and of the remote
    [create_terminal]. *)
Definition agentShell (env : Env) : string * list string :=
  if platform_win32 env
  then if existsSync env powershellPath
       then (powershellPath, ["-NoLogo"; "-NoExit"])
       else (str_or (env_COMSPEC env) cmd_exe, [])
  else (str_or (env_SHELL env) "/bin/bash", ["--login"]).

(** ** shared/license.ts *)

Module License.

Inductive Edition := community | pro | enterprise.

(** A numeric limit of the table: an integer literal or [Infinity]. *)
Inductive Limit :=
  | Finite (n : nat)
  | Infinity.

Record Limits := {
  maxSplitPanels : Limit;
  maxQuickCommands : Limit;
  maxRemoteConnections : Limit;
  searchEnabled : bool;
  teamCollaboration : bool;
  gitIntegration : bool;
  customThemes : bool;
  ssoEnabled : bool;
  auditLog : bool;
}.

Definition EDITION_LIMITS (e : Edition) : Limits :=
  match e with
  | community =>
      {| maxSplitPanels := Finite 4; maxQuickCommands := Finite 5;
         maxRemoteConnections := Finite 1; searchEnabled := true;
         teamCollaboration := false; gitIntegration := false;
         customThemes := false; ssoEnabled := false; auditLog := false |}
  | pro =>
      {| maxSplitPanels := Infinity; maxQuickCommands := Infinity;
         maxRemoteConnections := Finite 10; searchEnabled := true;
         teamCollaboration := true; gitIntegration := true;
         customThemes := true; ssoEnabled := false; auditLog := false |}
  | enterprise =>
      {| maxSplitPanels := Infinity; maxQuickCommands := Infinity;
         maxRemoteConnections := Infinity; searchEnabled := true;
         teamCollaboration := true; gitIntegration := true;
         customThemes := true; ssoEnabled := true; auditLog := true |}
  end.

(** The keys of a limits record, [keyof typeof EDITION_LIMITS.community]. *)
Inductive Feature :=
  | F_maxSplitPanels
  | F_maxQuickCommands
  | F_maxRemoteConnections
  | F_searchEnabled
  | F_teamCollaboration
  | F_gitIntegration
  | F_customThemes
  | F_ssoEnabled
  | F_auditLog.

(** The value found under a key: a number or a boolean. *)
Inductive FeatureValue :=
  | NumberValue (limit : Limit)
  | BooleanValue (flag : bool).

Definition lookupFeature (limits : Limits) (feature : Feature) : FeatureValue :=
  match feature with
  | F_maxSplitPanels => NumberValue (maxSplitPanels limits)
  | F_maxQuickCommands => NumberValue (maxQuickCommands limits)
  | F_maxRemoteConnections => NumberValue (maxRemoteConnections limits)
  | F_searchEnabled => BooleanValue (searchEnabled limits)
  | F_teamCollaboration => BooleanValue (teamCollaboration limits)
  | F_gitIntegration => BooleanValue (gitIntegration limits)
  | F_customThemes => BooleanValue (customThemes limits)
  | F_ssoEnabled => BooleanValue (ssoEnabled limits)
  | F_auditLog => BooleanValue (auditLog limits)
  end.

(** [getCurrentLimits()], with the module variable [currentEdition] as an
    argument. *)
Definition getCurrentLimits (currentEdition : Edition) : Limits :=
  EDITION_LIMITS currentEdition.

(** [currentCount < limit], where nothing is below zero and everything is
    below [Infinity]. *)
Definition below (currentCount : nat) (limit : Limit) : bool :=
  match limit with
  | Finite n => currentCount <? n
  | Infinity => true
  end.

Definition isFeatureAvailable (currentEdition : Edition) (feature : Feature) : bool :=
  let limits := getCurrentLimits currentEdition in
  match lookupFeature limits feature with
  | BooleanValue value => value
  | NumberValue value => below 0 value          (* value > 0 *)
  end.

(** [isWithinLimit(feature, currentCount)]; its [feature] argument ranges
    over the three numeric keys. *)
Inductive LimitFeature := L_maxSplitPanels | L_maxQuickCommands | L_maxRemoteConnections.

Definition limitOf (limits : Limits) (feature : LimitFeature) : Limit :=
  match feature with
  | L_maxSplitPanels => maxSplitPanels limits
  | L_maxQuickCommands => maxQuickCommands limits
  | L_maxRemoteConnections => maxRemoteConnections limits
  end.

Definition isWithinLimit (currentEdition : Edition) (feature : LimitFeature)
    (currentCount : nat) : bool :=
  let limits := getCurrentLimits currentEdition in
  below currentCount (limitOf limits feature).

End License.

(** ** main/webAuth.ts *)

Module WebAuth.

(** A JavaScript string is a sequence of UTF-16 code units; [length] is
    the number of code units. *)
Definition jsstring := list N.

Definition is_high_surrogate (c : N) : bool := ((0xD800 <=? c) && (c <=? 0xDBFF))%N.
Definition is_low_surrogate (c : N) : bool := ((0xDC00 <=? c) && (c <=? 0xDFFF))%N.

Definition utf8_of_codepoint (cp : N) : list N :=
  (if cp <? 0x80 then [cp]
   else if cp <? 0x800 then [0xC0 + cp / 64; 0x80 + cp mod 64]
   else if cp <? 0x10000 then
     [0xE0 + cp / 4096; 0x80 + (cp / 64) mod 64; 0x80 + cp mod 64]
   else
     [0xF0 + cp / 262144; 0x80 + (cp / 4096) mod 64;
      0x80 + (cp / 64) mod 64; 0x80 + cp mod 64])%N.

(** [Buffer.from(str)]: the UTF-8 encoding; a surrogate pair is one code
    point, a lone surrogate becomes U+FFFD. *)
Fixpoint Buffer_from (s : jsstring) : list N :=
  match s with
  | [] => []
  | c :: rest =>
      if is_high_surrogate c then
        match rest with
        | d :: rest' =>
            if is_low_surrogate d
            then utf8_of_codepoint (0x10000 + (c - 0xD800) * 1024 + (d - 0xDC00))%N
                   ++ Buffer_from rest'
            else utf8_of_codepoint 0xFFFD%N ++ Buffer_from rest
        | [] => utf8_of_codepoint 0xFFFD%N
        end
      else if is_low_surrogate c then utf8_of_codepoint 0xFFFD%N ++ Buffer_from rest
      else utf8_of_codepoint c ++ Buffer_from rest
  end.

(** One digit of "0123456789abcdef", as a code unit. *)
Definition hexdigit (d : N) : N := (if d <? 10 then 48 + d else 87 + d)%N.

(** [buf.toString('hex')]. *)
Definition toString_hex (buf : list Byte.byte) : jsstring :=
  flat_map (λ b, let n := Byte.to_N b in [hexdigit (n / 16); hexdigit (n mod 16)]%N) buf.

(** [crypto.timingSafeEqual(a, b)] throws on buffers of different byte
    length ([None]) and otherwise tells whether they are equal. *)
Definition timingSafeEqual (a b : list N) : option bool :=
  if decide (length a = length b) then Some (bool_decide (a = b)) else None.

Record State := {
  accessToken : option jsstring;
  tokenGeneratedAt : option N;
}.

Definition initial : State := {| accessToken := None; tokenGeneratedAt := None |}.

(** [!s] for a nullable string: null and the empty string are falsy. *)
Definition falsy (s : option jsstring) : bool :=
  match s with
  | None | Some [] => true
  | Some (_ :: _) => false
  end.

(** [generateToken()]; [random] is what [crypto.randomBytes(32)] returns
    and [now] the clock read by [new Date()]. *)
Definition generateToken (random : list Byte.byte) (now : N) (st : State) : State * jsstring :=
  let token := toString_hex random in
  ({| accessToken := Some token; tokenGeneratedAt := Some now |}, token).

Definition getToken (random : list Byte.byte) (now : N) (st : State) : State * jsstring :=
  if falsy (accessToken st) then generateToken random now st
  else (st, default [] (accessToken st)).

Definition validateToken (st : State) (token : jsstring) : bool :=
  if falsy (accessToken st) || falsy (Some token) then false
  else
    let expected := default [] (accessToken st) in
    if negb (bool_decide (length token = length expected)) then false
    else
      match timingSafeEqual (Buffer_from token) (Buffer_from expected) with
      | Some isValid => isValid
      | None => false          (* catch (error) *)
      end.

Definition regenerateToken (random : list Byte.byte) (now : N) (st : State) : State * jsstring :=
  generateToken random now st.

End WebAuth.

(** ** main/index.ts: the local terminal registry *)

Module Main.

(** The closures [onData] and [onExit] registered on a spawned PTY capture
    the logical [id] and the [pid] read at spawn time; the two handlers
    register different [onData] closures. *)
Inductive Origin := ByCreate | ByRunClaude.

Record PtyClosure := {
  cl_origin : Origin;
  cl_id : string;
  cl_pid : nat;
}.

(** [pty] names the [IPty] handle by the ordinal of the [pty.spawn] call
    that returned it. *)
Record TerminalEntry := {
  pty : nat;
  pid : nat;
}.

Inductive Effect :=
  | Spawn (id : string) (opts : SpawnOptions)   (* pty.spawn, called for [id] *)
  | PtyWrite (handle : nat) (data : string)
  | PtyResize (handle cols rows : nat)
  | PtyKill (handle : nat)
  | SendData (id data : string)                 (* 'terminal:data' { id, data } *)
  | SendExit (id : string) (exitCode : Z).      (* 'terminal:exit' { id, exitCode } *)

Record State := {
  ptyLoaded : bool;                         (* pty !== null *)
  terminals : gmap string TerminalEntry;
  pendingTerminals : gset string;
  windowLive : bool;                        (* the liveness test of safeSend *)
  spawnCalls : nat;                         (* calls of pty.spawn so far *)
  closures : gmap nat PtyClosure;           (* listeners of each handle *)
  trace : list Effect;
}.

(** The process once its window is up: no terminal yet.  [loaded] tells
    whether [require('@lydell/node-pty')] succeeded. *)
Definition initial (loaded : bool) : State :=
  {| ptyLoaded := loaded; terminals := ∅; pendingTerminals := ∅;
     windowLive := true; spawnCalls := 0; closures := ∅; trace := [] |}.

Definition set_terminals (f : gmap string TerminalEntry → gmap string TerminalEntry)
    (st : State) : State :=
  {| ptyLoaded := ptyLoaded st; terminals := f (terminals st);
     pendingTerminals := pendingTerminals st; windowLive := windowLive st;
     spawnCalls := spawnCalls st; closures := closures st; trace := trace st |}.

Definition set_pending (f : gset string → gset string) (st : State) : State :=
  {| ptyLoaded := ptyLoaded st; terminals := terminals st;
     pendingTerminals := f (pendingTerminals st); windowLive := windowLive st;
     spawnCalls := spawnCalls st; closures := closures st; trace := trace st |}.

Definition emit (e : Effect) (st : State) : State :=
  {| ptyLoaded := ptyLoaded st; terminals := terminals st;
     pendingTerminals := pendingTerminals st; windowLive := windowLive st;
     spawnCalls := spawnCalls st; closures := closures st;
     trace := trace st ++ [e] |}.

Definition listen (handle : nat) (c : PtyClosure) (st : State) : State :=
  {| ptyLoaded := ptyLoaded st; terminals := terminals st;
     pendingTerminals := pendingTerminals st; windowLive := windowLive st;
     spawnCalls := spawnCalls st; closures := <[handle := c]> (closures st);
     trace := trace st |}.

(** [safeSend(channel, payload)]: delivers only to a live window. *)
Definition safeSend (e : Effect) (st : State) : State * bool :=
  if windowLive st then (emit e st, true) else (st, false).

(** One call of [pty.spawn]; the handle it returns is the call's ordinal. *)
Definition spawn (env : Env) (id : string) (opts : SpawnOptions) (st : State)
    : State * SpawnOutcome :=
  ({| ptyLoaded := ptyLoaded st; terminals := terminals st;
      pendingTerminals := pendingTerminals st; windowLive := windowLive st;
      spawnCalls := S (spawnCalls st); closures := closures st;
      trace := trace st ++ [Spawn id opts] |},
   pty_spawn env (spawnCalls st) opts).

Definition shellOptions (shell : string * list string) (cwd : string) : SpawnOptions :=
  {| sp_file := shell.1; sp_args := shell.2; sp_cols := 120; sp_rows := 30;
     sp_cwd := cwd |}.

(** [ipcMain.handle('terminal:create', ...)]. *)
Definition terminal_create (env : Env) (id : string) (cwd : option string)
    (st : State) : State * IpcResult :=
  if negb (ptyLoaded st) then (st, Failure "node-pty not available")
  else
    let validCwd := getValidCwd env cwd in
    let handle := spawnCalls st in
    match spawn env id (shellOptions (createShell env) validCwd) st with
    | (st1, Spawned pid) =>
        let st2 := set_terminals <[id := {| pty := handle; pid := pid |}]> st1 in
        (listen handle {| cl_origin := ByCreate; cl_id := id; cl_pid := pid |} st2,
         Success)
    | (st1, SpawnThrew error) => (st1, Failure error)
    end.

(** [term.onData] as registered by [terminal:create]. *)
Definition create_onData (id data : string) (st : State) : State :=
  (safeSend (SendData id data) st).1.

(** [term.onExit] as registered by [terminal:create]. *)
Definition create_onExit (id : string) (pid : nat) (exitCode : Z) (st : State) : State :=
  match terminals st !! id with
  | Some entry =>
      if decide (Main.pid entry = pid)
      then set_terminals (delete id) (safeSend (SendExit id exitCode) st).1
      else st
  | None => st
  end.

(** [ipcMain.handle('terminal:write', ...)]. *)
Definition terminal_write (id data : string) (st : State) : State * IpcResult :=
  match terminals st !! id with
  | Some entry => (emit (PtyWrite (pty entry) data) st, Success)
  | None => (st, Failure "Terminal not found")
  end.

(** [ipcMain.handle('terminal:resize', ...)]. *)
Definition terminal_resize (id : string) (cols rows : nat) (st : State)
    : State * IpcResult :=
  match terminals st !! id with
  | Some entry => (emit (PtyResize (pty entry) cols rows) st, Success)
  | None => (st, Failure "Terminal not found")
  end.

(** [ipcMain.handle('terminal:kill', ...)]. *)
Definition terminal_kill (id : string) (st : State) : State * IpcResult :=
  match terminals st !! id with
  | Some entry => (set_terminals (delete id) (emit (PtyKill (pty entry)) st), Success)
  | None => (st, Failure "Terminal not found")
  end.

(** [ipcMain.handle('terminal:runClaude', ...)].  The handler has no
    [await]: it runs to completion once entered.  The status logger it
    starts with [setInterval] only reads the registry. *)
Definition terminal_runClaude (env : Env) (id cwd : string) (st : State)
    : State * IpcResult :=
  if negb (ptyLoaded st) then (st, Failure "node-pty not available")
  else
    let validCwd := getValidCwd env (Some cwd) in
    if bool_decide (is_Some (terminals st !! id)) || bool_decide (id ∈ pendingTerminals st)
    then (st, Success)
    else
      let st0 := set_pending (λ p, {[id]} ∪ p) st in
      let handle := spawnCalls st0 in
      match spawn env id (shellOptions (agentShell env) validCwd) st0 with
      | (st1, Spawned pid) =>
          let st2 := set_terminals <[id := {| pty := handle; pid := pid |}]> st1 in
          let st3 := set_pending (λ p, p ∖ {[id]}) st2 in
          (listen handle {| cl_origin := ByRunClaude; cl_id := id; cl_pid := pid |} st3,
           Success)
      | (st1, SpawnThrew error) => (set_pending (λ p, p ∖ {[id]}) st1, Failure error)
      end.

(** [term.onData] as registered by [terminal:runClaude]. *)
Definition runClaude_onData (id : string) (pid : nat) (data : string) (st : State)
    : State :=
  match terminals st !! id with
  | Some entry =>
      if decide (Main.pid entry = pid) then (safeSend (SendData id data) st).1 else st
  | None => st
  end.

(** [term.onExit] as registered by [terminal:runClaude]. *)
Definition runClaude_onExit (id : string) (pid : nat) (exitCode : Z) (st : State)
    : State :=
  match terminals st !! id with
  | Some entry =>
      if decide (Main.pid entry = pid)
      then set_terminals (delete id) (safeSend (SendExit id exitCode) st).1
      else st
  | None => st
  end.

(** The PTY behind [handle] produces output, or exits: node-pty calls the
    listeners registered on that handle. *)
Definition pty_data (handle : nat) (data : string) (st : State) : State :=
  match closures st !! handle with
  | Some c =>
      match cl_origin c with
      | ByCreate => create_onData (cl_id c) data st
      | ByRunClaude => runClaude_onData (cl_id c) (cl_pid c) data st
      end
  | None => st
  end.

Definition pty_exit (handle : nat) (exitCode : Z) (st : State) : State :=
  match closures st !! handle with
  | Some c =>
      match cl_origin c with
      | ByCreate => create_onExit (cl_id c) (cl_pid c) exitCode st
      | ByRunClaude => runClaude_onExit (cl_id c) (cl_pid c) exitCode st
      end
  | None => st
  end.

Definition is_spawn_for (id : string) (e : Effect) : bool :=
  match e with
  | Spawn i _ => bool_decide (i = id)
  | _ => false
  end.

(** Number of [pty.spawn] calls made for [id]. *)
Definition spawnCount (id : string) (st : State) : nat :=
  length (List.filter (is_spawn_for id) (trace st)).

(** What can happen to the main process: an IPC request of the renderer
    or an event of a spawned PTY. *)
Inductive Event :=
  | IpcCreate (id : string) (cwd : option string)
  | IpcWrite (id data : string)
  | IpcResize (id : string) (cols rows : nat)
  | IpcKill (id : string)
  | IpcRunClaude (id cwd : string)
  | PtyEmitsData (handle : nat) (data : string)
  | PtyExits (handle : nat) (exitCode : Z).

Definition step (env : Env) (ev : Event) (st : State) : State :=
  match ev with
  | IpcCreate id cwd => (terminal_create env id cwd st).1
  | IpcWrite id data => (terminal_write id data st).1
  | IpcResize id cols rows => (terminal_resize id cols rows st).1
  | IpcKill id => (terminal_kill id st).1
  | IpcRunClaude id cwd => (terminal_runClaude env id cwd st).1
  | PtyEmitsData handle data => pty_data handle data st
  | PtyExits handle exitCode => pty_exit handle exitCode st
  end.

Definition run (env : Env) (evs : list Event) (st : State) : State :=
  foldl (λ st ev, step env ev st) st evs.

End Main.

(** ** renderer: XTerminal.initTerminal *)

Module XTerminal.

Definition ESC : string := String (Ascii.ascii_of_nat 27) EmptyString.

(** What the component writes into the xterm widget of a terminal id. *)
Inductive Written :=
  | Writeln (terminalId line : string)
  | Write (terminalId data : string).

Record State := {
  initializedTerminals : gset string;
  listening : list string;         (* ids with onData/onExit listeners *)
  output : list Written;
}.

Definition initial : State :=
  {| initializedTerminals := ∅; listening := []; output := [] |}.

Definition writeln (terminalId line : string) (r : State) : State :=
  {| initializedTerminals := initializedTerminals r; listening := listening r;
     output := output r ++ [Writeln terminalId line] |}.

Definition write (terminalId data : string) (r : State) : State :=
  {| initializedTerminals := initializedTerminals r; listening := listening r;
     output := output r ++ [Write terminalId data] |}.

Definition writelns (terminalId : string) (lines : list string) (r : State) : State :=
  foldl (λ r line, writeln terminalId line r) r lines.

Definition claudeFailureBanner (error : string) : list string :=
  [ ESC +:+ "[31mFailed to start Claude: " +:+ error +:+ ESC +:+ "[0m";
    ESC +:+ "[33mMake sure Claude Code CLI is installed and in your PATH." +:+ ESC +:+ "[0m";
    "";
    "To install Claude Code: npm install -g @anthropic/claude-code";
    "" ].

Definition shellFailureBanner (error : string) : string :=
  ESC +:+ "[31mFailed to start shell: " +:+ error +:+ ESC +:+ "[0m".

Definition devBanner : list string :=
  [ ESC +:+ "[36m╔═══════════════════════════════════════════╗" +:+ ESC +:+ "[0m";
    ESC +:+ "[36m║        9000 Code - Development           ║" +:+ ESC +:+ "[0m";
    ESC +:+ "[36m╚═══════════════════════════════════════════╝" +:+ ESC +:+ "[0m";
    "";
    ESC +:+ "[33mRunning in browser development mode." +:+ ESC +:+ "[0m";
    ESC +:+ "[33mTerminal functionality requires Electron." +:+ ESC +:+ "[0m";
    "";
    "Run with: " +:+ ESC +:+ "[32mnpm run dev:electron" +:+ ESC +:+ "[0m";
    "" ].

Definition errorText (r : IpcResult) : string :=
  match r with Success => "undefined" | Failure e => e end.

(** [initTerminal()], with the two IPC round trips run back to back on
    the main-process state [m].  [hasElectronAPI] is [window.electronAPI]
    being defined; without it the component only prints a notice (and
    echoes keystrokes, which touches nothing modelled here). *)
Definition initTerminal (hasElectronAPI : bool) (env : Env) (terminalId cwd : string)
    (w : Main.State * State) : Main.State * State :=
  let '(m, r) := w in
  if bool_decide (terminalId ∈ initializedTerminals r) then (m, r)
  else
    let r0 := {| initializedTerminals := {[terminalId]} ∪ initializedTerminals r;
                 listening := listening r; output := output r |} in
    if hasElectronAPI then
      let '(m1, result) := Main.terminal_runClaude env terminalId cwd m in
      let '(m2, r2) :=
        if success result then (m1, r0)
        else
          let r1 := writelns terminalId (claudeFailureBanner (errorText result)) r0 in
          (* Fall back to regular shell *)
          let '(m2, shellResult) := Main.terminal_create env terminalId (Some cwd) m1 in
          (m2, if success shellResult then r1
               else writeln terminalId (shellFailureBanner (errorText shellResult)) r1)
      in
      (m2, {| initializedTerminals := initializedTerminals r2;
              listening := listening r2 ++ [terminalId]; output := output r2 |})
    else
      (m, write terminalId "$ " (writelns terminalId devBanner r0)).

(** The listeners installed by [initTerminal] for [terminalId]. *)
Definition onData (terminalId : string) (event_id data : string) (r : State) : State :=
  if decide (event_id = terminalId) then write terminalId data r else r.

End XTerminal.

(** ** main/webTerminal.ts: the remote gateway

    The model is of the handlers that [setupWebTerminalHandlers] registers;
    when node-pty failed to load it registers none. *)

Module WebTerminal.

Import License.

(** The [message] texts of the [error] and [auth_error] events. *)
Inductive ErrorMessage :=
  | MaxConnectionsReached (maxConnections : nat)
  | NotAuthenticated
  | TerminalAlreadyExists
  | FailedToCreateTerminal (error : string).

Inductive AuthErrorMessage :=
  | NoTokenProvided
  | InvalidAccessToken.

Inductive ServerMessage :=
  | error (message : ErrorMessage)
  | auth_error (message : AuthErrorMessage)
  | auth_success
  | terminal_ready (pid : nat)
  | terminal_data (data : string)
  | terminal_exit (exitCode : Z)
  | terminal_killed.

Inductive Effect :=
  | Emit (socket : string) (msg : ServerMessage)     (* socket.emit *)
  | Disconnect (socket : string)                     (* socket.disconnect() *)
  | Spawn (socket : string) (opts : SpawnOptions)    (* pty.spawn *)
  | PtyWrite (handle : nat) (data : string)
  | PtyResize (handle cols rows : nat)
  | PtyKill (handle : nat).

Record WebTerminalSession := {
  socket : string;
  pty : nat;
  pid : nat;
}.

(** The variables closed over by the handlers of one admitted socket;
    [connected] is the socket still being open. *)
Record SocketClosure := {
  authenticated : bool;
  terminalSession : option WebTerminalSession;
  connected : bool;
}.

Record State := {
  currentEdition : Edition;                     (* license.ts *)
  auth : WebAuth.State;                         (* webAuth.ts *)
  webTerminals : gmap string WebTerminalSession;
  sockets : gmap string SocketClosure;          (* sockets with handlers *)
  spawnCalls : nat;
  ptyOwner : gmap nat string;                   (* socket listening on a handle *)
  trace : list Effect;
}.

Definition initial (edition : Edition) (a : WebAuth.State) : State :=
  {| currentEdition := edition; auth := a; webTerminals := ∅; sockets := ∅;
     spawnCalls := 0; ptyOwner := ∅; trace := [] |}.

Definition getEdition (st : State) : Edition := currentEdition st.

Definition getMaxConnections (st : State) : nat :=
  let edition := getEdition st in
  match maxRemoteConnections (EDITION_LIMITS edition) with
  | Infinity => 999
  | Finite limit => limit
  end.

Definition getConnectionCount (st : State) : nat := size (webTerminals st).

Definition emit (e : Effect) (st : State) : State :=
  {| currentEdition := currentEdition st; auth := auth st;
     webTerminals := webTerminals st; sockets := sockets st;
     spawnCalls := spawnCalls st; ptyOwner := ptyOwner st;
     trace := trace st ++ [e] |}.

Definition set_socket (sid : string) (c : SocketClosure) (st : State) : State :=
  {| currentEdition := currentEdition st; auth := auth st;
     webTerminals := webTerminals st; sockets := <[sid := c]> (sockets st);
     spawnCalls := spawnCalls st; ptyOwner := ptyOwner st; trace := trace st |}.

Definition set_webTerminals
    (f : gmap string WebTerminalSession → gmap string WebTerminalSession)
    (st : State) : State :=
  {| currentEdition := currentEdition st; auth := auth st;
     webTerminals := f (webTerminals st); sockets := sockets st;
     spawnCalls := spawnCalls st; ptyOwner := ptyOwner st; trace := trace st |}.

(** The [cleanup] closure of socket [sid]. *)
Definition cleanup (sid : string) (st : State) : State :=
  match sockets st !! sid with
  | Some c =>
      match terminalSession c with
      | Some session =>
          let st1 := emit (PtyKill (pty session)) st in
          let st2 := set_webTerminals (delete sid) st1 in
          set_socket sid {| authenticated := authenticated c; terminalSession := None;
                            connected := connected c |} st2
      | None => st
      end
  | None => st
  end.

(** The socket closes (by either side): socket.io stops delivering its
    client events and calls the ['disconnect'] listener, if registered. *)
Definition closed (sid : string) (st : State) : State :=
  match sockets st !! sid with
  | Some c =>
      cleanup sid
        (set_socket sid {| authenticated := authenticated c;
                           terminalSession := terminalSession c;
                           connected := false |} st)
  | None => st
  end.

(** [socket.disconnect()] called by the server. *)
Definition socket_disconnect (sid : string) (st : State) : State :=
  closed sid (emit (Disconnect sid) st).

(** [io.on('connection', ...)]. *)
Definition connection (sid : string) (st : State) : State :=
  let maxConnections := getMaxConnections st in
  if decide (maxConnections ≤ size (webTerminals st))%nat then
    (* rejected: returns before any listener is registered *)
    emit (Disconnect sid) (emit (Emit sid (error (MaxConnectionsReached maxConnections))) st)
  else
    set_socket sid {| authenticated := false; terminalSession := None;
                      connected := true |} st.

(** [socket.on('auth', ...)]; [token] is [data.token]. *)
Definition on_auth (sid : string) (token : option WebAuth.jsstring) (st : State) : State :=
  match sockets st !! sid with
  | Some c =>
      if authenticated c then st
      else if WebAuth.falsy token then
        socket_disconnect sid (emit (Emit sid (auth_error NoTokenProvided)) st)
      else if negb (WebAuth.validateToken (auth st) (default [] token)) then
        socket_disconnect sid (emit (Emit sid (auth_error InvalidAccessToken)) st)
      else
        emit (Emit sid auth_success)
          (set_socket sid {| authenticated := true;
                             terminalSession := terminalSession c;
                             connected := connected c |} st)
  | None => st
  end.

(** [socket.on('create_terminal', ...)]. *)
Definition on_create_terminal (env : Env) (sid : string) (cwd : option string)
    (cols rows : option nat) (st : State) : State :=
  match sockets st !! sid with
  | Some c =>
      if negb (authenticated c) then emit (Emit sid (error NotAuthenticated)) st
      else if bool_decide (is_Some (terminalSession c)) then
        emit (Emit sid (error TerminalAlreadyExists)) st
      else
        let validCwd := getValidCwd env cwd in
        let opts := {| sp_file := (agentShell env).1; sp_args := (agentShell env).2;
                       sp_cols := num_or cols 120; sp_rows := num_or rows 30;
                       sp_cwd := validCwd |} in
        let handle := spawnCalls st in
        let st1 :=
          {| currentEdition := currentEdition st; auth := auth st;
             webTerminals := webTerminals st; sockets := sockets st;
             spawnCalls := S (spawnCalls st); ptyOwner := ptyOwner st;
             trace := trace st ++ [Spawn sid opts] |} in
        match pty_spawn env handle opts with
        | Spawned pid =>
            let session := {| socket := sid; pty := handle; pid := pid |} in
            let st2 := set_socket sid {| authenticated := authenticated c;
                                         terminalSession := Some session;
                                         connected := connected c |} st1 in
            let st3 := set_webTerminals <[sid := session]> st2 in
            let st4 :=
              {| currentEdition := currentEdition st3; auth := auth st3;
                 webTerminals := webTerminals st3; sockets := sockets st3;
                 spawnCalls := spawnCalls st3;
                 ptyOwner := <[handle := sid]> (ptyOwner st3); trace := trace st3 |} in
            emit (Emit sid (terminal_ready pid)) st4
        | SpawnThrew err => emit (Emit sid (error (FailedToCreateTerminal err))) st1
        end
  | None => st
  end.

(** [socket.on('terminal_input', ...)]. *)
Definition on_terminal_input (sid data : string) (st : State) : State :=
  match sockets st !! sid with
  | Some c =>
      match terminalSession c with
      | Some session =>
          if authenticated c then emit (PtyWrite (pty session) data) st else st
      | None => st
      end
  | None => st
  end.

(** [socket.on('terminal_resize', ...)]. *)
Definition on_terminal_resize (sid : string) (cols rows : nat) (st : State) : State :=
  match sockets st !! sid with
  | Some c =>
      match terminalSession c with
      | Some session =>
          if authenticated c then emit (PtyResize (pty session) cols rows) st else st
      | None => st
      end
  | None => st
  end.

(** [socket.on('kill_terminal', ...)]. *)
Definition on_kill_terminal (sid : string) (st : State) : State :=
  match sockets st !! sid with
  | Some c =>
      if bool_decide (is_Some (terminalSession c))
      then emit (Emit sid terminal_killed) (cleanup sid st)
      else st
  | None => st
  end.

(** [term.onData] and [term.onExit] of the PTY created for socket [sid]. *)
Definition term_onData (sid data : string) (st : State) : State :=
  emit (Emit sid (terminal_data data)) st.

Definition term_onExit (sid : string) (exitCode : Z) (st : State) : State :=
  cleanup sid (emit (Emit sid (terminal_exit exitCode)) st).

(** What can happen to the gateway. *)
Inductive Event :=
  | Connection (sid : string)
  | Auth (sid : string) (token : option WebAuth.jsstring)
  | CreateTerminal (sid : string) (cwd : option string) (cols rows : option nat)
  | TerminalInput (sid data : string)
  | TerminalResize (sid : string) (cols rows : nat)
  | KillTerminal (sid : string)
  | SocketClosed (sid : string)
  | PtyData (handle : nat) (data : string)
  | PtyExit (handle : nat) (exitCode : Z)
  | RegenerateToken (random : list Byte.byte) (now : N).

Definition is_connected (sid : string) (st : State) : bool :=
  match sockets st !! sid with
  | Some c => connected c
  | None => false
  end.

(** Client events reach their listener only while the socket is open. *)
Definition step (env : Env) (ev : Event) (st : State) : State :=
  match ev with
  | Connection sid => connection sid st
  | Auth sid token => if is_connected sid st then on_auth sid token st else st
  | CreateTerminal sid cwd cols rows =>
      if is_connected sid st then on_create_terminal env sid cwd cols rows st else st
  | TerminalInput sid data =>
      if is_connected sid st then on_terminal_input sid data st else st
  | TerminalResize sid cols rows =>
      if is_connected sid st then on_terminal_resize sid cols rows st else st
  | KillTerminal sid => if is_connected sid st then on_kill_terminal sid st else st
  | SocketClosed sid => if is_connected sid st then closed sid st else st
  | PtyData handle data =>
      match ptyOwner st !! handle with
      | Some sid => term_onData sid data st
      | None => st
      end
  | PtyExit handle exitCode =>
      match ptyOwner st !! handle with
      | Some sid => term_onExit sid exitCode st
      | None => st
      end
  | RegenerateToken random now =>
      {| currentEdition := currentEdition st;
         auth := (WebAuth.regenerateToken random now (auth st)).1;
         webTerminals := webTerminals st; sockets := sockets st;
         spawnCalls := spawnCalls st; ptyOwner := ptyOwner st; trace := trace st |}
  end.

Definition run (env : Env) (evs : list Event) (st : State) : State :=
  foldl (λ st ev, step env ev st) st evs.

End WebTerminal.

(** ** renderer store: the split-layout slice of appStore

    Ratios are JavaScript numbers; the model uses exact rationals.  The
    display-only fields [name] and [icon] of a layout template are left
    out. *)

Module AppStore.

Inductive Direction := horizontal | vertical | grid.

Record SplitLayoutType := {
  lt_id : string;
  lt_panels : nat;
  lt_direction : Direction;
  defaultRatios : list Q;
}.

Record SplitPanelState := {
  id : string;
  terminalId : option string;
  ratio : Q;
}.

Record SplitLayoutState := {
  layoutId : string;
  panels : list SplitPanelState;
  direction : Direction;
}.

Definition SPLIT_LAYOUTS : list SplitLayoutType :=
  [ {| lt_id := "single"; lt_panels := 1; lt_direction := horizontal;
       defaultRatios := [100] |};
    {| lt_id := "horizontal-2"; lt_panels := 2; lt_direction := horizontal;
       defaultRatios := [50; 50] |};
    {| lt_id := "vertical-2"; lt_panels := 2; lt_direction := vertical;
       defaultRatios := [50; 50] |};
    {| lt_id := "horizontal-3"; lt_panels := 3; lt_direction := horizontal;
       defaultRatios := [33; 34; 33] |};
    {| lt_id := "grid-4"; lt_panels := 4; lt_direction := grid;
       defaultRatios := [25; 25; 25; 25] |};
    {| lt_id := "left-main"; lt_panels := 3; lt_direction := horizontal;
       defaultRatios := [60; 20; 20] |};
    {| lt_id := "top-main"; lt_panels := 3; lt_direction := vertical;
       defaultRatios := [60; 20; 20] |} ]%Q.

Record State := {
  splitLayout : SplitLayoutState;
  activePanelId : string;
  activeTerminalId : string;
}.

Definition initial : State :=
  {| splitLayout :=
       {| layoutId := "single";
          panels := [ {| id := "panel-0"; terminalId := None; ratio := 100 |} ];
          direction := horizontal |};
     activePanelId := "panel-0";
     activeTerminalId := "default" |}.

(** [set(state => ({ splitLayout: { ...state.splitLayout, panels } }))]. *)
Definition set_panels (f : list SplitPanelState → list SplitPanelState) (st : State)
    : State :=
  {| splitLayout :=
       {| layoutId := layoutId (splitLayout st);
          panels := f (panels (splitLayout st));
          direction := direction (splitLayout st) |};
     activePanelId := activePanelId st;
     activeTerminalId := activeTerminalId st |}.

Definition with_terminalId (t : option string) (p : SplitPanelState) : SplitPanelState :=
  {| id := id p; terminalId := t; ratio := ratio p |}.

Definition with_ratio (r : Q) (p : SplitPanelState) : SplitPanelState :=
  {| id := id p; terminalId := terminalId p; ratio := r |}.

Definition setSplitLayout (layoutId : string) (st : State) : State :=
  match List.find (λ l, bool_decide (lt_id l = layoutId)) SPLIT_LAYOUTS with
  | None => st
  | Some layout =>
      let currentPanels := panels (splitLayout st) in
      let existingTerminalIds := omap terminalId currentPanels in
      let panels :=
        imap (λ index ratio,
                {| id := "panel-" +:+ pretty index;
                   terminalId :=
                     match existingTerminalIds !! index with
                     | Some t => Some t
                     | None =>
                         if (index =? 0)%nat && (length existingTerminalIds =? 0)%nat
                         then Some (activeTerminalId st)
                         else None
                     end;
                   ratio := ratio |})
             (defaultRatios layout) in
      {| splitLayout := {| layoutId := layoutId; panels := panels;
                           direction := lt_direction layout |};
         activePanelId := "panel-0";
         activeTerminalId := activeTerminalId st |}
  end.

Definition updatePanelRatio (panelId : string) (newRatio : Q) (st : State) : State :=
  set_panels (fmap (λ p, if bool_decide (id p = panelId) then with_ratio newRatio p else p)) st.

Definition updatePanelRatios (ratios : list Q) (st : State) : State :=
  set_panels (imap (λ index p, with_ratio (default (ratio p) (ratios !! index)) p)) st.

Definition assignTerminalToPanel (panelId : string) (terminalId : option string)
    (st : State) : State :=
  set_panels
    (fmap (λ p, if bool_decide (id p = panelId) then with_terminalId terminalId p else p)) st.

Definition swapTerminals (droppedTerminalId targetPanelId : string) (st : State) : State :=
  let panels := panels (splitLayout st) in
  let sourcePanel :=
    List.find (λ p, bool_decide (terminalId p = Some droppedTerminalId)) panels in
  let targetPanel := List.find (λ p, bool_decide (id p = targetPanelId)) panels in
  match targetPanel with
  | None => st
  | Some targetPanel =>
      let targetTerminalId := terminalId targetPanel in
      set_panels
        (fmap (λ p,
                if bool_decide (id p = targetPanelId)
                then with_terminalId (Some droppedTerminalId) p
                else
                  match sourcePanel with
                  | Some source =>
                      if bool_decide (id p = id source)
                      then with_terminalId targetTerminalId p
                      else p
                  | None => p
                  end))
        st
  end.

Definition setActivePanelId (panelId : string) (st : State) : State :=
  {| splitLayout := splitLayout st; activePanelId := panelId;
     activeTerminalId := activeTerminalId st |}.

Definition ratioSum (st : State) : Q :=
  fold_right Qplus 0%Q (ratio <$> panels (splitLayout st)).

(** "Equals 100 within floating-point tolerance". *)
Definition sumsTo100 (st : State) : Prop :=
  (Qabs (ratioSum st - 100) <= 1 # 1000000)%Q.

End AppStore.

(** ** renderer: the two callers of [updatePanelRatios]

    [handleResize] of the split view (dragging the handle between two
    panels) and [handleRatioChange] of the layout selector (moving a
    panel's slider).  Both read the panels of the current store state.
    Division is that of the rationals, which agrees with the source
    wherever the divisor is not zero. *)

Module LayoutHandlers.

Import AppStore.

(** [list.reduce((sum, r) => sum + r, 0)]. *)
Definition reduceSum (l : list Q) : Q := fold_left Qplus l 0%Q.

(** [handleResize(panelIndex, delta)]; [container] is [containerRef.current]
    with its [offsetWidth] and [offsetHeight]. *)
Definition handleResize (container : option (Q * Q)) (panelIndex : nat) (delta : Q)
    (st : State) : State :=
  match container with
  | None => st
  | Some (offsetWidth, offsetHeight) =>
      let containerSize :=
        match direction (splitLayout st) with
        | horizontal => offsetWidth
        | _ => offsetHeight
        end in
      let deltaPercent := ((delta / containerSize) * 100)%Q in
      let panels := panels (splitLayout st) in
      (* panelIndex >= panels.length - 1 *)
      if length panels <=? S panelIndex then st
      else
        let newRatios :=
          imap (λ i p,
                  if i =? panelIndex then Qmax 10 (Qmin 90 (ratio p + deltaPercent))
                  else if i =? S panelIndex then Qmax 10 (Qmin 90 (ratio p - deltaPercent))
                  else ratio p)
               panels in
        let total := reduceSum newRatios in
        let normalizedRatios := (λ r, (r / total) * 100)%Q <$> newRatios in
        updatePanelRatios normalizedRatios st
  end.

(** [handleRatioChange(panelIndex, newRatio)]; [None] is the [TypeError]
    of reading [panels[panelIndex].ratio] past the end.  The panels other
    than the one at [panelIndex] are [delete panelIndex panels]. *)
Definition handleRatioChange (panelIndex : nat) (newRatio : Q) (st : State)
    : option State :=
  let panels := panels (splitLayout st) in
  let totalPanels := length panels in
  if totalPanels <=? 1 then Some st
  else
    match panels !! panelIndex with
    | None => None
    | Some selected =>
        let oldRatio := ratio selected in
        let diff := (newRatio - oldRatio)%Q in
        let otherPanels := delete panelIndex panels in
        let otherTotal := reduceSum (ratio <$> otherPanels) in
        let newRatios :=
          imap (λ i p,
                  if i =? panelIndex then newRatio
                  else
                    let proportion := (ratio p / otherTotal)%Q in
                    Qmax 10 (ratio p - diff * proportion))
               panels in
        let total := reduceSum newRatios in
        let normalizedRatios := (λ r, (r / total) * 100)%Q <$> newRatios in
        Some (updatePanelRatios normalizedRatios st)
    end.

(** What the user can do to the layout. *)
Inductive UiAction :=
  | SelectLayout (layoutId : string)
  | DragHandle (container : option (Q * Q)) (panelIndex : nat) (delta : Q)
  | MoveSlider (panelIndex : nat) (newRatio : Q)
  | SelectTerminal (panelId terminalId : string)
  | DropTerminal (droppedTerminalId targetPanelId : string)
  | ActivatePanel (panelId : string).

(** An event handler that throws leaves the store as it was. *)
Definition uiStep (a : UiAction) (st : State) : State :=
  match a with
  | SelectLayout layoutId => setSplitLayout layoutId st
  | DragHandle container panelIndex delta => handleResize container panelIndex delta st
  | MoveSlider panelIndex newRatio => default st (handleRatioChange panelIndex newRatio st)
  | SelectTerminal panelId terminalId =>
      assignTerminalToPanel panelId (Some terminalId) st
  | DropTerminal droppedTerminalId targetPanelId =>
      swapTerminals droppedTerminalId targetPanelId st
  | ActivatePanel panelId => setActivePanelId panelId st
  end.

Definition uiRun (actions : list UiAction) (st : State) : State :=
  foldl (λ st a, uiStep a st) st actions.

(** The actions of the store itself, with any arguments. *)
Inductive StoreAction :=
  | SetSplitLayout (layoutId : string)
  | UpdatePanelRatio (panelId : string) (newRatio : Q)
  | UpdatePanelRatios (ratios : list Q)
  | AssignTerminalToPanel (panelId : string) (terminalId : option string)
  | SwapTerminals (droppedTerminalId targetPanelId : string)
  | SetActivePanelId (panelId : string).

Definition storeStep (a : StoreAction) (st : State) : State :=
  match a with
  | SetSplitLayout layoutId => setSplitLayout layoutId st
  | UpdatePanelRatio panelId newRatio => updatePanelRatio panelId newRatio st
  | UpdatePanelRatios ratios => updatePanelRatios ratios st
  | AssignTerminalToPanel panelId terminalId => assignTerminalToPanel panelId terminalId st
  | SwapTerminals droppedTerminalId targetPanelId =>
      swapTerminals droppedTerminalId targetPanelId st
  | SetActivePanelId panelId => setActivePanelId panelId st
  end.

Definition storeRun (actions : list StoreAction) (st : State) : State :=
  foldl (λ st a, storeStep a st) st actions.

End LayoutHandlers.

(** ** renderer store: terminal callbacks, quick commands, notifications

    The slice of the same store behind the sidebar's quick commands:
    [sendToTerminal], [registerTerminalCallback], [addQuickCommand],
    [removeQuickCommand], [updateQuickCommand], [addNotification] and
    [removeNotification].  A callback is known by its identity, calling it
    is recorded in [calls], and [Date.now()] is an argument. *)

Module AppStoreCommands.

Import License.

Record QuickCommand := {
  id : string;
  label : string;
  command : string;
}.

(** The two notification texts of this slice; the second quotes the
    limit. *)
Inductive Message :=
  | TerminalNotConnected
  | QuickCommandLimit (maxCommands : nat).

Inductive NotificationType := nt_success | nt_error | nt_info.

Record Notification := {
  n_id : string;
  n_message : Message;
  n_type : NotificationType;
}.

Record State := {
  currentEdition : Edition;                 (* license.ts *)
  terminalCallbacks : gmap string nat;
  activeTerminalId : string;
  quickCommands : list QuickCommand;
  notifications : list Notification;
  calls : list (nat * string);              (* callback(text), in order *)
}.

(** ['\r'] *)
Definition CR : string := String "013"%char "".

Definition defaultQuickCommands : list QuickCommand :=
  [ {| id := "cmd-1"; label := "/usage"; command := "/usage" +:+ CR |};
    {| id := "cmd-2"; label := "/help"; command := "/help" +:+ CR |};
    {| id := "cmd-3"; label := "/clear"; command := "/clear" +:+ CR |};
    {| id := "cmd-4"; label := "/compact"; command := "/compact" +:+ CR |};
    {| id := "cmd-5"; label := "/config"; command := "/config" +:+ CR |} ].

Definition initial : State :=
  {| currentEdition := community; terminalCallbacks := ∅; activeTerminalId := "default";
     quickCommands := defaultQuickCommands; notifications := []; calls := [] |}.

Definition getEdition (st : State) : Edition := currentEdition st.

Definition setEdition (edition : Edition) (st : State) : State :=
  {| currentEdition := edition; terminalCallbacks := terminalCallbacks st;
     activeTerminalId := activeTerminalId st; quickCommands := quickCommands st;
     notifications := notifications st; calls := calls st |}.

Definition setActiveTerminalId (id : string) (st : State) : State :=
  {| currentEdition := currentEdition st; terminalCallbacks := terminalCallbacks st;
     activeTerminalId := id; quickCommands := quickCommands st;
     notifications := notifications st; calls := calls st |}.

Definition set_terminalCallbacks (f : gmap string nat → gmap string nat) (st : State)
    : State :=
  {| currentEdition := currentEdition st; terminalCallbacks := f (terminalCallbacks st);
     activeTerminalId := activeTerminalId st; quickCommands := quickCommands st;
     notifications := notifications st; calls := calls st |}.

Definition set_quickCommands (f : list QuickCommand → list QuickCommand) (st : State)
    : State :=
  {| currentEdition := currentEdition st; terminalCallbacks := terminalCallbacks st;
     activeTerminalId := activeTerminalId st; quickCommands := f (quickCommands st);
     notifications := notifications st; calls := calls st |}.

Definition set_notifications (f : list Notification → list Notification) (st : State)
    : State :=
  {| currentEdition := currentEdition st; terminalCallbacks := terminalCallbacks st;
     activeTerminalId := activeTerminalId st; quickCommands := quickCommands st;
     notifications := f (notifications st); calls := calls st |}.

(** [addNotification(message, type)]; the timer it starts fires
    [removeNotification(id)] three seconds later. *)
Definition addNotification (now : N) (message : Message) (type : NotificationType)
    (st : State) : State :=
  let id := "notif-" +:+ pretty now in
  set_notifications (λ ns, ns ++ [ {| n_id := id; n_message := message; n_type := type |} ])
    st.

Definition removeNotification (id : string) (st : State) : State :=
  set_notifications (List.filter (λ n, negb (bool_decide (n_id n = id)))) st.

Definition sendToTerminal (now : N) (text : string) (st : State) : State :=
  match terminalCallbacks st !! activeTerminalId st with
  | Some callback =>
      {| currentEdition := currentEdition st; terminalCallbacks := terminalCallbacks st;
         activeTerminalId := activeTerminalId st; quickCommands := quickCommands st;
         notifications := notifications st; calls := calls st ++ [(callback, text)] |}
  | None => addNotification now TerminalNotConnected nt_error st
  end.

(** The closure that [registerTerminalCallback] returns: it closes over
    [terminalId] only, and deletes whatever is registered under it when it
    is called. *)
Definition unregister (terminalId : string) (st : State) : State :=
  set_terminalCallbacks (delete terminalId) st.

(** [registerTerminalCallback(terminalId, callback)]: the new state and the
    returned closure. *)
Definition registerTerminalCallback (terminalId : string) (callback : nat) (st : State)
    : State * (State → State) :=
  (set_terminalCallbacks <[terminalId := callback]> st, unregister terminalId).

(** [s.endsWith('\r')] *)
Fixpoint endsWith_CR (s : string) : bool :=
  match s with
  | EmptyString => false
  | String c rest =>
      match rest with
      | EmptyString => bool_decide (c = "013"%char)
      | String _ _ => endsWith_CR rest
      end
  end.

(** [command.endsWith('\r') ? command : command + '\r'] *)
Definition withCR (command : string) : string :=
  if endsWith_CR command then command else command +:+ CR.

Definition addQuickCommand (now : N) (label command : string) (st : State) : State :=
  let maxCommands := maxQuickCommands (EDITION_LIMITS (getEdition st)) in
  (* state.quickCommands.length >= maxCommands *)
  match maxCommands with
  | Finite limit =>
      if limit <=? length (quickCommands st)
      then addNotification now (QuickCommandLimit limit) nt_error st
      else
        set_quickCommands
          (λ cs, cs ++ [ {| id := "cmd-" +:+ pretty now; label := label;
                            command := withCR command |} ]) st
  | Infinity =>
      set_quickCommands
        (λ cs, cs ++ [ {| id := "cmd-" +:+ pretty now; label := label;
                          command := withCR command |} ]) st
  end.

Definition removeQuickCommand (id' : string) (st : State) : State :=
  set_quickCommands (List.filter (λ cmd, negb (bool_decide (id cmd = id')))) st.

Definition updateQuickCommand (id' label command : string) (st : State) : State :=
  set_quickCommands
    (fmap (λ cmd, if bool_decide (id cmd = id')
                  then {| id := id cmd; label := label; command := withCR command |}
                  else cmd)) st.

(** What the components and timers do to this slice; [Unregister] is a
    call of the closure returned by a registration for that terminal. *)
Inductive Action :=
  | SetEdition (edition : Edition)
  | SetActiveTerminalId (id : string)
  | SendToTerminal (now : N) (text : string)
  | Register (terminalId : string) (callback : nat)
  | Unregister (terminalId : string)
  | AddQuickCommand (now : N) (label command : string)
  | RemoveQuickCommand (id : string)
  | UpdateQuickCommand (id label command : string)
  | RemoveNotification (id : string).

Definition step (a : Action) (st : State) : State :=
  match a with
  | SetEdition edition => setEdition edition st
  | SetActiveTerminalId id => setActiveTerminalId id st
  | SendToTerminal now text => sendToTerminal now text st
  | Register terminalId callback => (registerTerminalCallback terminalId callback st).1
  | Unregister terminalId => unregister terminalId st
  | AddQuickCommand now label command => addQuickCommand now label command st
  | RemoveQuickCommand id => removeQuickCommand id st
  | UpdateQuickCommand id label command => updateQuickCommand id label command st
  | RemoveNotification id => removeNotification id st
  end.

Definition run (actions : list Action) (st : State) : State :=
  foldl (λ st a, step a st) st actions.

End AppStoreCommands.

(** * Vocabulary and scenarios of the properties *)

Section Hosts.

(** A host on which every spawn succeeds, the n-th with pid [100 + n]. *)
Definition posix_env : Env :=
  {| platform_win32 := false; env_COMSPEC := None; env_SHELL := Some "/bin/zsh";
     existsSync := λ _, true; homedir := "/home/user";
     pty_spawn := λ n _, Spawned (100 + n) |}.

(** A Windows host on which PowerShell cannot be started and the command
    interpreter can. *)
Definition windows_env : Env :=
  {| platform_win32 := true; env_COMSPEC := None; env_SHELL := None;
     existsSync := λ _, true; homedir := "C:\Users\user";
     pty_spawn := λ n opts,
       if bool_decide (sp_file opts = powershellPath)
       then SpawnThrew "Error: File not found: powershell.exe"
       else Spawned (500 + n) |}.

End Hosts.

Section RegistryVocabulary.

Import Main.

(** The [onExit] listener that each handler registers. *)
Definition onExit_of (origin : Origin) : string → nat → Z → State → State :=
  match origin with
  | ByCreate => create_onExit
  | ByRunClaude => runClaude_onExit
  end.

(** Every registered entry has the listeners of its own spawn: the
    closure on its handle carries the entry's id and pid; handles are
    ordinals of spawn calls already made. *)
Definition registry_listens (st : State) : Prop :=
  (∀ id entry, terminals st !! id = Some entry →
     ∃ c, closures st !! pty entry = Some c
          ∧ cl_id c = id ∧ cl_pid c = pid entry)
  ∧ (∀ handle c, closures st !! handle = Some c → handle < spawnCalls st).

(** What every [pty.spawn] of the local handlers is called with. *)
Definition local_spawn_options (env : Env) (opts : SpawnOptions) : Prop :=
  sp_cols opts = 120 ∧ sp_rows opts = 30
  ∧ sp_file opts ≠ ""
  ∧ (sp_args opts = [] ∨ sp_args opts = ["--login"]
     ∨ sp_args opts = ["-NoLogo"; "-NoExit"])
  ∧ (existsSync env (homedir env) = true → existsSync env (sp_cwd opts) = true).

Definition spawns_well (env : Env) (e : Effect) : Prop :=
  match e with
  | Spawn _ opts => local_spawn_options env opts
  | _ => True
  end.

End RegistryVocabulary.

Section LicenseVocabulary.

Import License.

(** The editions in the order of an upgrade. *)
Definition editionRank (e : Edition) : nat :=
  match e with
  | community => 0
  | pro => 1
  | enterprise => 2
  end.

End LicenseVocabulary.

Section TokenVocabulary.

(** A code unit of the ASCII range. *)
Definition ascii_unit (c : N) : Prop := (c < 128)%N.

(** A token as [generateToken] makes them. *)
Definition token0 : WebAuth.jsstring :=
  (WebAuth.generateToken (repeat Byte.xa7 32) 1 WebAuth.initial).2.

End TokenVocabulary.

Section GatewayVocabulary.

Import License WebTerminal.

(** [quiet sid st st']: going from [st] to [st'] leaves a socket that has no
    handlers without handlers and sends it no [auth_success]. *)
Definition quiet (sid : string) (st st' : State) : Prop :=
  sockets st !! sid = None →
  sockets st' !! sid = None
  ∧ ∃ later, trace st' = trace st ++ later ∧ Emit sid auth_success ∉ later.

(** The remote connections that exist: one per socket that was admitted
    and is still open, whether it has authenticated or opened a terminal
    or not. *)
Definition liveConnections (st : State) : nat :=
  size (filter (λ kv, connected kv.2 = true) (sockets st)).

(** A gateway state of the enterprise edition with 999 registered
    sessions. *)
Definition enterprise_full : State :=
  {| currentEdition := enterprise; auth := WebAuth.initial;
     webTerminals :=
       list_to_map
         (map (λ n, ("socket-" +:+ pretty n,
                     {| socket := "socket-" +:+ pretty n; pty := n; pid := 1000 + n |}))
              (seq 0 999));
     sockets := ∅; spawnCalls := 999; ptyOwner := ∅; trace := [] |}.

(** The scenario of one admitted client: community edition, one socket
    that has authenticated and opened its terminal. *)
Definition one_terminal_open : WebTerminal.State :=
  WebTerminal.run posix_env
    [ WebTerminal.Connection "s1";
      WebTerminal.Auth "s1" (Some token0);
      WebTerminal.CreateTerminal "s1" None None None ]
    (WebTerminal.initial License.community
       (WebAuth.generateToken (repeat Byte.xa7 32) 1 WebAuth.initial).1).

(** Every terminal session held by a socket's handlers belongs to an
    authenticated socket, is the one registered under the socket's id, and
    has that socket listening on its PTY; handles are ordinals of spawn
    calls already made. *)
Definition sessions_registered (st : State) : Prop :=
  (∀ sid c session,
     sockets st !! sid = Some c → terminalSession c = Some session →
     authenticated c = true
     ∧ webTerminals st !! sid = Some session
     ∧ socket session = sid
     ∧ ptyOwner st !! pty session = Some sid)
  ∧ (∀ handle sid, ptyOwner st !! handle = Some sid → handle < spawnCalls st).

(** Two clients admitted before either opened a terminal; the first has
    opened its terminal since. *)
Definition two_admitted : WebTerminal.State :=
  WebTerminal.run posix_env
    [ WebTerminal.Connection "s1"; WebTerminal.Connection "s2";
      WebTerminal.Auth "s1" (Some token0); WebTerminal.Auth "s2" (Some token0);
      WebTerminal.CreateTerminal "s1" None None None ]
    (WebTerminal.initial License.community
       (WebAuth.generateToken (repeat Byte.xa7 32) 1 WebAuth.initial).1).

(** One client that killed its terminal and opened another. *)
Definition second_terminal_open : WebTerminal.State :=
  WebTerminal.run posix_env
    [ WebTerminal.KillTerminal "s1"; WebTerminal.CreateTerminal "s1" None None None ]
    one_terminal_open.

(** One client connected, not yet authenticated. *)
Definition one_connected : WebTerminal.State :=
  WebTerminal.run posix_env [ WebTerminal.Connection "s1" ]
    (WebTerminal.initial License.community
       (WebAuth.generateToken (repeat Byte.xa7 32) 1 WebAuth.initial).1).

(** The gateway state with another state of [webAuth]. *)
Definition with_auth (a : WebAuth.State) (st : State) : State :=
  {| currentEdition := currentEdition st; auth := a;
     webTerminals := webTerminals st; sockets := sockets st;
     spawnCalls := spawnCalls st; ptyOwner := ptyOwner st; trace := trace st |}.

(** The options [create_terminal] spawns with. *)
Definition remoteOptions (env : Env) (cwd : option string) (cols rows : option nat)
    : SpawnOptions :=
  {| sp_file := (agentShell env).1; sp_args := (agentShell env).2;
     sp_cols := num_or cols 120; sp_rows := num_or rows 30;
     sp_cwd := getValidCwd env cwd |}.


End GatewayVocabulary.

Section LayoutVocabulary.

Import AppStore.

Definition sumQ (l : list Q) : Q := fold_right Qplus 0%Q l.

(** The normalisation that both callers of [updatePanelRatios]
    (the resize handle and the ratio sliders) apply beforehand:
    [newRatios.map((r) => (r / total) * 100)]. *)
Definition normalizedRatios (newRatios : list Q) : list Q :=
  let total := sumQ newRatios in
  (λ r, (r / total) * 100)%Q <$> newRatios.

(** The terminal assigned to the panel called [panelId]. *)
Definition assigned (panelId : string) (ps : list SplitPanelState)
    : option (option string) :=
  terminalId <$> List.find (λ p, bool_decide (id p = panelId)) ps.

(** The slot update that [swapTerminals] maps over the panels. *)
Definition swapSlot (X P2 : string) (source : option SplitPanelState)
    (Y : option string) (p : SplitPanelState) : SplitPanelState :=
  if bool_decide (id p = P2) then with_terminalId (Some X) p
  else
    match source with
    | Some source => if bool_decide (id p = id source) then with_terminalId Y p else p
    | None => p
    end.

(** Two panels, "X" on the left and "Y" on the right. *)
Definition x_left_y_right : State :=
  assignTerminalToPanel "panel-1" (Some "Y")
    (assignTerminalToPanel "panel-0" (Some "X") (setSplitLayout "horizontal-2" initial)).

(** The layout is an instance of one of the templates: its id, direction
    and number of panels are the template's, and its panels are called
    panel-0, panel-1, ... in order. *)
Definition layout_well_formed (st : State) : Prop :=
  ∃ layout,
    layout ∈ SPLIT_LAYOUTS
    ∧ layoutId (splitLayout st) = lt_id layout
    ∧ direction (splitLayout st) = lt_direction layout
    ∧ length (panels (splitLayout st)) = lt_panels layout
    ∧ id <$> panels (splitLayout st)
      = (λ index, "panel-" +:+ pretty index) <$> seq 0 (lt_panels layout).

(** Every panel has a positive share and the shares add up to 100. *)
Definition balanced (st : State) : Prop :=
  Forall (λ p, 0 < ratio p)%Q (panels (splitLayout st))
  ∧ (ratioSum st == 100)%Q.

(** Actions as the components can issue them: the dragged container has a
    size, and a slider reports a positive value (its range is 10 to
    90). *)
Definition sensible (a : LayoutHandlers.UiAction) : Prop :=
  match a with
  | LayoutHandlers.DragHandle (Some (offsetWidth, offsetHeight)) _ _ =>
      ¬ (offsetWidth == 0)%Q ∧ ¬ (offsetHeight == 0)%Q
  | LayoutHandlers.MoveSlider _ newRatio => (0 < newRatio)%Q
  | _ => True
  end.

End LayoutVocabulary.

Section CommandVocabulary.

Import License AppStoreCommands.

(** The licence stays that of the community edition. *)
Definition keeps_community (a : Action) : Prop :=
  match a with
  | SetEdition edition => edition = community
  | _ => True
  end.

(** Sending the command to a terminal runs it: it ends with a carriage
    return. *)
Definition runs_on_enter (cmd : QuickCommand) : Prop :=
  endsWith_CR (command cmd) = true.

End CommandVocabulary.


(** * Properties *)

(** ** Edition ceiling of the remote gateway *)

Section GatewayCeiling.

Import License WebTerminal.

Lemma getMaxConnections_by_edition (st : State) :
  getMaxConnections st =
    match currentEdition st with
    | community => 1
    | pro => 10
    | enterprise => 999
    end.
Proof. unfold getMaxConnections, getEdition. by destruct (currentEdition st). Qed.

(** What [connection] does to a socket that arrives at capacity. *)
Lemma connection_at_capacity (sid : string) (st : State) :
  (getMaxConnections st ≤ size (webTerminals st))%nat →
  connection sid st =
    emit (Disconnect sid)
      (emit (Emit sid (error (MaxConnectionsReached (getMaxConnections st)))) st).
Proof. intros Hfull. unfold connection. by rewrite decide_True. Qed.

Lemma connection_below_capacity (sid : string) (st : State) :
  (size (webTerminals st) < getMaxConnections st)%nat →
  connection sid st =
    set_socket sid {| authenticated := false; terminalSession := None;
                      connected := true |} st.
Proof. intros Hfree. unfold connection. rewrite decide_False; [done | lia]. Qed.

(** C10: with the enterprise edition, whose configured limit is
    [Infinity], [getMaxConnections] is 999, and a socket connecting while
    999 remote terminal sessions are registered is sent an error and
    disconnected; for the finite limits the ceiling is the configured
    number (community 1, pro 10). *)
Theorem getMaxConnections_infinity_is_999 (st : State) (sid : string) :
  (maxRemoteConnections (EDITION_LIMITS enterprise) = Infinity
   ∧ maxRemoteConnections (EDITION_LIMITS community) = Finite 1
   ∧ maxRemoteConnections (EDITION_LIMITS pro) = Finite 10)
  ∧ (getMaxConnections st =
       match maxRemoteConnections (EDITION_LIMITS (getEdition st)) with
       | Infinity => 999
       | Finite limit => limit
       end)
  ∧ (currentEdition st = enterprise → getMaxConnections st = 999)
  ∧ (currentEdition st = community → getMaxConnections st = 1)
  ∧ (currentEdition st = pro → getMaxConnections st = 10)
  ∧ (currentEdition st = enterprise →
     (999 ≤ size (webTerminals st))%nat →
     trace (connection sid st) =
       trace st ++ [Emit sid (error (MaxConnectionsReached 999)); Disconnect sid]
     ∧ sockets (connection sid st) = sockets st
     ∧ webTerminals (connection sid st) = webTerminals st).
Proof.
  pose proof (getMaxConnections_by_edition st) as Hmax.
  split; [done |]. split; [done |].
  split; [intros He; by rewrite Hmax, He |].
  split; [intros He; by rewrite Hmax, He |].
  split; [intros He; by rewrite Hmax, He |].
  intros He Hfull.
  assert (getMaxConnections st = 999) as H999 by (by rewrite Hmax, He).
  rewrite connection_at_capacity by lia. rewrite H999. simpl.
  by rewrite <- app_assoc.
Qed.


Lemma getMaxConnections_infinity_is_999_witness :
  trace (connection "socket-new" enterprise_full) =
    [Emit "socket-new" (error (MaxConnectionsReached 999)); Disconnect "socket-new"].
Proof.
  refine (proj1 (proj2 (proj2 (proj2 (proj2 (proj2
    (getMaxConnections_infinity_is_999 enterprise_full "socket-new"))))) _ _)).
  - reflexivity.
  - vm_compute. lia.
Defined.

End GatewayCeiling.

(** ** Token rotation *)

Section TokenRotation.

Import WebAuth.


Lemma utf8_of_ascii (cp : N) : ascii_unit cp → utf8_of_codepoint cp = [cp].
Proof.
  unfold ascii_unit, utf8_of_codepoint. intros H.
  destruct (N.ltb_spec cp 128); [done | lia].
Qed.

(** The encoding of anything past ASCII starts with a lead byte. *)
Lemma utf8_lead_byte (cp : N) :
  (128 ≤ cp)%N → ∃ b bs, utf8_of_codepoint cp = b :: bs ∧ (192 ≤ b)%N.
Proof.
  intros H. unfold utf8_of_codepoint.
  destruct (N.ltb_spec cp 128); [lia |].
  destruct (N.ltb_spec cp 2048);
    [eexists _, _; split; [reflexivity | apply N.le_add_r] |].
  destruct (N.ltb_spec cp 65536);
    eexists _, _; (split; [reflexivity |]);
    (etrans; [| apply N.le_add_r]); lia.
Qed.

Lemma surrogate_not_ascii (c : N) :
  is_high_surrogate c = true ∨ is_low_surrogate c = true → ¬ ascii_unit c.
Proof.
  unfold is_high_surrogate, is_low_surrogate, ascii_unit.
  intros [H | H]; apply andb_true_iff in H as [H _]; apply N.leb_le in H; lia.
Qed.

Lemma ascii_not_surrogate (c : N) :
  ascii_unit c → is_high_surrogate c = false ∧ is_low_surrogate c = false.
Proof.
  intros Hc. pose proof (surrogate_not_ascii c) as Hs.
  destruct (is_high_surrogate c), (is_low_surrogate c); naive_solver.
Qed.

Lemma Buffer_from_ascii (t : jsstring) : Forall ascii_unit t → Buffer_from t = t.
Proof.
  induction 1 as [| c t Hc _ IH]; [done |]. simpl.
  destruct (ascii_not_surrogate c Hc) as [-> ->].
  by rewrite utf8_of_ascii, IH.
Qed.

(** The first byte of the encoding of a string that does not start with
    an ASCII unit is a lead byte. *)
Lemma Buffer_from_lead_byte (c : N) (rest : jsstring) :
  ¬ ascii_unit c → ∃ b bs, Buffer_from (c :: rest) = b :: bs ∧ (192 ≤ b)%N.
Proof.
  intros Hc. unfold ascii_unit in Hc.
  assert (∀ cp tl, (128 ≤ cp)%N →
            ∃ b bs, utf8_of_codepoint cp ++ tl = b :: bs ∧ (192 ≤ b)%N) as Hlead.
  { intros cp tl Hcp. destruct (utf8_lead_byte cp Hcp) as (b & bs & -> & Hb).
    by exists b, (bs ++ tl). }
  cbn [Buffer_from]. destruct (is_high_surrogate c).
  - destruct rest as [| d rest'].
    + rewrite <- (app_nil_r (utf8_of_codepoint _)). apply Hlead. lia.
    + destruct (is_low_surrogate d); apply Hlead; lia.
  - destruct (is_low_surrogate c); apply Hlead; lia.
Qed.

(** A string whose UTF-8 bytes are those of an ASCII string of the same
    length is that string. *)
Lemma Buffer_from_ascii_inj (s t : jsstring) :
  Forall ascii_unit t → Buffer_from s = t → s = t.
Proof.
  intros Ht. revert s. induction Ht as [| a t Ha Ht IH]; intros s Hs.
  - destruct s as [| c rest]; [done |].
    destruct (decide (ascii_unit c)) as [Hc | Hc].
    + simpl in Hs. destruct (ascii_not_surrogate c Hc) as [E1 E2].
      rewrite E1, E2, utf8_of_ascii in Hs by done. done.
    + destruct (Buffer_from_lead_byte c rest Hc) as (b & bs & E & _). congruence.
  - destruct s as [| c rest]; [done |].
    destruct (decide (ascii_unit c)) as [Hc | Hc].
    + simpl in Hs. destruct (ascii_not_surrogate c Hc) as [E1 E2].
      rewrite E1, E2, utf8_of_ascii in Hs by done. simpl in Hs.
      injection Hs as -> Hrest. f_equal. by apply IH.
    + destruct (Buffer_from_lead_byte c rest Hc) as (b & bs & E & Hb).
      rewrite E in Hs. injection Hs as -> _. unfold ascii_unit in Ha. lia.
Qed.

Lemma hexdigit_ascii (d : N) : (d < 16)%N → ascii_unit (hexdigit d).
Proof.
  unfold hexdigit, ascii_unit. intros H. destruct (N.ltb_spec d 10); lia.
Qed.

Lemma toString_hex_ascii (buf : list Byte.byte) : Forall ascii_unit (toString_hex buf).
Proof.
  induction buf as [| b buf IH]; [constructor |].
  pose proof (Byte.to_N_bounded b) as Hb.
  unfold toString_hex. simpl.
  constructor; [apply hexdigit_ascii; apply N.Div0.div_lt_upper_bound; lia |].
  constructor; [apply hexdigit_ascii; apply N.mod_lt; lia |].
  exact IH.
Qed.

Lemma length_toString_hex (buf : list Byte.byte) :
  length (toString_hex buf) = 2 * length buf.
Proof.
  induction buf as [| b buf IH]; [done |].
  unfold toString_hex in *. simpl. rewrite IH. lia.
Qed.

(** With a non-empty ASCII token in force, [validateToken] accepts that
    token and nothing else. *)
Lemma validateToken_iff (st : State) (expected token : jsstring) :
  accessToken st = Some expected →
  expected ≠ [] →
  Forall ascii_unit expected →
  validateToken st token = true ↔ token = expected.
Proof.
  intros Hacc Hne Hascii. unfold validateToken, timingSafeEqual.
  rewrite Hacc. simpl.
  destruct expected as [| e0 expected]; [done |].
  destruct token as [| t0 token]; [done |].
  cbn [falsy orb]. rewrite (Buffer_from_ascii (e0 :: expected)) by done.
  split.
  - intros Hvalid. apply Buffer_from_ascii_inj; [done |].
    case_bool_decide; [| done]. case_decide; [| done].
    cbn [negb] in Hvalid. by case_bool_decide.
  - intros ->. rewrite bool_decide_true by done. cbn [negb].
    rewrite Buffer_from_ascii by done.
    rewrite decide_True by done. by rewrite bool_decide_true.
Qed.

(** C6: after [regenerateToken()] the previous token value no longer
    validates (whenever it differs from the new one), the new value
    validates, the token is 64 hex characters long, and the new value is
    the only string that validates. *)
Theorem regenerateToken_rotation (random : list Byte.byte) (now : N) (st : State) :
  length random = 32 →
  let st' := (regenerateToken random now st).1 in
  let new := (regenerateToken random now st).2 in
  (∀ old, accessToken st = Some old → old ≠ new → validateToken st' old = false)
  ∧ validateToken st' new = true
  ∧ length new = 64
  ∧ Forall (λ c, c ∈ [48; 49; 50; 51; 52; 53; 54; 55; 56; 57;
                      97; 98; 99; 100; 101; 102]%N) new
  ∧ (∀ token, validateToken st' token = true ↔ token = new).
Proof.
  intros Hlen st' new.
  assert (length new = 64) as Hlen64.
  { subst new. simpl. rewrite length_toString_hex. lia. }
  assert (∀ token, validateToken st' token = true ↔ token = new) as Hiff.
  { intros token. apply validateToken_iff; [done | | apply toString_hex_ascii].
    intros E. by rewrite E in Hlen64. }
  split; [| split; [| split; [| split]]]; try done.
  - intros old _ Hold. destruct (validateToken st' old) eqn:E; [| done].
    by apply Hiff in E.
  - by apply Hiff.
  - subst new. simpl. clear. induction random as [| b random IH]; [constructor |].
    unfold toString_hex in *. simpl.
    pose proof (Byte.to_N_bounded b) as Hb.
    assert (∀ d, (d < 16)%N →
              hexdigit d ∈ [48; 49; 50; 51; 52; 53; 54; 55; 56; 57;
                            97; 98; 99; 100; 101; 102]%N) as Hdigit.
    { intros d Hd.
      assert (d ∈ [0; 1; 2; 3; 4; 5; 6; 7; 8; 9; 10; 11; 12; 13; 14; 15]%N) as Hin.
      { assert (∃ n, d = N.of_nat n ∧ n < 16) as (n & -> & Hn)
          by (exists (N.to_nat d); lia).
        do 16 (destruct n as [| n]; [set_solver |]). lia. }
      repeat (apply elem_of_cons in Hin as [-> | Hin]; [vm_compute; set_solver |]).
      by apply elem_of_nil in Hin. }
    constructor; [apply Hdigit, N.Div0.div_lt_upper_bound; lia |].
    constructor; [apply Hdigit, N.mod_lt; lia |].
    exact IH.
Qed.

Lemma regenerateToken_rotation_witness :
  let random := repeat Byte.xa7 32 in
  let previous := (generateToken (repeat Byte.x3c 32) 1 initial).1 in
  validateToken (regenerateToken random 2 previous).1
    (regenerateToken random 2 previous).2 = true.
Proof.
  exact (proj1 (proj2
    (regenerateToken_rotation (repeat Byte.xa7 32) 2
       (generateToken (repeat Byte.x3c 32) 1 initial).1 eq_refl))).
Defined.

End TokenRotation.

(** ** The local registry: create, exit events *)

Section LocalRegistry.

Import Main.

(** [terminal:create] has no guard on the registry: whenever node-pty is
    loaded it calls [pty.spawn], and a successful spawn overwrites the
    entry of [id], whatever it was. *)
Lemma terminal_create_always_spawns (env : Env) (id : string) (cwd : option string)
    (st : State) (newPid : nat) :
  ptyLoaded st = true →
  pty_spawn env (spawnCalls st) (shellOptions (createShell env) (getValidCwd env cwd))
    = Spawned newPid →
  let st' := (terminal_create env id cwd st).1 in
  (terminal_create env id cwd st).2 = Success
  ∧ spawnCount id st' = S (spawnCount id st)
  ∧ terminals st' !! id = Some {| pty := spawnCalls st; pid := newPid |}
  ∧ trace st' = trace st ++ [Spawn id (shellOptions (createShell env) (getValidCwd env cwd))].
Proof.
  intros Hloaded Hspawn. unfold terminal_create, spawn. rewrite Hloaded. simpl.
  rewrite Hspawn. simpl. split; [done |]. split; [| split; [| done]].
  - unfold spawnCount. simpl. rewrite List.filter_app, length_app. simpl.
    rewrite bool_decide_true by done. simpl. lia.
  - by rewrite lookup_insert_eq.
Qed.


(** C1, evaluated: [create("a")] twice in a row.  The second call, made
    while "a" has a registry entry, spawns a second process and replaces
    the stored handle and pid; the first PTY is not killed. *)
Theorem terminal_create_twice_spawns_twice :
  let st1 := (terminal_create posix_env "a" None (initial true)).1 in
  let st2 := (terminal_create posix_env "a" None st1).1 in
  terminals st1 !! "a" = Some {| pty := 0; pid := 100 |}
  ∧ spawnCount "a" st1 = 1
  ∧ (terminal_create posix_env "a" None st1).2 = Success
  ∧ spawnCount "a" st2 = 2
  ∧ terminals st2 !! "a" = Some {| pty := 1; pid := 101 |}
  ∧ PtyKill 0 ∉ trace st2.
Proof.
  cbv zeta. repeat split; try (vm_compute; reflexivity).
  intros Hin. vm_compute in Hin.
  repeat (apply elem_of_cons in Hin as [Hin | Hin]; [discriminate |]).
  by apply elem_of_nil in Hin.
Qed.

(** The sibling handler does have the guard: [terminal:runClaude] on an
    id that is registered (or pending) changes nothing. *)
Lemma terminal_runClaude_idempotent (env : Env) (id cwd : string) (st : State) :
  ptyLoaded st = true →
  is_Some (terminals st !! id) ∨ id ∈ pendingTerminals st →
  terminal_runClaude env id cwd st = (st, Success).
Proof.
  intros Hloaded Hguard. unfold terminal_runClaude. rewrite Hloaded. simpl.
  destruct Hguard as [H | H].
  - by rewrite (bool_decide_true _ H).
  - rewrite (bool_decide_true (id ∈ _)) by done. by rewrite orb_true_r.
Qed.


Lemma pty_exit_onExit (handle : nat) (exitCode : Z) (st : State) (c : PtyClosure) :
  closures st !! handle = Some c →
  pty_exit handle exitCode st = onExit_of (cl_origin c) (cl_id c) (cl_pid c) exitCode st.
Proof. intros H. unfold pty_exit. rewrite H. by destruct (cl_origin c). Qed.

(** C2: an exit event of a process with pid [pid], registered under
    [id] by either handler, is acted upon only when the registry's entry
    for [id] carries that pid.  Otherwise (no entry, or the entry of a
    superseding process) the state is untouched: nothing is deleted and
    nothing is sent.  On a match the entry is deleted and the
    ['terminal:exit'] event with the exit code goes out through
    [safeSend], which delivers it whenever the window is live. *)
Theorem exit_event_processed_iff_pid_matches
    (origin : Origin) (id : string) (pid : nat) (exitCode : Z) (st : State) :
  let st' := onExit_of origin id pid exitCode st in
  (terminals st !! id = None → st' = st)
  ∧ (∀ entry, terminals st !! id = Some entry → Main.pid entry ≠ pid → st' = st)
  ∧ (∀ entry, terminals st !! id = Some entry → Main.pid entry = pid →
       terminals st' = delete id (terminals st)
       ∧ st' = set_terminals (delete id) (safeSend (SendExit id exitCode) st).1
       ∧ (windowLive st = true → trace st' = trace st ++ [SendExit id exitCode])
       ∧ (windowLive st = false → trace st' = trace st)
       ∧ pendingTerminals st' = pendingTerminals st).
Proof.
  assert (onExit_of origin id pid exitCode st =
          match terminals st !! id with
          | Some entry =>
              if decide (Main.pid entry = pid)
              then set_terminals (delete id) (safeSend (SendExit id exitCode) st).1
              else st
          | None => st
          end) as Hunfold by (by destruct origin).
  cbv zeta. rewrite Hunfold. clear Hunfold.
  split; [by intros -> |]. split.
  - intros entry -> Hne. by rewrite decide_False.
  - intros entry -> Heq. rewrite decide_True by done.
    unfold safeSend. destruct (windowLive st); simpl; repeat split; done.
Qed.

Lemma exit_event_processed_iff_pid_matches_witness :
  let st1 := (terminal_create posix_env "a" None (initial true)).1 in
  let st2 := (terminal_kill "a" st1).1 in
  let st3 := (terminal_create posix_env "a" None st2).1 in
  (* the late exit of the first process (pid 100) changes nothing *)
  pty_exit 0 0 st3 = st3
  (* the exit of the current process (pid 101) is processed *)
  ∧ trace (pty_exit 1 0 st3) = trace st3 ++ [SendExit "a" 0%Z]
  ∧ terminals (pty_exit 1 0 st3) = delete "a" (terminals st3).
Proof.
  cbv zeta.
  set (st3 := (terminal_create posix_env "a" None
                 (terminal_kill "a"
                    (terminal_create posix_env "a" None (initial true)).1).1).1).
  assert (terminals st3 !! "a" = Some {| pty := 1; pid := 101 |}) as Hentry
    by (vm_compute; reflexivity).
  split; [| split].
  - rewrite (pty_exit_onExit 0 0 st3
               {| cl_origin := ByCreate; cl_id := "a"; cl_pid := 100 |})
      by (vm_compute; reflexivity).
    apply (proj1 (proj2 (exit_event_processed_iff_pid_matches ByCreate "a" 100 0 st3))
             _ Hentry).
    simpl. lia.
  - rewrite (pty_exit_onExit 1 0 st3
               {| cl_origin := ByCreate; cl_id := "a"; cl_pid := 101 |})
      by (vm_compute; reflexivity).
    apply (proj2 (proj2 (exit_event_processed_iff_pid_matches ByCreate "a" 101 0 st3))
             _ Hentry eq_refl).
    reflexivity.
  - rewrite (pty_exit_onExit 1 0 st3
               {| cl_origin := ByCreate; cl_id := "a"; cl_pid := 101 |})
      by (vm_compute; reflexivity).
    apply (proj2 (proj2 (exit_event_processed_iff_pid_matches ByCreate "a" 101 0 st3))
             _ Hentry eq_refl).
Defined.

End LocalRegistry.

(** ** Agent launch with fallback shell *)

Section AgentFallback.

Import Main XTerminal.

(** A failing [terminal:runClaude] leaves the registry as it was. *)
Lemma terminal_runClaude_failure (env : Env) (id cwd : string) (m : Main.State)
    (error : string) :
  (terminal_runClaude env id cwd m).2 = Failure error →
  terminals (terminal_runClaude env id cwd m).1 = terminals m
  ∧ ptyLoaded (terminal_runClaude env id cwd m).1 = ptyLoaded m
  ∧ (ptyLoaded m = true → terminals m !! id = None).
Proof.
  unfold terminal_runClaude. destruct (ptyLoaded m) eqn:Hloaded; simpl; [| done].
  case_bool_decide as Hentry; simpl; [done |].
  case_bool_decide as Hpending; simpl; [done |].
  destruct (pty_spawn env _ _) eqn:Hspawn; simpl; [done |].
  intros _. repeat split; try done.
  intros _. by apply eq_None_not_Some.
Qed.

(** C3, as the code has it: when [terminal:runClaude] fails with
    [error], [initTerminal] first writes the banner, whose first line
    carries [error], into the terminal's widget and then calls
    [terminal:create] for the same id.  If that fallback spawn succeeds,
    [id] has a live plain-shell entry; if it fails as well, the registry
    is left as it was and a second banner line reports the shell
    failure. *)
Theorem initTerminal_fallback (env : Env) (id cwd : string)
    (m : Main.State) (r : XTerminal.State) (error : string) :
  id ∉ initializedTerminals r →
  (terminal_runClaude env id cwd m).2 = Failure error →
  let m1 := (terminal_runClaude env id cwd m).1 in
  let fallback := terminal_create env id (Some cwd) m1 in
  let m' := (initTerminal true env id cwd (m, r)).1 in
  let r' := (initTerminal true env id cwd (m, r)).2 in
  m' = fallback.1
  ∧ (∃ more,
       output r' =
         output r
         ++ Writeln id (ESC +:+ "[31mFailed to start Claude: " +:+ error +:+ ESC +:+ "[0m")
            :: more)
  ∧ (∀ pid,
       ptyLoaded m = true →
       pty_spawn env (spawnCalls m1)
         (shellOptions (createShell env) (getValidCwd env (Some cwd))) = Spawned pid →
       terminals m' !! id = Some {| pty := spawnCalls m1; pid := pid |}
       ∧ trace m' =
           trace m1 ++ [Spawn id (shellOptions (createShell env) (getValidCwd env (Some cwd)))]
       ∧ output r' = output r ++ map (Writeln id) (claudeFailureBanner error))
  ∧ (∀ error2,
       fallback.2 = Failure error2 →
       terminals m' = terminals m
       ∧ (ptyLoaded m = true → terminals m' !! id = None)
       ∧ spawnCount id m' = spawnCount id m1
           + (if ptyLoaded m then 1 else 0)
       ∧ output r' =
           output r ++ map (Writeln id) (claudeFailureBanner error)
           ++ [Writeln id (shellFailureBanner error2)]).
Proof.
  intros Hfresh Hfail. cbv zeta.
  destruct (terminal_runClaude_failure env id cwd m error Hfail)
    as (Hterm & Hloaded1 & Habsent).
  unfold initTerminal. rewrite bool_decide_false by done.
  destruct (terminal_runClaude env id cwd m) as [m1 result] eqn:Hrun.
  simpl in Hfail, Hterm, Hloaded1. subst result. cbn [success errorText fst snd].
  destruct (terminal_create env id (Some cwd) m1) as [m2 shellResult] eqn:Hcreate.
  cbn [fst snd].
  split; [done |]. split; [| split].
  - destruct shellResult; cbn [success]; simpl;
      rewrite <- !app_assoc; simpl; eauto.
  - intros pid Hloaded Hspawn.
    rewrite <- Hloaded1 in Hloaded.
    destruct (terminal_create_always_spawns env id (Some cwd) m1 pid Hloaded Hspawn)
      as (Hres & _ & Hentry & Htrace).
    rewrite Hcreate in Hres, Hentry, Htrace. simpl in Hres, Hentry, Htrace.
    subst shellResult. cbn [success]. simpl.
    by rewrite <- !app_assoc.
  - intros error2 ->. cbn [success errorText]. simpl.
    assert (terminals m2 = terminals m
            ∧ spawnCount id m2 = spawnCount id m1 + (if ptyLoaded m then 1 else 0))
      as [Hsame Hcount].
    { rewrite <- Hterm, <- Hloaded1. unfold terminal_create, spawn in Hcreate.
      destruct (ptyLoaded m1); simpl in Hcreate;
        [| injection Hcreate as <- _; split; [done | lia]].
      destruct (pty_spawn env _ _); simpl in Hcreate; [done |].
      injection Hcreate as <- _. split; [done |].
      unfold spawnCount. simpl. rewrite List.filter_app, length_app. simpl.
      by rewrite bool_decide_true. }
    split; [done |]. split; [intros Hloaded; rewrite Hsame; by apply Habsent |].
    split; [done |]. by rewrite <- !app_assoc.
Qed.


Lemma initTerminal_fallback_witness :
  terminals (initTerminal true windows_env "x" "C:\work"
               (Main.initial true, XTerminal.initial)).1 !! "x"
    = Some {| pty := 1; pid := 501 |}
  ∧ ∃ more,
      output (initTerminal true windows_env "x" "C:\work"
                (Main.initial true, XTerminal.initial)).2
      = Writeln "x" (ESC +:+ "[31mFailed to start Claude: "
                         +:+ "Error: File not found: powershell.exe" +:+ ESC +:+ "[0m")
          :: more.
Proof.
  pose proof (initTerminal_fallback windows_env "x" "C:\work"
                (Main.initial true) XTerminal.initial
                "Error: File not found: powershell.exe"
                ltac:(set_solver) eq_refl) as (_ & Hbanner & Hlive & _).
  split.
  - exact (proj1 (Hlive 501 eq_refl eq_refl)).
  - exact Hbanner.
Defined.

(** C3 as stated fails when the fallback cannot start either: with
    node-pty unavailable both [terminal:runClaude] and [terminal:create]
    fail and no entry exists for the id. *)
Lemma initTerminal_fallback_counterexample :
  let m := Main.initial false in
  (terminal_runClaude posix_env "x" "/work" m).2 = Failure "node-pty not available"
  ∧ terminals (initTerminal true posix_env "x" "/work" (m, XTerminal.initial)).1 !! "x"
      = None
  ∧ spawnCount "x" (initTerminal true posix_env "x" "/work" (m, XTerminal.initial)).1 = 0
  ∧ terminal_write "x" "ls"
      (initTerminal true posix_env "x" "/work" (m, XTerminal.initial)).1
      = ((initTerminal true posix_env "x" "/work" (m, XTerminal.initial)).1,
         Failure "Terminal not found").
Proof. cbv zeta. repeat split; vm_compute; reflexivity. Qed.

End AgentFallback.

(** ** The remote gateway: capacity gate and duplicate terminals *)

Section Gateway.

Import License WebTerminal.

Variable env : Env.


Lemma quiet_same_trace (sid : string) (st st' : State) :
  trace st' = trace st → sockets st' !! sid = sockets st !! sid → quiet sid st st'.
Proof.
  intros Ht Hs H. split; [congruence |].
  exists []. split; [by rewrite app_nil_r | apply not_elem_of_nil].
Qed.

Lemma quiet_refl (sid : string) (st : State) : quiet sid st st.
Proof. by apply quiet_same_trace. Qed.

Lemma quiet_trans (sid : string) (st1 st2 st3 : State) :
  quiet sid st1 st2 → quiet sid st2 st3 → quiet sid st1 st3.
Proof.
  intros H12 H23 H1. destruct (H12 H1) as (H2 & l1 & E1 & N1).
  destruct (H23 H2) as (H3 & l2 & E2 & N2). split; [done |].
  exists (l1 ++ l2). split; [by rewrite E2, E1, app_assoc |].
  rewrite elem_of_app. tauto.
Qed.

Lemma quiet_emit (sid : string) (e : Effect) (st : State) :
  e ≠ Emit sid auth_success → quiet sid st (emit e st).
Proof.
  intros He H. split; [done |]. exists [e]. split; [done |].
  rewrite list_elem_of_singleton. congruence.
Qed.

Lemma quiet_set_socket (sid s : string) (c : SocketClosure) (st : State) :
  s ≠ sid → quiet sid st (set_socket s c st).
Proof. intros Hne. apply quiet_same_trace; [done |]. simpl. by rewrite lookup_insert_ne. Qed.

Lemma quiet_set_webTerminals (sid : string) f (st : State) :
  quiet sid st (set_webTerminals f st).
Proof. by apply quiet_same_trace. Qed.

(** A socket that has handlers is not the socket without handlers. *)
Lemma quiet_other (sid s : string) (st st' : State) (c : SocketClosure) :
  sockets st !! s = Some c → (s ≠ sid → quiet sid st st') → quiet sid st st'.
Proof. intros Hs H Hsid. apply H; [congruence | done]. Qed.

Lemma quiet_cleanup (sid s : string) (st : State) : quiet sid st (cleanup s st).
Proof.
  unfold cleanup. destruct (sockets st !! s) as [c |] eqn:Hs; [| apply quiet_refl].
  destruct (terminalSession c) as [session |]; [| apply quiet_refl].
  apply (quiet_other _ _ _ _ _ Hs); intros Hne.
  eapply quiet_trans; [| by apply quiet_set_socket].
  eapply quiet_trans; [| apply quiet_set_webTerminals].
  by apply quiet_emit.
Qed.

Lemma quiet_closed (sid s : string) (st : State) : quiet sid st (closed s st).
Proof.
  unfold closed. destruct (sockets st !! s) as [c |] eqn:Hs; [| apply quiet_refl].
  apply (quiet_other _ _ _ _ _ Hs); intros Hne.
  eapply quiet_trans; [| apply quiet_cleanup]. by apply quiet_set_socket.
Qed.

Lemma quiet_socket_disconnect (sid s : string) (st : State) :
  quiet sid st (socket_disconnect s st).
Proof.
  unfold socket_disconnect.
  eapply quiet_trans; [| apply quiet_closed]. by apply quiet_emit.
Qed.

Lemma quiet_on_auth (sid s : string) token (st : State) : quiet sid st (on_auth s token st).
Proof.
  unfold on_auth. destruct (sockets st !! s) as [c |] eqn:Hs; [| apply quiet_refl].
  apply (quiet_other _ _ _ _ _ Hs); intros Hne.
  destruct (authenticated c); [apply quiet_refl |].
  destruct (WebAuth.falsy token).
  { eapply quiet_trans; [| apply quiet_socket_disconnect]. by apply quiet_emit. }
  destruct (WebAuth.validateToken _ _); simpl.
  - eapply quiet_trans; [| apply quiet_emit; congruence].
    by apply quiet_set_socket.
  - eapply quiet_trans; [| apply quiet_socket_disconnect]. by apply quiet_emit.
Qed.

Lemma quiet_on_create_terminal (sid s : string) cwd cols rows (st : State) :
  quiet sid st (on_create_terminal env s cwd cols rows st).
Proof.
  unfold on_create_terminal.
  destruct (sockets st !! s) as [c |] eqn:Hs; [| apply quiet_refl].
  apply (quiet_other _ _ _ _ _ Hs); intros Hne.
  destruct (authenticated c); simpl; [| by apply quiet_emit].
  case_bool_decide; [by apply quiet_emit |].
  intros Hsid. destruct (pty_spawn env _ _).
  - split; [simpl; by rewrite lookup_insert_ne |].
    eexists [_; _]. split; [simpl; by rewrite <- app_assoc |].
    rewrite !elem_of_cons, elem_of_nil. intros [E | [E | []]]; congruence.
  - split; [done |].
    eexists [_; _]. split; [simpl; by rewrite <- app_assoc |].
    rewrite !elem_of_cons, elem_of_nil. intros [E | [E | []]]; congruence.
Qed.

Lemma quiet_step (sid : string) (ev : Event) (st : State) :
  ev ≠ Connection sid → quiet sid st (step env ev st).
Proof.
  intros Hev. destruct ev as [s | s tok | s cwd cols rows | s data | s cols rows
                              | s | s | h data | h code | random now]; simpl.
  - unfold connection. case_decide.
    + eapply quiet_trans; [| by apply quiet_emit]. by apply quiet_emit.
    + apply quiet_set_socket. congruence.
  - destruct (is_connected s st); [apply quiet_on_auth | apply quiet_refl].
  - destruct (is_connected s st); [apply quiet_on_create_terminal | apply quiet_refl].
  - destruct (is_connected s st); [| apply quiet_refl].
    unfold on_terminal_input. destruct (sockets st !! s) as [c |]; [| apply quiet_refl].
    destruct (terminalSession c); [| apply quiet_refl].
    destruct (authenticated c); [by apply quiet_emit | apply quiet_refl].
  - destruct (is_connected s st); [| apply quiet_refl].
    unfold on_terminal_resize. destruct (sockets st !! s) as [c |]; [| apply quiet_refl].
    destruct (terminalSession c); [| apply quiet_refl].
    destruct (authenticated c); [by apply quiet_emit | apply quiet_refl].
  - destruct (is_connected s st); [| apply quiet_refl].
    unfold on_kill_terminal. destruct (sockets st !! s) as [c |]; [| apply quiet_refl].
    case_bool_decide; [| apply quiet_refl].
    eapply quiet_trans; [apply quiet_cleanup | by apply quiet_emit].
  - destruct (is_connected s st); [apply quiet_closed | apply quiet_refl].
  - destruct (ptyOwner st !! h); [by apply quiet_emit | apply quiet_refl].
  - destruct (ptyOwner st !! h); [| apply quiet_refl].
    unfold term_onExit. eapply quiet_trans; [| apply quiet_cleanup]. by apply quiet_emit.
  - by apply quiet_same_trace.
Qed.

Lemma quiet_run (sid : string) (evs : list Event) (st : State) :
  Connection sid ∉ evs → quiet sid st (run env evs st).
Proof.
  revert st. induction evs as [| ev evs IH]; intros st Hevs; [apply quiet_refl |].
  apply not_elem_of_cons in Hevs as [Hev Hevs].
  simpl. eapply quiet_trans; [apply (quiet_step sid ev st); by intros -> | by apply IH].
Qed.

(** What the gate does ensure, counted in terminal sessions: a socket that
    connects while [webTerminals.size], the number of sockets that have
    opened a terminal, has reached the edition's ceiling is sent an
    [error] and disconnected, and no listener is registered for it.  Its
    [auth] event is therefore never examined, whatever token it carries,
    and however the gateway goes on the socket is never sent
    [auth_success]. *)
Theorem capacity_gate_precedes_auth (sid : string) (st : State) :
  getMaxConnections st ≤ getConnectionCount st →
  sockets st !! sid = None →
  let st1 := connection sid st in
  trace st1 =
    trace st ++ [Emit sid (error (MaxConnectionsReached (getMaxConnections st)));
                 Disconnect sid]
  ∧ sockets st1 = sockets st
  ∧ webTerminals st1 = webTerminals st
  ∧ (∀ token, step env (Auth sid token) st1 = st1)
  ∧ (∀ evs, Connection sid ∉ evs →
       ∃ later, trace (run env evs st1) = trace st1 ++ later
                ∧ Emit sid auth_success ∉ later).
Proof.
  intros Hfull Hnew. cbv zeta. unfold getConnectionCount in Hfull.
  rewrite connection_at_capacity by done.
  split; [simpl; by rewrite <- app_assoc |]. split; [done |]. split; [done |].
  split.
  - intros token. simpl. unfold is_connected. simpl. by rewrite Hnew.
  - intros evs Hevs. by apply (quiet_run sid evs _ Hevs).
Qed.

(** C5 does not hold of the code.  The gate compares the ceiling with
    [webTerminals.size], and a socket is entered there only when it opens
    a terminal, not when it connects.  Community edition, ceiling 1: one
    socket is connected and authenticated and has not opened a terminal,
    so one remote connection exists and the ceiling is reached.  A second
    socket that connects is admitted all the same, and on sending the
    valid token it is sent [auth_success].  Both can then open a terminal,
    which leaves two sessions under a ceiling of one. *)
Theorem capacity_gate_admits_connection_at_ceiling :
  let st := run posix_env [Auth "s1" (Some token0)] one_connected in
  let st' := run posix_env [Connection "s2"; Auth "s2" (Some token0)] st in
  let st'' :=
    run posix_env [CreateTerminal "s1" None None None; CreateTerminal "s2" None None None]
      st' in
  getMaxConnections st = 1
  ∧ sockets st !! "s1" = Some {| authenticated := true; terminalSession := None;
                                 connected := true |}
  ∧ liveConnections st = 1
  ∧ getConnectionCount st = 0
  ∧ WebAuth.validateToken (auth st) token0 = true
  ∧ trace st' = trace st ++ [Emit "s2" auth_success]
  ∧ sockets st' !! "s2" = Some {| authenticated := true; terminalSession := None;
                                  connected := true |}
  ∧ liveConnections st' = 2
  ∧ getMaxConnections st'' = 1
  ∧ getConnectionCount st'' = 2.
Proof.
  cbv zeta.
  split; [reflexivity |]. split; [vm_compute; reflexivity |].
  split; [vm_compute; reflexivity |]. split; [vm_compute; reflexivity |].
  split; [vm_compute; reflexivity |]. split; [vm_compute; reflexivity |].
  split; [vm_compute; reflexivity |]. split; [vm_compute; reflexivity |].
  split; [reflexivity |]. vm_compute; reflexivity.
Qed.

(** C7: [create_terminal] on an open, authenticated socket that already
    owns a terminal session only emits an [error] event: nothing is
    spawned, the session and the registry are as before, and the socket
    stays open. *)
Theorem duplicate_create_terminal_rejected (sid : string) (st : State)
    (c : SocketClosure) (session : WebTerminalSession)
    (cwd : option string) (cols rows : option nat) :
  sockets st !! sid = Some c →
  connected c = true →
  authenticated c = true →
  terminalSession c = Some session →
  let st' := step env (CreateTerminal sid cwd cols rows) st in
  trace st' = trace st ++ [Emit sid (error TerminalAlreadyExists)]
  ∧ spawnCalls st' = spawnCalls st
  ∧ sockets st' = sockets st
  ∧ webTerminals st' = webTerminals st
  ∧ ptyOwner st' = ptyOwner st
  ∧ is_connected sid st' = true.
Proof.
  intros Hs Hopen Hauth Hsession. cbv zeta. simpl.
  unfold is_connected, on_create_terminal. rewrite Hs, Hopen, Hauth, Hsession. simpl.
  by rewrite Hs.
Qed.

End Gateway.



Lemma capacity_gate_precedes_auth_witness :
  WebTerminal.getMaxConnections one_terminal_open = 1
  ∧ WebAuth.validateToken (WebTerminal.auth one_terminal_open) token0 = true
  ∧ ∃ later,
      WebTerminal.trace
        (WebTerminal.run posix_env [WebTerminal.Auth "s2" (Some token0)]
           (WebTerminal.connection "s2" one_terminal_open))
      = WebTerminal.trace (WebTerminal.connection "s2" one_terminal_open) ++ later
      ∧ WebTerminal.Emit "s2" WebTerminal.auth_success ∉ later.
Proof.
  split; [reflexivity |]. split; [vm_compute; reflexivity |].
  refine (proj2 (proj2 (proj2 (proj2
    (capacity_gate_precedes_auth posix_env "s2" one_terminal_open _ _))))
    [WebTerminal.Auth "s2" (Some token0)] _).
  - vm_compute. lia.
  - vm_compute. reflexivity.
  - intros Hin. apply list_elem_of_singleton in Hin. discriminate.
Defined.

Lemma duplicate_create_terminal_rejected_witness :
  WebTerminal.trace
    (WebTerminal.step posix_env (WebTerminal.CreateTerminal "s1" None None None)
       one_terminal_open)
  = WebTerminal.trace one_terminal_open
      ++ [WebTerminal.Emit "s1" (WebTerminal.error WebTerminal.TerminalAlreadyExists)].
Proof.
  refine (proj1 (duplicate_create_terminal_rejected posix_env "s1" one_terminal_open
    {| WebTerminal.authenticated := true;
       WebTerminal.terminalSession :=
         Some {| WebTerminal.socket := "s1"; WebTerminal.pty := 0; WebTerminal.pid := 100 |};
       WebTerminal.connected := true |}
    {| WebTerminal.socket := "s1"; WebTerminal.pty := 0; WebTerminal.pid := 100 |}
    None None None _ eq_refl eq_refl eq_refl)).
  vm_compute. reflexivity.
Defined.

(** ** The split-layout store *)

Section Layout.

Import AppStore.

(** *** Ratios *)



Lemma sumQ_normalize (total : Q) (l : list Q) :
  (sumQ ((λ r, (r / total) * 100) <$> l) == sumQ l / total * 100)%Q.
Proof.
  induction l as [| r l IH]; unfold sumQ in *; simpl.
  - unfold Qdiv. ring.
  - rewrite IH. unfold Qdiv. ring.
Qed.

Lemma normalizedRatios_sum (newRatios : list Q) :
  ¬ (sumQ newRatios == 0)%Q → (sumQ (normalizedRatios newRatios) == 100)%Q.
Proof.
  intros Hnz. unfold normalizedRatios. cbv zeta. rewrite sumQ_normalize. by field.
Qed.

Lemma updatePanelRatios_lookup (ratios : list Q) (st : State) (i : nat) :
  panels (splitLayout (updatePanelRatios ratios st)) !! i =
    (λ p, with_ratio (default (ratio p) (ratios !! i)) p) <$> panels (splitLayout st) !! i.
Proof. unfold updatePanelRatios. simpl. apply list_lookup_imap. Qed.

(** C4, as the code has it: [updatePanelRatios] stores the given ratios
    position by position and changes nothing else; it does not
    re-normalise.  For a list of matching length the panel ratios are
    exactly the list given, so their sum is the sum of the input: 100
    when the caller passes ratios that sum to 100, as the normalising
    callers do. *)
Theorem updatePanelRatios_positional (ratios : list Q) (st : State) :
  length ratios = length (panels (splitLayout st)) →
  let st' := updatePanelRatios ratios st in
  ratio <$> panels (splitLayout st') = ratios
  ∧ id <$> panels (splitLayout st') = id <$> panels (splitLayout st)
  ∧ terminalId <$> panels (splitLayout st') = terminalId <$> panels (splitLayout st)
  ∧ layoutId (splitLayout st') = layoutId (splitLayout st)
  ∧ direction (splitLayout st') = direction (splitLayout st)
  ∧ activePanelId st' = activePanelId st
  ∧ ratioSum st' = sumQ ratios
  ∧ ((sumQ ratios == 100)%Q → sumsTo100 st').
Proof.
  intros Hlen. cbv zeta.
  assert (ratio <$> panels (splitLayout (updatePanelRatios ratios st)) = ratios) as Hratios.
  { apply list_eq. intros i. rewrite list_lookup_fmap, updatePanelRatios_lookup.
    destruct (panels (splitLayout st) !! i) as [p |] eqn:Hp; simpl.
    - apply lookup_lt_Some in Hp. rewrite <- Hlen in Hp.
      apply lookup_lt_is_Some in Hp as [r ->]. done.
    - apply lookup_ge_None in Hp. rewrite <- Hlen in Hp.
      symmetry. by apply lookup_ge_None. }
  split; [done |].
  split; [apply list_eq; intros i;
          rewrite !list_lookup_fmap, updatePanelRatios_lookup;
          by destruct (panels (splitLayout st) !! i) |].
  split; [apply list_eq; intros i;
          rewrite !list_lookup_fmap, updatePanelRatios_lookup;
          by destruct (panels (splitLayout st) !! i) |].
  split; [done |]. split; [done |]. split; [done |].
  assert (ratioSum (updatePanelRatios ratios st) = sumQ ratios) as Hsum
    by (unfold ratioSum; by rewrite Hratios).
  split; [done |].
  intros H100. unfold sumsTo100. rewrite Hsum.
  assert (sumQ ratios - 100 == 0)%Q as -> by (rewrite H100; ring). done.
Qed.

Lemma updatePanelRatios_positional_witness :
  ratio <$> panels (splitLayout
    (updatePanelRatios [30; 70]%Q (setSplitLayout "horizontal-2" initial)))
  = [30; 70]%Q.
Proof.
  exact (proj1 (updatePanelRatios_positional [30; 70]%Q
                  (setSplitLayout "horizontal-2" initial) eq_refl)).
Defined.

(** C4 as stated fails: two panels, ratios [10, 10] of matching length;
    afterwards the ratios sum to 20. *)
Lemma updatePanelRatios_counterexample :
  let st := setSplitLayout "horizontal-2" initial in
  length [10; 10]%Q = length (panels (splitLayout st))
  ∧ ratio <$> panels (splitLayout (updatePanelRatios [10; 10]%Q st)) = [10; 10]%Q
  ∧ (ratioSum (updatePanelRatios [10; 10]%Q st) == 20)%Q
  ∧ ¬ sumsTo100 (updatePanelRatios [10; 10]%Q st).
Proof.
  cbv zeta. split; [reflexivity |]. split; [reflexivity |]. split; [reflexivity |].
  unfold sumsTo100. vm_compute. intros H. by apply H.
Qed.

(** *** Swapping terminals between panels *)


Lemma find_id_fmap (f : SplitPanelState → SplitPanelState) (q : string)
    (ps : list SplitPanelState) :
  (∀ p, id (f p) = id p) →
  List.find (λ p, bool_decide (id p = q)) (f <$> ps)
  = f <$> List.find (λ p, bool_decide (id p = q)) ps.
Proof.
  intros Hid. induction ps as [| p ps IH]; [done |].
  simpl. rewrite Hid. by destruct (bool_decide (id p = q)).
Qed.

Lemma find_id_Some (q : string) (ps : list SplitPanelState) (p : SplitPanelState) :
  List.find (λ p, bool_decide (id p = q)) ps = Some p → id p = q.
Proof. intros H. apply List.find_some in H as [_ H]. by apply bool_decide_eq_true in H. Qed.


Lemma swapSlot_id X P2 source Y p : id (swapSlot X P2 source Y p) = id p.
Proof.
  unfold swapSlot. case_bool_decide; [done |].
  destruct source; [| done]. by case_bool_decide.
Qed.

Lemma swapSlot_ratio X P2 source Y p : ratio (swapSlot X P2 source Y p) = ratio p.
Proof.
  unfold swapSlot. case_bool_decide; [done |].
  destruct source; [| done]. by case_bool_decide.
Qed.

Lemma swapTerminals_panels (X P2 : string) (st : State) (target : SplitPanelState) :
  List.find (λ p, bool_decide (id p = P2)) (panels (splitLayout st)) = Some target →
  panels (splitLayout (swapTerminals X P2 st))
  = swapSlot X P2
      (List.find (λ p, bool_decide (terminalId p = Some X)) (panels (splitLayout st)))
      (terminalId target)
    <$> panels (splitLayout st).
Proof. intros Ht. unfold swapTerminals. by rewrite Ht. Qed.

(** C8, as the code has it: the source of a swap is the first slot, in
    panel order, that holds the dropped terminal.  With that slot as P1
    and the slot called P2 holding Y, [swapTerminals X P2] leaves P2 with
    X and P1 with Y; slots with other names, and every ratio and panel
    id, are unchanged.  If no slot holds X only the target's assignment
    changes, and if there is no panel P2 the state is unchanged. *)
Theorem swapTerminals_true_swap (X P2 : string) (st : State) :
  let ps := panels (splitLayout st) in
  let st' := swapTerminals X P2 st in
  let ps' := panels (splitLayout st') in
  (∀ source target,
     List.find (λ p, bool_decide (terminalId p = Some X)) ps = Some source →
     List.find (λ p, bool_decide (id p = P2)) ps = Some target →
     assigned P2 ps' = Some (Some X)
     ∧ (id source ≠ P2 → assigned (id source) ps' = Some (terminalId target))
     ∧ (∀ i p, ps !! i = Some p → id p = P2 →
          ps' !! i = Some (with_terminalId (Some X) p))
     ∧ (∀ i p, ps !! i = Some p → id p = id source → id p ≠ P2 →
          ps' !! i = Some (with_terminalId (terminalId target) p))
     ∧ (∀ i p, ps !! i = Some p → id p ≠ id source → id p ≠ P2 → ps' !! i = Some p))
  ∧ (∀ target,
       List.find (λ p, bool_decide (terminalId p = Some X)) ps = None →
       List.find (λ p, bool_decide (id p = P2)) ps = Some target →
       assigned P2 ps' = Some (Some X)
       ∧ (∀ i p, ps !! i = Some p → id p = P2 →
            ps' !! i = Some (with_terminalId (Some X) p))
       ∧ (∀ i p, ps !! i = Some p → id p ≠ P2 → ps' !! i = Some p))
  ∧ (List.find (λ p, bool_decide (id p = P2)) ps = None → st' = st)
  ∧ ratio <$> ps' = ratio <$> ps
  ∧ id <$> ps' = id <$> ps
  ∧ layoutId (splitLayout st') = layoutId (splitLayout st)
  ∧ direction (splitLayout st') = direction (splitLayout st)
  ∧ activePanelId st' = activePanelId st.
Proof.
  cbv zeta. split; [| split; [| split]].
  - intros source target Hsrc Htgt.
    rewrite (swapTerminals_panels X P2 st target Htgt), Hsrc.
    pose proof (find_id_Some _ _ _ Htgt) as HidT.
    split; [| split; [| split; [| split]]].
    + unfold assigned. rewrite find_id_fmap by apply swapSlot_id. rewrite Htgt. simpl.
      unfold swapSlot. by rewrite bool_decide_true.
    + intros Hne. unfold assigned. rewrite find_id_fmap by apply swapSlot_id.
      destruct (List.find (λ p, bool_decide (id p = id source)) _) as [q |] eqn:Hq.
      * pose proof (find_id_Some _ _ _ Hq) as HidQ. simpl. unfold swapSlot.
        rewrite bool_decide_false by congruence. by rewrite bool_decide_true.
      * apply List.find_some in Hsrc as [Hin _].
        eapply List.find_none in Hq; [| exact Hin].
        by rewrite bool_decide_true in Hq.
    + intros i p Hp Hid. rewrite list_lookup_fmap, Hp. simpl.
      unfold swapSlot. by rewrite bool_decide_true.
    + intros i p Hp Hid Hne. rewrite list_lookup_fmap, Hp. simpl.
      unfold swapSlot. rewrite bool_decide_false by done. by rewrite bool_decide_true.
    + intros i p Hp Hne1 Hne2. rewrite list_lookup_fmap, Hp. simpl.
      unfold swapSlot. rewrite bool_decide_false by done. by rewrite bool_decide_false.
  - intros target Hsrc Htgt.
    rewrite (swapTerminals_panels X P2 st target Htgt), Hsrc.
    split; [| split].
    + unfold assigned. rewrite find_id_fmap by apply swapSlot_id. rewrite Htgt. simpl.
      unfold swapSlot. rewrite bool_decide_true; [done |]. by eapply find_id_Some.
    + intros i p Hp Hid. rewrite list_lookup_fmap, Hp. simpl.
      unfold swapSlot. by rewrite bool_decide_true.
    + intros i p Hp Hne. rewrite list_lookup_fmap, Hp. simpl.
      unfold swapSlot. by rewrite bool_decide_false.
  - intros Htgt. unfold swapTerminals. by rewrite Htgt.
  - destruct (List.find (λ p, bool_decide (id p = P2)) (panels (splitLayout st)))
      as [target |] eqn:Htgt.
    + rewrite (swapTerminals_panels X P2 st target Htgt).
      repeat split; try (unfold swapTerminals; by rewrite Htgt).
      * rewrite <- list_fmap_compose. apply list_fmap_ext. intros _ p _. apply swapSlot_ratio.
      * rewrite <- list_fmap_compose. apply list_fmap_ext. intros _ p _. apply swapSlot_id.
    + unfold swapTerminals. by rewrite Htgt.
Qed.


Lemma swapTerminals_true_swap_witness :
  let ps' := panels (splitLayout (swapTerminals "X" "panel-1" x_left_y_right)) in
  assigned "panel-1" ps' = Some (Some "X") ∧ assigned "panel-0" ps' = Some (Some "Y").
Proof.
  destruct (proj1 (swapTerminals_true_swap "X" "panel-1" x_left_y_right)
              {| id := "panel-0"; terminalId := Some "X"; ratio := 50 |}
              {| id := "panel-1"; terminalId := Some "Y"; ratio := 50 |}
              eq_refl eq_refl) as (H2 & H1 & _).
  split; [exact H2 | exact (H1 ltac:(discriminate))].
Defined.

(** C8 as stated fails when X is shown in two panels: with panel-0 and
    panel-1 both on "X" and panel-2 on "Y", take P1 = panel-1 and
    P2 = panel-2.  After [swapTerminals "X" "panel-2"] panel-1 still
    shows "X", and the slot that changed is panel-0. *)
Lemma swapTerminals_counterexample :
  let st :=
    assignTerminalToPanel "panel-2" (Some "Y")
      (assignTerminalToPanel "panel-1" (Some "X")
         (assignTerminalToPanel "panel-0" (Some "X")
            (setSplitLayout "horizontal-3" initial))) in
  let ps := panels (splitLayout st) in
  let ps' := panels (splitLayout (swapTerminals "X" "panel-2" st)) in
  assigned "panel-1" ps = Some (Some "X")
  ∧ assigned "panel-2" ps = Some (Some "Y")
  ∧ assigned "panel-2" ps' = Some (Some "X")
  ∧ assigned "panel-1" ps' ≠ Some (Some "Y")
  ∧ assigned "panel-0" ps = Some (Some "X")
  ∧ assigned "panel-0" ps' = Some (Some "Y").
Proof. cbv zeta. repeat split; try (vm_compute; reflexivity). vm_compute. discriminate. Qed.

(** *** Choosing a layout *)

Lemma setSplitLayout_lookup (chosen : string) (layout : SplitLayoutType) (st : State)
    (i : nat) :
  List.find (λ l, bool_decide (lt_id l = chosen)) SPLIT_LAYOUTS = Some layout →
  panels (splitLayout (setSplitLayout chosen st)) !! i
  = (λ r,
       {| id := "panel-" +:+ pretty i;
          terminalId :=
            match omap terminalId (panels (splitLayout st)) !! i with
            | Some t => Some t
            | None =>
                if (i =? 0) && (length (omap terminalId (panels (splitLayout st))) =? 0)
                then Some (activeTerminalId st)
                else None
            end;
          ratio := r |})
    <$> defaultRatios layout !! i.
Proof.
  intros Hfind. unfold setSplitLayout. rewrite Hfind. simpl.
  by rewrite list_lookup_imap.
Qed.

(** C9, as the code has it: for a known layout id, [setSplitLayout]
    makes one panel per default ratio of the template, named panel-0,
    panel-1, ... and carrying those ratios; the N-th previously assigned
    terminal, in panel order, goes to the N-th new panel, assignments
    beyond the new panel count are dropped, and the remaining panels are
    unassigned, except that when no panel had a terminal the first new
    panel takes the active terminal id.  The active panel becomes
    panel-0.  An unknown layout id changes nothing.  In particular
    "horizontal-2" with "t1" as the only assignment gives panel-0 with
    "t1", panel-1 unassigned, ratios 50 and 50. *)
Theorem setSplitLayout_preserves_order (chosen : string) (st : State) :
  let existing := omap terminalId (panels (splitLayout st)) in
  let st' := setSplitLayout chosen st in
  let ps' := panels (splitLayout st') in
  (∀ layout,
     List.find (λ l, bool_decide (lt_id l = chosen)) SPLIT_LAYOUTS = Some layout →
     let n := length (defaultRatios layout) in
     ratio <$> ps' = defaultRatios layout
     ∧ length ps' = n
     ∧ (∀ i, i < n → id <$> ps' !! i = Some ("panel-" +:+ pretty i))
     ∧ (∀ i t, i < n → existing !! i = Some t → terminalId <$> ps' !! i = Some (Some t))
     ∧ (∀ i, i < n → length existing ≤ i → existing ≠ [] ∨ 0 < i →
          terminalId <$> ps' !! i = Some None)
     ∧ (existing = [] → 0 < n →
          terminalId <$> ps' !! 0 = Some (Some (activeTerminalId st)))
     ∧ activePanelId st' = "panel-0"
     ∧ (0 < n → id <$> ps' !! 0 = Some (activePanelId st'))
     ∧ layoutId (splitLayout st') = chosen
     ∧ direction (splitLayout st') = lt_direction layout)
  ∧ (List.find (λ l, bool_decide (lt_id l = chosen)) SPLIT_LAYOUTS = None → st' = st)
  ∧ (chosen = "horizontal-2" → existing = ["t1"] →
     ps' = [ {| id := "panel-0"; terminalId := Some "t1"; ratio := 50 |};
             {| id := "panel-1"; terminalId := None; ratio := 50 |} ]
     ∧ activePanelId st' = "panel-0").
Proof.
  cbv zeta. split; [| split].
  - intros layout Hfind.
    pose proof (λ i, setSplitLayout_lookup chosen layout st i Hfind) as Hlookup.
    assert (∀ i, i < length (defaultRatios layout) →
              ∃ r, defaultRatios layout !! i = Some r) as Hratio
      by (intros i Hi; by apply lookup_lt_is_Some in Hi).
    split; [| split; [| split; [| split; [| split; [| split; [| split]]]]]].
    + apply list_eq. intros i. rewrite list_lookup_fmap, Hlookup.
      by destruct (defaultRatios layout !! i).
    + unfold setSplitLayout. rewrite Hfind. simpl. apply length_imap.
    + intros i Hi. destruct (Hratio i Hi) as [r Hr]. by rewrite Hlookup, Hr.
    + intros i t Hi Ht. destruct (Hratio i Hi) as [r Hr].
      rewrite Hlookup, Hr. simpl. by rewrite Ht.
    + intros i Hi Hge Hcase. destruct (Hratio i Hi) as [r Hr].
      rewrite Hlookup, Hr. simpl.
      rewrite (proj2 (lookup_ge_None _ _) Hge).
      destruct Hcase as [Hne | Hpos].
      * destruct (omap terminalId (panels (splitLayout st))); [done |].
        simpl. by rewrite andb_false_r.
      * destruct i; [lia | done].
    + intros Hnil Hpos. destruct (Hratio 0 Hpos) as [r Hr].
      rewrite Hlookup, Hr. simpl. by rewrite Hnil.
    + unfold setSplitLayout. by rewrite Hfind.
    + split; [| unfold setSplitLayout; by rewrite Hfind].
      intros Hpos. destruct (Hratio 0 Hpos) as [r Hr]. rewrite Hlookup, Hr.
      unfold setSplitLayout. by rewrite Hfind.
  - intros Hnone. unfold setSplitLayout. by rewrite Hnone.
  - intros -> Hexisting. unfold setSplitLayout. simpl. by rewrite Hexisting.
Qed.

Lemma setSplitLayout_preserves_order_witness :
  panels (splitLayout
    (setSplitLayout "horizontal-2"
       (assignTerminalToPanel "panel-0" (Some "t1") initial)))
  = [ {| id := "panel-0"; terminalId := Some "t1"; ratio := 50 |};
      {| id := "panel-1"; terminalId := None; ratio := 50 |} ].
Proof.
  exact (proj1 (proj2 (proj2
    (setSplitLayout_preserves_order "horizontal-2"
       (assignTerminalToPanel "panel-0" (Some "t1") initial))) eq_refl eq_refl)).
Defined.

(** C9 as stated fails when nothing was assigned before: every new
    panel is then an extra panel, yet panel-0 is given the active
    terminal id instead of staying unassigned. *)
Lemma setSplitLayout_counterexample :
  omap terminalId (panels (splitLayout initial)) = []
  ∧ assigned "panel-0" (panels (splitLayout (setSplitLayout "horizontal-2" initial)))
    = Some (Some "default")
  ∧ assigned "panel-0" (panels (splitLayout (setSplitLayout "horizontal-2" initial)))
    ≠ Some None.
Proof. repeat split; try (vm_compute; reflexivity). vm_compute. discriminate. Qed.

End Layout.

(** ** The local registry as a whole: sequences of requests and events *)

Section LocalRegistryRuns.

Import Main.

Implicit Types (st : State) (env : Env) (ev : Event) (evs : list Event).

Lemma run_app env evs1 evs2 st :
  run env (evs1 ++ evs2) st = run env evs2 (run env evs1 st).
Proof. unfold run. apply foldl_app. Qed.

Lemma run_snoc env evs ev st :
  run env (evs ++ [ev]) st = step env ev (run env evs st).
Proof. by rewrite run_app. Qed.

(** Properties of every state reached from the start are proved by
    induction on the events handled so far. *)
Lemma run_invariant env (P : State → Prop) (loaded : bool) :
  P (initial loaded) →
  (∀ ev st, P st → P (step env ev st)) →
  ∀ evs, P (run env evs (initial loaded)).
Proof.
  intros Hinit Hstep evs. induction evs as [| ev evs IH] using rev_ind; [done |].
  rewrite run_snoc. by apply Hstep.
Qed.

(** *** Operations on a terminal that is gone *)

(** After a successful [terminal:kill] the PTY has been told to die, the
    entry is gone, entries of other ids are untouched, and every further
    write, resize or kill for the id reports "Terminal not found" without
    touching the state. *)
Theorem kill_then_not_found (id : string) (st : State) (entry : TerminalEntry) :
  terminals st !! id = Some entry →
  let st1 := (terminal_kill id st).1 in
  (terminal_kill id st).2 = Success
  ∧ trace st1 = trace st ++ [PtyKill (pty entry)]
  ∧ terminals st1 !! id = None
  ∧ (∀ other, other ≠ id → terminals st1 !! other = terminals st !! other)
  ∧ (∀ data, terminal_write id data st1 = (st1, Failure "Terminal not found"))
  ∧ (∀ cols rows, terminal_resize id cols rows st1 = (st1, Failure "Terminal not found"))
  ∧ terminal_kill id st1 = (st1, Failure "Terminal not found").
Proof.
  intros Hentry. cbv zeta.
  assert (terminal_kill id st
          = (set_terminals (delete id) (emit (PtyKill (pty entry)) st), Success)) as ->
    by (unfold terminal_kill; by rewrite Hentry).
  cbn [fst snd].
  set (st1 := set_terminals (delete id) (emit (PtyKill (pty entry)) st)).
  assert (terminals st1 !! id = None) as Hgone by apply lookup_delete_eq.
  split; [done |]. split; [done |]. split; [done |].
  split; [intros other Hne; simpl; by rewrite lookup_delete_ne |].
  unfold terminal_write, terminal_resize, terminal_kill. by rewrite Hgone.
Qed.

Lemma kill_then_not_found_witness :
  let st := (terminal_create posix_env "t1" None (initial true)).1 in
  terminal_write "t1" "x" (terminal_kill "t1" st).1
  = ((terminal_kill "t1" st).1, Failure "Terminal not found").
Proof.
  exact (proj1 (proj2 (proj2 (proj2 (proj2
    (kill_then_not_found "t1" (terminal_create posix_env "t1" None (initial true)).1
       {| pty := 0; pid := 100 |} eq_refl))))) "x").
Defined.

(** *** The pending set *)

Lemma mark_then_unmark (id : string) (pending : gset string) :
  id ∉ pending → ({[id]} ∪ pending) ∖ {[id]} = pending.
Proof.
  intros Hfresh. apply set_eq. intros x.
  rewrite elem_of_difference, elem_of_union, !elem_of_singleton.
  split; [intros [[-> | Hx] Hne]; done |].
  intros Hx. split; [by right |]. by intros ->.
Qed.

Lemma terminal_runClaude_pending env (id cwd : string) st :
  pendingTerminals (terminal_runClaude env id cwd st).1 = pendingTerminals st.
Proof.
  unfold terminal_runClaude. destruct (ptyLoaded st); simpl; [| done].
  case_bool_decide as Hentry; simpl; [done |].
  case_bool_decide as Hpending; simpl; [done |].
  destruct (pty_spawn env _ _); simpl; by apply mark_then_unmark.
Qed.

Lemma step_pending env ev st :
  pendingTerminals (step env ev st) = pendingTerminals st.
Proof.
  destruct ev as [id cwd | id data | id cols rows | id | id cwd | h data | h code]; simpl.
  - unfold terminal_create, spawn. destruct (ptyLoaded st); simpl; [| done].
    by destruct (pty_spawn env _ _).
  - unfold terminal_write. by destruct (terminals st !! id).
  - unfold terminal_resize. by destruct (terminals st !! id).
  - unfold terminal_kill. by destruct (terminals st !! id).
  - apply terminal_runClaude_pending.
  - unfold pty_data. destruct (closures st !! h) as [c |]; [| done].
    destruct (cl_origin c); unfold create_onData, runClaude_onData, safeSend.
    + by destruct (windowLive st).
    + destruct (terminals st !! cl_id c) as [e |]; [| done].
      case_decide; [| done]. by destruct (windowLive st).
  - unfold pty_exit. destruct (closures st !! h) as [c |]; [| done].
    destruct (cl_origin c); unfold create_onExit, runClaude_onExit, safeSend;
      (destruct (terminals st !! cl_id c) as [e |]; [| done]);
      (case_decide; [| done]); by destruct (windowLive st).
Qed.

(** [terminal:runClaude] never leaves an id pending: it removes the mark
    it set before it returns, whatever the spawn did.  As every handler
    runs to completion, the pending set is empty whenever a request
    arrives, so the "being created" half of the guard never fires. *)
Theorem pending_set_always_empty env (evs : list Event) (loaded : bool)
    (id cwd : string) (st : State) :
  pendingTerminals (terminal_runClaude env id cwd st).1 = pendingTerminals st
  ∧ pendingTerminals (run env evs (initial loaded)) = ∅.
Proof.
  split; [apply terminal_runClaude_pending |].
  apply (run_invariant env (λ st, pendingTerminals st = ∅)); [done |].
  intros ev st' H. by rewrite step_pending.
Qed.

(** *** Listeners of registered processes *)

Lemma safeSend_windowLive (e : Effect) st : windowLive (safeSend e st).1 = windowLive st.
Proof. unfold safeSend. by destruct (windowLive st) eqn:Hlive. Qed.

Lemma step_windowLive env ev st : windowLive (step env ev st) = windowLive st.
Proof.
  destruct ev as [id cwd | id data | id cols rows | id | id cwd | h data | h code]; simpl.
  - unfold terminal_create, spawn. destruct (ptyLoaded st); simpl; [| done].
    by destruct (pty_spawn env _ _).
  - unfold terminal_write. by destruct (terminals st !! id).
  - unfold terminal_resize. by destruct (terminals st !! id).
  - unfold terminal_kill. by destruct (terminals st !! id).
  - unfold terminal_runClaude, spawn. destruct (ptyLoaded st); simpl; [| done].
    destruct (_ || _); [done |]. simpl. by destruct (pty_spawn env _ _).
  - unfold pty_data. destruct (closures st !! h) as [c |]; [| done].
    destruct (cl_origin c); unfold create_onData, runClaude_onData.
    + apply safeSend_windowLive.
    + destruct (terminals st !! cl_id c) as [e |]; [| done].
      case_decide; [apply safeSend_windowLive | done].
  - unfold pty_exit. destruct (closures st !! h) as [c |]; [| done].
    destruct (cl_origin c); unfold create_onExit, runClaude_onExit;
      (destruct (terminals st !! cl_id c) as [e |]; [| done]);
      (case_decide; [| done]); simpl; apply safeSend_windowLive.
Qed.

(** Removing entries, or making further spawn calls, keeps the listeners
    of the entries that remain. *)
Lemma registry_listens_shrink st st' :
  (∀ id entry, terminals st' !! id = Some entry → terminals st !! id = Some entry) →
  closures st' = closures st →
  spawnCalls st ≤ spawnCalls st' →
  registry_listens st → registry_listens st'.
Proof.
  intros Hsub Hcl Hcalls [Hentries Hhandles]. split.
  - intros id entry Hentry. rewrite Hcl. by apply Hentries, Hsub.
  - intros handle c Hc. rewrite Hcl in Hc. specialize (Hhandles _ _ Hc). lia.
Qed.

(** Installing the entry and the listeners of a fresh spawn. *)
Lemma registry_listens_install st st' (origin : Origin) (id : string) (pid : nat) :
  terminals st' = <[id := {| pty := spawnCalls st; pid := pid |}]> (terminals st) →
  closures st'
  = <[spawnCalls st := {| cl_origin := origin; cl_id := id; cl_pid := pid |}]> (closures st) →
  spawnCalls st' = S (spawnCalls st) →
  registry_listens st → registry_listens st'.
Proof.
  intros Hterm Hcl Hcalls [Hentries Hhandles]. split.
  - intros id' entry. rewrite Hterm, Hcl.
    destruct (decide (id = id')) as [<- | Hne].
    + rewrite lookup_insert_eq. intros [= <-]. simpl. rewrite lookup_insert_eq. eauto.
    + rewrite lookup_insert_ne by done. intros Hentry.
      destruct (Hentries _ _ Hentry) as (c & Hc & Hid & Hpid).
      exists c. split; [| done]. rewrite lookup_insert_ne; [done |].
      specialize (Hhandles _ _ Hc). lia.
  - intros handle c. rewrite Hcl, Hcalls.
    destruct (decide (spawnCalls st = handle)) as [<- | Hne].
    + intros _. lia.
    + rewrite lookup_insert_ne by done. intros Hc. specialize (Hhandles _ _ Hc). lia.
Qed.

Lemma step_registry_listens env ev st :
  registry_listens st → registry_listens (step env ev st).
Proof.
  intros Hinv.
  destruct ev as [id cwd | id data | id cols rows | id | id cwd | h data | h code]; simpl.
  - unfold terminal_create, spawn. destruct (ptyLoaded st); simpl; [| done].
    destruct (pty_spawn env _ _) as [pid | err]; simpl.
    + by eapply (registry_listens_install st _ ByCreate id pid).
    + eapply registry_listens_shrink; [| | | exact Hinv]; simpl; [done | done | lia].
  - unfold terminal_write. destruct (terminals st !! id); [| done].
    by eapply registry_listens_shrink; [| | | exact Hinv].
  - unfold terminal_resize. destruct (terminals st !! id); [| done].
    by eapply registry_listens_shrink; [| | | exact Hinv].
  - unfold terminal_kill. destruct (terminals st !! id) eqn:Hid; [| done]. simpl.
    eapply registry_listens_shrink; [| | | exact Hinv]; simpl; [| done | done].
    intros id' entry Hentry. by apply lookup_delete_Some in Hentry as [_ ?].
  - unfold terminal_runClaude, spawn. destruct (ptyLoaded st); simpl; [| done].
    destruct (_ || _); [done |]. simpl.
    destruct (pty_spawn env _ _) as [pid | err]; simpl.
    + by eapply (registry_listens_install st _ ByRunClaude id pid).
    + eapply registry_listens_shrink; [| | | exact Hinv]; simpl; [done | done | lia].
  - unfold pty_data. destruct (closures st !! h) as [c |]; [| done].
    destruct (cl_origin c); unfold create_onData, runClaude_onData, safeSend.
    + destruct (windowLive st); [| done].
      by eapply registry_listens_shrink; [| | | exact Hinv].
    + destruct (terminals st !! cl_id c) as [e |]; [| done].
      case_decide; [| done]. destruct (windowLive st); [| done].
      by eapply registry_listens_shrink; [| | | exact Hinv].
  - unfold pty_exit. destruct (closures st !! h) as [c |]; [| done].
    assert (registry_listens
              (set_terminals (delete (cl_id c))
                 (safeSend (SendExit (cl_id c) code) st).1)) as Hdel.
    { eapply registry_listens_shrink; [| | | exact Hinv];
        unfold safeSend; destruct (windowLive st); simpl; try done.
      all: intros id' entry Hentry; by apply lookup_delete_Some in Hentry as [_ ?]. }
    destruct (cl_origin c); unfold create_onExit, runClaude_onExit;
      (destruct (terminals st !! cl_id c) as [e |]; [| done]);
      by case_decide.
Qed.

(** In every state reached from the start, the exit of the process that
    is registered for an id is acted upon: the listener on its handle
    finds its own pid in the registry, deletes the entry and sends
    ['terminal:exit'] with the exit code to the renderer. *)
Theorem registered_exit_always_processed env (evs : list Event) (loaded : bool)
    (id : string) (entry : TerminalEntry) (exitCode : Z) :
  let st := run env evs (initial loaded) in
  terminals st !! id = Some entry →
  let st' := step env (PtyExits (pty entry) exitCode) st in
  terminals st' = delete id (terminals st)
  ∧ trace st' = trace st ++ [SendExit id exitCode]
  ∧ (∀ data, (terminal_write id data st').2 = Failure "Terminal not found").
Proof.
  cbv zeta. intros Hentry.
  set (st := run env evs (initial loaded)) in *.
  assert (registry_listens st) as [Hentries _].
  { apply (run_invariant env registry_listens); [| apply step_registry_listens].
    split; intros ?? H; simpl in H; by rewrite lookup_empty in H. }
  assert (windowLive st = true) as Hlive.
  { apply (run_invariant env (λ st, windowLive st = true)); [done |].
    intros ev st0 H. by rewrite step_windowLive. }
  destruct (Hentries _ _ Hentry) as (c & Hc & Hid & Hpid).
  assert (step env (PtyExits (pty entry) exitCode) st
          = set_terminals (delete id) (emit (SendExit id exitCode) st)) as ->.
  { simpl. unfold pty_exit. rewrite Hc.
    destruct (cl_origin c); unfold create_onExit, runClaude_onExit, safeSend;
      rewrite Hid, Hentry, Hpid, decide_True, Hlive by done; done. }
  split; [done |]. split; [done |].
  intros data. unfold terminal_write. simpl. by rewrite lookup_delete_eq.
Qed.

Lemma registered_exit_always_processed_witness :
  let st := run posix_env [IpcRunClaude "a" "/work"; IpcKill "a"; IpcCreate "a" None]
              (initial true) in
  trace (step posix_env (PtyExits 1 0) st) = trace st ++ [SendExit "a" 0%Z].
Proof.
  exact (proj1 (proj2
    (registered_exit_always_processed posix_env
       [IpcRunClaude "a" "/work"; IpcKill "a"; IpcCreate "a" None] true "a"
       {| pty := 1; pid := 101 |} 0 eq_refl))).
Defined.

(** *** Output of superseded processes *)

(** The two [onData] listeners differ.  Output of a PTY spawned by
    [terminal:runClaude] is forwarded only while the registry still holds
    that process for the id; output of a PTY spawned by [terminal:create]
    is forwarded under its id whatever the registry holds, so also after
    the terminal was killed or replaced.  Neither touches the registry. *)
Theorem stale_output_forwarding (handle : nat) (data : string) (st : State)
    (c : PtyClosure) :
  closures st !! handle = Some c →
  windowLive st = true →
  let st' := pty_data handle data st in
  terminals st' = terminals st
  ∧ (cl_origin c = ByCreate → trace st' = trace st ++ [SendData (cl_id c) data])
  ∧ (cl_origin c = ByRunClaude →
     (∀ entry, terminals st !! cl_id c = Some entry → pid entry = cl_pid c →
        trace st' = trace st ++ [SendData (cl_id c) data])
     ∧ ((∀ entry, terminals st !! cl_id c = Some entry → pid entry ≠ cl_pid c) →
        st' = st)).
Proof.
  intros Hc Hlive. cbv zeta. unfold pty_data. rewrite Hc.
  unfold create_onData, runClaude_onData, safeSend. rewrite Hlive.
  destruct (cl_origin c); simpl.
  - split; [done |]. split; [done |]. intros [=].
  - destruct (terminals st !! cl_id c) as [e |] eqn:He.
    + case_decide as Hpid; simpl.
      * split; [done |]. split; [intros [=] |]. intros _. split; [done |].
        intros Hstale. by destruct (Hstale e eq_refl).
      * split; [done |]. split; [intros [=] |]. intros _. split; [| done].
        intros entry [= <-] Hmatch. done.
    + split; [done |]. split; [intros [=] |]. intros _. split; [| done].
      intros entry [=].
Qed.

Lemma stale_output_forwarding_witness :
  let st := run posix_env [IpcCreate "a" None; IpcKill "a"] (initial true) in
  terminals st !! "a" = None
  ∧ trace (pty_data 0 "late output" st) = trace st ++ [SendData "a" "late output"].
Proof.
  split; [reflexivity |].
  exact (proj1 (proj2
    (stale_output_forwarding 0 "late output"
       (run posix_env [IpcCreate "a" None; IpcKill "a"] (initial true))
       {| cl_origin := ByCreate; cl_id := "a"; cl_pid := 100 |} eq_refl eq_refl))
    eq_refl).
Defined.

(** *** Repeated agent launches *)

Lemma run_repeat_fixed env ev st (n : nat) :
  step env ev st = st → run env (repeat ev n) st = st.
Proof. intros Hfix. induction n as [| n IH]; [done |]. simpl. by rewrite Hfix. Qed.

(** However often [terminal:runClaude] is requested for an id (rapid
    repeated mounts), one process is spawned: the first request spawns and
    registers it, every further one finds the entry and changes nothing. *)
Theorem runClaude_repeated_spawns_once env (id cwd : string) (st : State)
    (newPid n : nat) :
  ptyLoaded st = true →
  terminals st !! id = None →
  id ∉ pendingTerminals st →
  pty_spawn env (spawnCalls st) (shellOptions (agentShell env) (getValidCwd env (Some cwd)))
    = Spawned newPid →
  let st' := run env (repeat (IpcRunClaude id cwd) (S n)) st in
  st' = (terminal_runClaude env id cwd st).1
  ∧ spawnCount id st' = S (spawnCount id st)
  ∧ spawnCalls st' = S (spawnCalls st)
  ∧ terminals st' !! id = Some {| pty := spawnCalls st; pid := newPid |}.
Proof.
  intros Hloaded Habsent Hfresh Hspawn. cbv zeta.
  assert (terminal_runClaude env id cwd st
          = (listen (spawnCalls st)
               {| cl_origin := ByRunClaude; cl_id := id; cl_pid := newPid |}
               (set_pending (λ p, p ∖ {[id]})
                  (set_terminals <[id := {| pty := spawnCalls st; pid := newPid |}]>
                     (spawn env id
                        (shellOptions (agentShell env) (getValidCwd env (Some cwd)))
                        (set_pending (λ p, {[id]} ∪ p) st)).1)),
             Success)) as Hfirst.
  { unfold terminal_runClaude, spawn. rewrite Hloaded. cbv zeta. cbn [negb].
    rewrite bool_decide_false by (rewrite Habsent; by intros [? ?]).
    rewrite bool_decide_false by done. cbn [orb spawnCalls set_pending].
    by rewrite Hspawn. }
  simpl. rewrite Hfirst. cbn [fst].
  match goal with |- run env _ ?s = _ ∧ _ => set (st1 := s) end.
  assert (terminals st1 !! id = Some {| pty := spawnCalls st; pid := newPid |}) as Hentry
    by (subst st1; simpl; by rewrite lookup_insert_eq).
  rewrite run_repeat_fixed.
  - split; [done |]. split; [| done].
    subst st1. unfold spawnCount. simpl.
    rewrite List.filter_app, length_app. simpl.
    rewrite bool_decide_true by done. simpl. lia.
  - simpl. rewrite terminal_runClaude_idempotent; [done | done |]. left. by rewrite Hentry.
Qed.

Lemma runClaude_repeated_spawns_once_witness :
  spawnCount "a" (run posix_env (repeat (IpcRunClaude "a" "/work") 5) (initial true)) = 1.
Proof.
  exact (proj1 (proj2
    (runClaude_repeated_spawns_once posix_env "a" "/work" (initial true) 100 4
       eq_refl eq_refl ltac:(apply not_elem_of_empty) eq_refl))).
Defined.

(** *** What the local handlers spawn *)

Lemma str_or_nonempty (s : option string) (d : string) : d ≠ "" → str_or s d ≠ "".
Proof. intros Hd. unfold str_or. destruct s as [v |]; [| done]. by case_decide. Qed.

Lemma getValidCwd_exists env (requestedCwd : option string) :
  existsSync env (homedir env) = true →
  existsSync env (getValidCwd env requestedCwd) = true.
Proof.
  intros Hhome. unfold getValidCwd. destruct requestedCwd as [c |]; [| done].
  destruct (negb _); simpl; [| done]. by destruct (existsSync env c) eqn:Hc.
Qed.

Lemma createShell_options env (cwd : option string) :
  local_spawn_options env (shellOptions (createShell env) (getValidCwd env cwd)).
Proof.
  unfold local_spawn_options, shellOptions, createShell.
  split; [done |]. split; [done |].
  destruct (platform_win32 env); simpl.
  - split; [by apply str_or_nonempty |]. split; [by left |]. apply getValidCwd_exists.
  - split; [by apply str_or_nonempty |]. split; [right; by left |]. apply getValidCwd_exists.
Qed.

Lemma agentShell_options env (cwd : option string) :
  local_spawn_options env (shellOptions (agentShell env) (getValidCwd env cwd)).
Proof.
  unfold local_spawn_options, shellOptions, agentShell.
  split; [done |]. split; [done |].
  destruct (platform_win32 env); [destruct (existsSync env powershellPath) |]; simpl.
  - split; [done |]. split; [right; by right |]. apply getValidCwd_exists.
  - split; [by apply str_or_nonempty |]. split; [by left |]. apply getValidCwd_exists.
  - split; [by apply str_or_nonempty |]. split; [right; by left |]. apply getValidCwd_exists.
Qed.

Lemma step_spawns_well env ev st :
  Forall (spawns_well env) (trace st) → Forall (spawns_well env) (trace (step env ev st)).
Proof.
  intros Hinv.
  assert (∀ e, spawns_well env e → Forall (spawns_well env) (trace st ++ [e])) as Hsnoc
    by (intros e He; apply Forall_app; split; [done | by constructor]).
  assert (∀ e, spawns_well env e → Forall (spawns_well env) (trace (safeSend e st).1))
    as Hsend by (intros e He; unfold safeSend; destruct (windowLive st); simpl; auto).
  destruct ev as [id cwd | id data | id cols rows | id | id cwd | h data | h code]; simpl.
  - unfold terminal_create, spawn. destruct (ptyLoaded st); simpl; [| done].
    destruct (pty_spawn env _ _); simpl; apply Hsnoc; exact (createShell_options env cwd).
  - unfold terminal_write. destruct (terminals st !! id); simpl; [by apply Hsnoc | done].
  - unfold terminal_resize. destruct (terminals st !! id); simpl; [by apply Hsnoc | done].
  - unfold terminal_kill. destruct (terminals st !! id); simpl; [by apply Hsnoc | done].
  - unfold terminal_runClaude, spawn. destruct (ptyLoaded st); simpl; [| done].
    destruct (_ || _); [done |]. simpl.
    destruct (pty_spawn env _ _); simpl; apply Hsnoc;
      exact (agentShell_options env (Some cwd)).
  - unfold pty_data. destruct (closures st !! h) as [c |]; [| done].
    destruct (cl_origin c); unfold create_onData, runClaude_onData.
    + by apply Hsend.
    + destruct (terminals st !! cl_id c) as [e |]; [| done].
      case_decide; [by apply Hsend | done].
  - unfold pty_exit. destruct (closures st !! h) as [c |]; [| done].
    destruct (cl_origin c); unfold create_onExit, runClaude_onExit;
      (destruct (terminals st !! cl_id c) as [e |]; [| done]);
      (case_decide; [| done]); simpl; by apply Hsend.
Qed.

(** Whatever is requested, every process the local handlers spawn is a
    120x30 terminal running a shell with a non-empty program path (an
    empty [SHELL] or [COMSPEC] falls back to the default), with one of the
    three fixed argument lists, in a working directory that exists
    whenever the home directory does. *)
Theorem local_spawns_are_well_formed env (evs : list Event) (loaded : bool)
    (id : string) (opts : SpawnOptions) :
  Spawn id opts ∈ trace (run env evs (initial loaded)) →
  local_spawn_options env opts.
Proof.
  intros Hin.
  assert (Forall (spawns_well env) (trace (run env evs (initial loaded)))) as Hall.
  { apply (run_invariant env (λ st, Forall (spawns_well env) (trace st)));
      [constructor | intros ev st; apply step_spawns_well]. }
  rewrite Forall_forall in Hall. exact (Hall _ Hin).
Qed.

(** A host whose [SHELL] variable is set but empty. *)
Lemma local_spawns_are_well_formed_witness :
  let env := {| platform_win32 := false; env_COMSPEC := None; env_SHELL := Some "";
                existsSync := λ p, bool_decide (p = "/home/user"); homedir := "/home/user";
                pty_spawn := λ n _, Spawned (100 + n) |} in
  local_spawn_options env
    {| sp_file := "/bin/bash"; sp_args := ["--login"]; sp_cols := 120; sp_rows := 30;
       sp_cwd := "/home/user" |}.
Proof.
  apply (local_spawns_are_well_formed _ [IpcCreate "a" (Some "/nowhere")] true "a").
  simpl. apply list_elem_of_singleton. reflexivity.
Defined.

End LocalRegistryRuns.

(** ** The renderer's bootstrap, beyond the fallback *)

Section Bootstrap.

Import Main XTerminal.

Lemma writelns_initialized (terminalId : string) (lines : list string) (r : XTerminal.State) :
  initializedTerminals (writelns terminalId lines r) = initializedTerminals r.
Proof.
  revert r. induction lines as [| l lines IH]; intros r; [done |].
  unfold writelns in *. simpl. by rewrite IH.
Qed.

Lemma initTerminal_initialized (hasElectronAPI : bool) (env : Env) (id cwd : string)
    (w : Main.State * XTerminal.State) :
  id ∈ initializedTerminals (initTerminal hasElectronAPI env id cwd w).2.
Proof.
  destruct w as [m r]. unfold initTerminal.
  case_bool_decide as Hin; [done |].
  assert (id ∈ ({[id]} ∪ initializedTerminals r : gset string)) as Hmarked
    by (apply elem_of_union_l, elem_of_singleton; reflexivity).
  destruct hasElectronAPI.
  - destruct (terminal_runClaude env id cwd m) as [m1 result].
    destruct (success result); [done |].
    destruct (terminal_create env id (Some cwd) m1) as [m2 shellResult].
    destruct (success shellResult); cbn [snd fst initializedTerminals writeln];
      by rewrite writelns_initialized.
  - cbn [snd fst initializedTerminals write]. by rewrite writelns_initialized.
Qed.

(** Mounting the same terminal twice (React StrictMode, a split-view
    switch) runs the bootstrap once: the second [initTerminal] for an id
    makes no IPC call, spawns nothing and writes nothing. *)
Theorem initTerminal_idempotent (hasElectronAPI : bool) (env : Env) (id cwd cwd' : string)
    (w : Main.State * XTerminal.State) :
  initTerminal hasElectronAPI env id cwd' (initTerminal hasElectronAPI env id cwd w)
  = initTerminal hasElectronAPI env id cwd w.
Proof.
  pose proof (initTerminal_initialized hasElectronAPI env id cwd w) as Hin.
  destruct (initTerminal hasElectronAPI env id cwd w) as [m' r'].
  unfold initTerminal. simpl in Hin. by rewrite bool_decide_true.
Qed.

(** In Electron, with node-pty loaded and no terminal registered or
    pending for the id, the bootstrap leaves the id registered exactly when
    one of its two spawn attempts succeeds: the agent shell, or else the
    fallback shell.  It never makes more than two attempts, and when the
    first one succeeds nothing is written to the widget. *)
Theorem initTerminal_registers_iff (env : Env) (id cwd : string)
    (m : Main.State) (r : XTerminal.State) :
  id ∉ initializedTerminals r →
  ptyLoaded m = true →
  terminals m !! id = None →
  id ∉ pendingTerminals m →
  let agentOpts := shellOptions (agentShell env) (getValidCwd env (Some cwd)) in
  let fallbackOpts := shellOptions (createShell env) (getValidCwd env (Some cwd)) in
  let m' := (initTerminal true env id cwd (m, r)).1 in
  let r' := (initTerminal true env id cwd (m, r)).2 in
  (is_Some (terminals m' !! id) ↔
     (∃ pid, pty_spawn env (spawnCalls m) agentOpts = Spawned pid)
     ∨ (∃ pid, pty_spawn env (S (spawnCalls m)) fallbackOpts = Spawned pid))
  ∧ spawnCount id m' ≤ spawnCount id m + 2
  ∧ (∀ pid, pty_spawn env (spawnCalls m) agentOpts = Spawned pid →
       terminals m' !! id = Some {| pty := spawnCalls m; pid := pid |}
       ∧ spawnCount id m' = spawnCount id m + 1
       ∧ output r' = output r).
Proof.
  intros Hfresh Hloaded Habsent Hnotpending. cbv zeta.
  unfold initTerminal. rewrite bool_decide_false by done.
  unfold terminal_runClaude, spawn. rewrite Hloaded. cbv zeta. cbn [negb].
  rewrite bool_decide_false by (rewrite Habsent; by intros [? ?]).
  rewrite bool_decide_false by done. cbn [orb spawnCalls set_pending].
  destruct (pty_spawn env (spawnCalls m) _) as [pid | err] eqn:Hagent.
  - cbn [success fst snd]. simpl. rewrite lookup_insert_eq.
    split; [split; [intros _; left; eauto | eauto] |].
    unfold spawnCount. simpl. rewrite List.filter_app, length_app. simpl.
    rewrite bool_decide_true by done. simpl.
    split; [lia |]. intros pid' [= <-]. split; [done |]. split; [lia | done].
  - cbn [success fst snd errorText].
    unfold terminal_create, spawn. simpl ptyLoaded. rewrite Hloaded. cbv zeta. cbn [negb].
    simpl spawnCalls.
    destruct (pty_spawn env (S (spawnCalls m)) _) as [pid2 | err2] eqn:Hfallback.
    + cbn [success fst snd]. simpl. rewrite lookup_insert_eq.
      split; [split; [intros _; right; eauto | eauto] |].
      unfold spawnCount. simpl. rewrite !List.filter_app, !length_app. simpl.
      rewrite bool_decide_true by done. simpl.
      split; [lia |]. intros pid' [=].
    + cbn [success fst snd]. simpl. rewrite Habsent.
      split; [split; [by intros [? ?] | intros [[? [=]] | [? [=]]]] |].
      unfold spawnCount. simpl. rewrite !List.filter_app, !length_app. simpl.
      rewrite bool_decide_true by done. simpl.
      split; [lia |]. intros pid' [=].
Qed.

Lemma initTerminal_registers_iff_witness :
  is_Some (terminals (initTerminal true windows_env "x" "C:\work"
                        (Main.initial true, XTerminal.initial)).1 !! "x").
Proof.
  apply (proj1 (initTerminal_registers_iff windows_env "x" "C:\work"
                  (Main.initial true) XTerminal.initial
                  ltac:(apply not_elem_of_empty) eq_refl eq_refl
                  ltac:(apply not_elem_of_empty))).
  right. by exists 501.
Defined.

End Bootstrap.

(** ** The remote gateway as a whole *)

Section GatewayRuns.

Import License WebTerminal.

Implicit Types (st : State) (ev : Event) (evs : list Event) (sid : string).

Variable env : Env.

Lemma gateway_run_snoc evs ev st :
  run env (evs ++ [ev]) st = step env ev (run env evs st).
Proof. unfold run. by rewrite foldl_app. Qed.

Lemma gateway_run_invariant (P : State → Prop) (edition : Edition) (a : WebAuth.State) :
  P (initial edition a) →
  (∀ ev st, P st → P (step env ev st)) →
  ∀ evs, P (run env evs (initial edition a)).
Proof.
  intros Hinit Hstep evs. induction evs as [| ev evs IH] using rev_ind; [done |].
  rewrite gateway_run_snoc. by apply Hstep.
Qed.

(** *** Sessions and the registry *)

Lemma sessions_registered_frame st st' :
  sockets st' = sockets st →
  webTerminals st' = webTerminals st →
  ptyOwner st' = ptyOwner st →
  spawnCalls st ≤ spawnCalls st' →
  sessions_registered st → sessions_registered st'.
Proof.
  intros Hs Hw Ho Hcalls [Hsess Hown]. split.
  - intros sid c session. rewrite Hs, Hw, Ho. apply Hsess.
  - intros handle sid. rewrite Ho. intros H. specialize (Hown _ _ H). lia.
Qed.

Lemma sessions_registered_emit (e : Effect) st :
  sessions_registered st → sessions_registered (emit e st).
Proof. by apply sessions_registered_frame. Qed.

(** Replacing a socket's closure by one without a session, or by one with
    the same session that is at least as authenticated. *)
Lemma sessions_registered_set_socket sid (c : SocketClosure) st :
  (∀ session, terminalSession c = Some session →
     authenticated c = true
     ∧ ∃ c0, sockets st !! sid = Some c0 ∧ terminalSession c0 = Some session) →
  sessions_registered st → sessions_registered (set_socket sid c st).
Proof.
  intros Hc [Hsess Hown]. split; [| done].
  intros sid' c' session. simpl.
  destruct (decide (sid = sid')) as [<- | Hne].
  - rewrite lookup_insert_eq. intros [= <-] Hsession.
    destruct (Hc _ Hsession) as (Hauth & c0 & Hc0 & Hs0).
    destruct (Hsess _ _ _ Hc0 Hs0) as (_ & ? & ? & ?). done.
  - rewrite lookup_insert_ne by done. apply Hsess.
Qed.

Lemma sessions_registered_cleanup sid st :
  sessions_registered st → sessions_registered (cleanup sid st).
Proof.
  intros Hinv. unfold cleanup.
  destruct (sockets st !! sid) as [c |] eqn:Hc; [| done].
  destruct (terminalSession c) as [session |] eqn:Hsession; [| done].
  destruct Hinv as [Hsess Hown]. split; [| done].
  intros sid' c' session'. simpl.
  destruct (decide (sid = sid')) as [<- | Hne].
  - rewrite lookup_insert_eq. by intros [= <-] [=].
  - rewrite lookup_insert_ne, lookup_delete_ne by done. apply Hsess.
Qed.

Lemma sessions_registered_closed sid st :
  sessions_registered st → sessions_registered (closed sid st).
Proof.
  intros Hinv. unfold closed.
  destruct (sockets st !! sid) as [c |] eqn:Hc; [| done].
  apply sessions_registered_cleanup, sessions_registered_set_socket; [| done].
  simpl. intros session Hsession. destruct Hinv as [Hsess _].
  destruct (Hsess _ _ _ Hc Hsession) as (Hauth & _). eauto.
Qed.

Lemma sessions_registered_socket_disconnect sid st :
  sessions_registered st → sessions_registered (socket_disconnect sid st).
Proof.
  intros Hinv. by apply sessions_registered_closed, sessions_registered_emit.
Qed.

Lemma step_sessions_registered ev st :
  sessions_registered st → sessions_registered (step env ev st).
Proof.
  intros Hinv.
  destruct ev as [s | s tok | s cwd cols rows | s data | s cols rows
                  | s | s | h data | h code | random now]; simpl.
  - unfold connection. case_decide.
    + by do 2 apply sessions_registered_emit.
    + apply sessions_registered_set_socket; [by intros ? [=] | done].
  - destruct (is_connected s st); [| done]. unfold on_auth.
    destruct (sockets st !! s) as [c |] eqn:Hc; [| done].
    destruct (authenticated c); [done |].
    destruct (WebAuth.falsy tok).
    { by apply sessions_registered_socket_disconnect, sessions_registered_emit. }
    destruct (negb _).
    { by apply sessions_registered_socket_disconnect, sessions_registered_emit. }
    apply sessions_registered_emit, sessions_registered_set_socket; [| done].
    simpl. eauto.
  - destruct (is_connected s st); [| done]. unfold on_create_terminal.
    destruct (sockets st !! s) as [c |] eqn:Hc; [| done].
    destruct (authenticated c) eqn:Hauth; simpl; [| by apply sessions_registered_emit].
    case_bool_decide as Hsession; [by apply sessions_registered_emit |].
    destruct (pty_spawn env _ _) as [pid | err].
    + apply sessions_registered_emit. destruct Hinv as [Hsess Hown]. split.
      * intros sid' c' session'. simpl.
        destruct (decide (s = sid')) as [<- | Hne].
        -- rewrite !lookup_insert_eq. intros [= <-] [= <-]. simpl.
           by rewrite lookup_insert_eq.
        -- rewrite !lookup_insert_ne by done. intros Hc' Hs'.
           destruct (Hsess _ _ _ Hc' Hs') as (? & ? & ? & Howner).
           repeat split; try done.
           rewrite lookup_insert_ne; [done |]. specialize (Hown _ _ Howner). lia.
      * intros handle sid'. simpl.
        destruct (decide (spawnCalls st = handle)) as [<- | Hne].
        -- intros _. lia.
        -- rewrite lookup_insert_ne by done. intros H. specialize (Hown _ _ H). lia.
    + apply sessions_registered_emit.
      eapply sessions_registered_frame; [| | | | exact Hinv]; simpl; try done. lia.
  - destruct (is_connected s st); [| done]. unfold on_terminal_input.
    destruct (sockets st !! s) as [c |]; [| done].
    destruct (terminalSession c); [| done].
    destruct (authenticated c); [by apply sessions_registered_emit | done].
  - destruct (is_connected s st); [| done]. unfold on_terminal_resize.
    destruct (sockets st !! s) as [c |]; [| done].
    destruct (terminalSession c); [| done].
    destruct (authenticated c); [by apply sessions_registered_emit | done].
  - destruct (is_connected s st); [| done]. unfold on_kill_terminal.
    destruct (sockets st !! s) as [c |]; [| done].
    case_bool_decide; [| done].
    by apply sessions_registered_emit, sessions_registered_cleanup.
  - destruct (is_connected s st); [| done]. by apply sessions_registered_closed.
  - destruct (ptyOwner st !! h); [| done]. by apply sessions_registered_emit.
  - destruct (ptyOwner st !! h); [| done].
    by apply sessions_registered_cleanup, sessions_registered_emit.
  - by eapply sessions_registered_frame; [| | | | exact Hinv].
Qed.

(** In every state the gateway reaches, a socket that holds a terminal
    session has authenticated, its session is the one registered for its
    id in [webTerminals], and PTY events of that session are routed to it.
    In particular no PTY is ever held for an unauthenticated socket. *)
Theorem sessions_only_for_authenticated_sockets (edition : Edition) (a : WebAuth.State)
    (evs : list Event) (sid : string) (c : SocketClosure) :
  let st := run env evs (initial edition a) in
  sockets st !! sid = Some c →
  (∀ session, terminalSession c = Some session →
     authenticated c = true
     ∧ webTerminals st !! sid = Some session
     ∧ socket session = sid
     ∧ ptyOwner st !! pty session = Some sid)
  ∧ (authenticated c = false → terminalSession c = None).
Proof.
  cbv zeta. intros Hc.
  assert (sessions_registered (run env evs (initial edition a))) as [Hsess _].
  { apply gateway_run_invariant; [| apply step_sessions_registered].
    split; intros ??; simpl; [intros ? H | intros H]; by rewrite lookup_empty in H. }
  split; [intros session Hs; by apply (Hsess _ _ _ Hc Hs) |].
  intros Hunauth. destruct (terminalSession c) as [session |] eqn:Hs; [| done].
  destruct (Hsess _ _ _ Hc Hs) as (Hauth & _). congruence.
Qed.

(** *** The ceiling and terminal creation *)

Lemma on_create_terminal_spawned sid (c : SocketClosure) st
    (cwd : option string) (cols rows : option nat) (pid : nat) :
  sockets st !! sid = Some c →
  authenticated c = true →
  terminalSession c = None →
  pty_spawn env (spawnCalls st) (remoteOptions env cwd cols rows) = Spawned pid →
  let session := {| socket := sid; pty := spawnCalls st; pid := pid |} in
  on_create_terminal env sid cwd cols rows st
  = {| currentEdition := currentEdition st; auth := auth st;
       webTerminals := <[sid := session]> (webTerminals st);
       sockets := <[sid := {| authenticated := true; terminalSession := Some session;
                              connected := connected c |}]> (sockets st);
       spawnCalls := S (spawnCalls st);
       ptyOwner := <[spawnCalls st := sid]> (ptyOwner st);
       trace := trace st ++ [Spawn sid (remoteOptions env cwd cols rows);
                             Emit sid (terminal_ready pid)] |}.
Proof.
  intros Hc Hauth Hnone Hspawn. cbv zeta. unfold on_create_terminal, remoteOptions in *.
  rewrite Hc, Hauth, Hnone. cbn [negb]. rewrite bool_decide_false by (by intros [? ?]).
  cbv zeta. rewrite Hspawn. unfold emit, set_webTerminals, set_socket. simpl.
  by rewrite <- app_assoc.
Qed.

(** [create_terminal] does not look at the ceiling: an open authenticated
    socket without a session gets its PTY whatever the number of sessions
    already registered.  The ceiling is checked when a socket connects, so
    sockets admitted before others opened their terminals can take the
    number of registered sessions past it. *)
Theorem create_terminal_ignores_ceiling sid (c : SocketClosure) st
    (cwd : option string) (cols rows : option nat) (pid : nat) :
  sockets st !! sid = Some c →
  connected c = true →
  authenticated c = true →
  terminalSession c = None →
  webTerminals st !! sid = None →
  pty_spawn env (spawnCalls st) (remoteOptions env cwd cols rows) = Spawned pid →
  let st' := step env (CreateTerminal sid cwd cols rows) st in
  getConnectionCount st' = S (getConnectionCount st)
  ∧ webTerminals st' !! sid = Some {| socket := sid; pty := spawnCalls st; pid := pid |}
  ∧ trace st' = trace st ++ [Spawn sid (remoteOptions env cwd cols rows);
                             Emit sid (terminal_ready pid)].
Proof.
  intros Hc Hopen Hauth Hnone Hfree Hspawn. cbv zeta. simpl.
  unfold is_connected. rewrite Hc, Hopen.
  rewrite (on_create_terminal_spawned sid c st cwd cols rows pid) by done.
  unfold getConnectionCount. simpl.
  split; [by apply map_size_insert_None |]. by rewrite lookup_insert_eq.
Qed.

(** *** Exit of a remote PTY *)

(** The gateway's [onExit] listener has no pid check: when any PTY that
    was created for a socket exits, the socket is sent [terminal_exit] and
    the session it holds at that moment is torn down, also when that
    session belongs to a newer PTY (after [kill_terminal] and a second
    [create_terminal]). *)
Theorem remote_exit_tears_down_current_session (handle : nat) (exitCode : Z) sid
    (c : SocketClosure) (session : WebTerminalSession) st :
  ptyOwner st !! handle = Some sid →
  sockets st !! sid = Some c →
  terminalSession c = Some session →
  let st' := step env (PtyExit handle exitCode) st in
  trace st' = trace st ++ [Emit sid (terminal_exit exitCode); PtyKill (pty session)]
  ∧ webTerminals st' = delete sid (webTerminals st)
  ∧ sockets st' !! sid = Some {| authenticated := authenticated c; terminalSession := None;
                                 connected := connected c |}.
Proof.
  intros Howner Hc Hsession. cbv zeta. simpl. rewrite Howner.
  unfold term_onExit, cleanup. simpl. rewrite Hc, Hsession. simpl.
  split; [by rewrite <- app_assoc |]. split; [done |]. by rewrite lookup_insert_eq.
Qed.

(** *** Refused authentication *)

Lemma socket_disconnect_no_session sid (c : SocketClosure) st :
  sockets st !! sid = Some c →
  terminalSession c = None →
  socket_disconnect sid st
  = set_socket sid {| authenticated := authenticated c; terminalSession := None;
                      connected := false |} (emit (Disconnect sid) st).
Proof.
  intros Hc Hnone. unfold socket_disconnect, closed, cleanup. simpl.
  rewrite Hc. simpl. rewrite lookup_insert_eq. simpl. by rewrite Hnone.
Qed.

(** What [auth] does on an open, unauthenticated socket without a session
    when the token is missing or wrong. *)
Lemma on_auth_refused sid (c : SocketClosure) (token : option WebAuth.jsstring) st :
  sockets st !! sid = Some c →
  connected c = true →
  authenticated c = false →
  terminalSession c = None →
  WebAuth.falsy token = true ∨ WebAuth.validateToken (auth st) (default [] token) = false →
  ∃ reason,
    step env (Auth sid token) st
    = set_socket sid {| authenticated := false; terminalSession := None;
                        connected := false |}
        (emit (Disconnect sid) (emit (Emit sid (auth_error reason)) st)).
Proof.
  intros Hc Hopen Hunauth Hnone Hbad. simpl. unfold is_connected, on_auth.
  rewrite Hc, Hopen, Hunauth.
  destruct (WebAuth.falsy token) eqn:Hfalsy.
  - exists NoTokenProvided.
    rewrite (socket_disconnect_no_session sid c) by done. by rewrite Hunauth.
  - destruct Hbad as [[=] | ->]. simpl. exists InvalidAccessToken.
    rewrite (socket_disconnect_no_session sid c) by done. by rewrite Hunauth.
Qed.

Lemma on_auth_accepted sid (c : SocketClosure) (token : WebAuth.jsstring) st :
  sockets st !! sid = Some c →
  connected c = true →
  authenticated c = false →
  WebAuth.falsy (Some token) = false →
  WebAuth.validateToken (auth st) token = true →
  step env (Auth sid (Some token)) st
  = emit (Emit sid auth_success)
      (set_socket sid {| authenticated := true; terminalSession := terminalSession c;
                         connected := true |} st).
Proof.
  intros Hc Hopen Hunauth Hfalsy Hvalid. cbn [step]. unfold is_connected, on_auth.
  rewrite Hc, Hopen, Hunauth, Hfalsy.
  change (default [] (Some token)) with token. by rewrite Hvalid.
Qed.

(** *** Token rotation and the sockets *)

Lemma step_with_auth (a : WebAuth.State) ev st :
  (∀ sid token, ev ≠ Auth sid token) →
  (∀ random now, ev ≠ RegenerateToken random now) →
  step env ev (with_auth a st) = with_auth a (step env ev st).
Proof.
  intros Hauth Hregen.
  destruct ev as [s | s tok | s cwd cols rows | s data | s cols rows
                  | s | s | h data | h code | random now]; simpl.
  - unfold connection, getMaxConnections, getEdition. simpl. by case_decide.
  - by destruct (Hauth s tok).
  - unfold is_connected, on_create_terminal. simpl.
    destruct (sockets st !! s) as [c |]; [| done].
    destruct (connected c); [| done].
    destruct (authenticated c); simpl; [| done].
    case_bool_decide; [done |]. by destruct (pty_spawn env _ _).
  - unfold is_connected, on_terminal_input. simpl.
    destruct (sockets st !! s) as [c |]; [| done].
    destruct (connected c); [| done].
    destruct (terminalSession c); [| done]. by destruct (authenticated c).
  - unfold is_connected, on_terminal_resize. simpl.
    destruct (sockets st !! s) as [c |]; [| done].
    destruct (connected c); [| done].
    destruct (terminalSession c); [| done]. by destruct (authenticated c).
  - unfold is_connected, on_kill_terminal, cleanup. simpl.
    destruct (sockets st !! s) as [c |]; [| done].
    destruct (connected c); [| done].
    case_bool_decide; [| done]. by destruct (terminalSession c).
  - unfold is_connected, closed, cleanup. simpl.
    destruct (sockets st !! s) as [c |]; [| done].
    destruct (connected c); [| done]. simpl. rewrite lookup_insert_eq. simpl.
    by destruct (terminalSession c).
  - by destruct (ptyOwner st !! h).
  - destruct (ptyOwner st !! h) as [s |]; [| done].
    unfold term_onExit, cleanup. simpl.
    destruct (sockets st !! s) as [c |]; [| done]. by destruct (terminalSession c).
  - by destruct (Hregen random now).
Qed.

(** Rotating the token touches nothing but the token: sockets, sessions
    and trace are as before and every event other than [auth] is handled
    exactly as it would have been, so sockets that authenticated with the
    old token keep their session and can still open a terminal.  For a
    socket that has not authenticated yet, the old value is refused with
    [auth_error] and a disconnect, and the new value is accepted. *)
Theorem rotation_affects_only_new_authentications (random : list Byte.byte) (now : N) st :
  length random = 32 →
  let new := WebAuth.toString_hex random in
  let st1 := step env (RegenerateToken random now) st in
  st1 = with_auth (WebAuth.regenerateToken random now (auth st)).1 st
  ∧ (∀ ev, (∀ sid token, ev ≠ Auth sid token) →
           (∀ r n, ev ≠ RegenerateToken r n) →
           step env ev st1
           = with_auth (WebAuth.regenerateToken random now (auth st)).1 (step env ev st))
  ∧ (∀ sid c old,
       sockets st !! sid = Some c → connected c = true → authenticated c = false →
       terminalSession c = None → old ≠ new →
       ∃ reason,
         trace (step env (Auth sid (Some old)) st1)
         = trace st ++ [Emit sid (auth_error reason); Disconnect sid]
         ∧ is_connected sid (step env (Auth sid (Some old)) st1) = false)
  ∧ (∀ sid c,
       sockets st !! sid = Some c → connected c = true → authenticated c = false →
       trace (step env (Auth sid (Some new)) st1) = trace st ++ [Emit sid auth_success]).
Proof.
  intros Hlen. cbv zeta.
  assert (step env (RegenerateToken random now) st
          = with_auth (WebAuth.regenerateToken random now (auth st)).1 st) as -> by done.
  set (a := (WebAuth.regenerateToken random now (auth st)).1).
  assert (∀ token, WebAuth.validateToken a token = true ↔ token = WebAuth.toString_hex random)
    as Hvalid.
  { intros token. apply validateToken_iff; [done | | apply toString_hex_ascii].
    intros E. pose proof (length_toString_hex random) as Hl. rewrite E, Hlen in Hl. done. }
  split; [done |]. split; [intros ev H1 H2; by apply step_with_auth |]. split.
  - intros sid c old Hc Hopen Hunauth Hnone Hold.
    destruct (on_auth_refused sid c (Some old) (with_auth a st)) as [reason ->];
      try done.
    + right. simpl. destruct (WebAuth.validateToken a old) eqn:Hv; [| done].
      by apply Hvalid in Hv.
    + exists reason. simpl. split; [by rewrite <- app_assoc |].
      unfold is_connected. simpl. by rewrite lookup_insert_eq.
  - intros sid c Hc Hopen Hunauth.
    rewrite (on_auth_accepted sid c (WebAuth.toString_hex random)); try done.
    + pose proof (length_toString_hex random) as Hl. rewrite Hlen in Hl.
      by destruct (WebAuth.toString_hex random).
    + by apply Hvalid.
Qed.

(** *** A socket that has been closed *)














(** *** Disconnecting *)

(** When a socket that holds a registered session goes away, its PTY is
    killed and its registry entry removed, which frees one place under the
    ceiling: a gateway that was exactly full, and so was turning new
    sockets away, admits the next one. *)
Theorem disconnect_frees_a_place sid sid' (c : SocketClosure)
    (session registered : WebTerminalSession) st :
  sockets st !! sid = Some c →
  connected c = true →
  terminalSession c = Some session →
  webTerminals st !! sid = Some registered →
  getConnectionCount st = getMaxConnections st →
  let st1 := step env (SocketClosed sid) st in
  trace st1 = trace st ++ [PtyKill (pty session)]
  ∧ S (getConnectionCount st1) = getConnectionCount st
  ∧ webTerminals st1 !! sid = None
  ∧ is_connected sid st1 = false
  ∧ trace (step env (Connection sid') st)
    = trace st ++ [Emit sid' (error (MaxConnectionsReached (getMaxConnections st)));
                   Disconnect sid']
  ∧ step env (Connection sid') st1
    = set_socket sid' {| authenticated := false; terminalSession := None;
                         connected := true |} st1.
Proof.
  intros Hc Hopen Hsession Hreg Hfull. cbv zeta.
  assert (step env (SocketClosed sid) st
          = set_socket sid {| authenticated := authenticated c; terminalSession := None;
                              connected := false |}
              (set_webTerminals (delete sid)
                 (emit (PtyKill (pty session))
                    (set_socket sid {| authenticated := authenticated c;
                                       terminalSession := Some session;
                                       connected := false |} st)))) as ->.
  { simpl. unfold is_connected, closed, cleanup. rewrite Hc, Hopen. simpl.
    rewrite lookup_insert_eq. simpl. by rewrite Hsession. }
  unfold getConnectionCount in *. simpl.
  assert (S (size (delete sid (webTerminals st))) = size (webTerminals st)) as Hsize.
  { rewrite <- (insert_delete_id (webTerminals st) sid registered Hreg) at 2.
    rewrite map_size_insert_None; [done | apply lookup_delete_eq]. }
  split; [done |]. split; [done |]. split; [apply lookup_delete_eq |].
  split; [unfold is_connected; simpl; by rewrite lookup_insert_eq |].
  split.
  - rewrite connection_at_capacity by lia. simpl. by rewrite <- app_assoc.
  - apply connection_below_capacity. simpl.
    assert (getMaxConnections
              (set_socket sid {| authenticated := authenticated c; terminalSession := None;
                                 connected := false |}
                 (set_webTerminals (delete sid)
                    (emit (PtyKill (pty session))
                       (set_socket sid {| authenticated := authenticated c;
                                          terminalSession := Some session;
                                          connected := false |} st))))
            = getMaxConnections st) as -> by done.
    lia.
Qed.

(** *** Who reaches a terminal *)

Lemma reachable_sessions_registered (edition : Edition) (a : WebAuth.State)
    (evs : list Event) :
  sessions_registered (run env evs (initial edition a)).
Proof.
  apply gateway_run_invariant; [| apply step_sessions_registered].
  split; intros ??; simpl; [intros ? H | intros H]; by rewrite lookup_empty in H.
Qed.

(** A socket that has not authenticated reaches no terminal.  In every
    state the gateway gets into, its input, resize and kill requests
    change nothing at all, and its [create_terminal] is answered with the
    error "Not authenticated" and spawns nothing.  The kill handler has no
    authentication check of its own; it is safe because such a socket
    never holds a session. *)
Theorem unauthenticated_socket_reaches_no_terminal (edition : Edition) (a : WebAuth.State)
    (evs : list Event) (sid : string) (c : SocketClosure) :
  let st := run env evs (initial edition a) in
  sockets st !! sid = Some c →
  authenticated c = false →
  (∀ data, step env (TerminalInput sid data) st = st)
  ∧ (∀ cols rows, step env (TerminalResize sid cols rows) st = st)
  ∧ step env (KillTerminal sid) st = st
  ∧ (∀ cwd cols rows,
       step env (CreateTerminal sid cwd cols rows) st
       = if connected c then emit (Emit sid (error NotAuthenticated)) st else st).
Proof.
  cbv zeta. intros Hc Hunauth.
  destruct (reachable_sessions_registered edition a evs) as [Hsess _].
  assert (terminalSession c = None) as Hnone.
  { destruct (terminalSession c) as [session |] eqn:Hs; [| done].
    destruct (Hsess _ _ _ Hc Hs) as (Hauth & _). congruence. }
  repeat split; intros; simpl; unfold is_connected; rewrite Hc; destruct (connected c);
    try done.
  - unfold on_terminal_input. by rewrite Hc, Hnone.
  - unfold on_terminal_resize. by rewrite Hc, Hnone.
  - unfold on_kill_terminal. rewrite Hc, Hnone.
    rewrite bool_decide_false; [done | by intros [? ?]].
  - unfold on_create_terminal. by rewrite Hc, Hunauth.
Qed.

(** Keystrokes go to the sender's own terminal and to no other.  In every
    state the gateway gets into, input from a socket is either dropped or
    written to the PTY of the session registered for that socket, and no
    other socket holds a session on that PTY. *)
Theorem input_reaches_only_own_terminal (edition : Edition) (a : WebAuth.State)
    (evs : list Event) (sid data : string) :
  let st := run env evs (initial edition a) in
  let st' := step env (TerminalInput sid data) st in
  st' = st
  ∨ ∃ session,
      webTerminals st !! sid = Some session
      ∧ st' = emit (PtyWrite (pty session) data) st
      ∧ pty session < spawnCalls st
      ∧ ∀ sid' c' session',
          sockets st !! sid' = Some c' → terminalSession c' = Some session' →
          pty session' = pty session → sid' = sid.
Proof.
  cbv zeta.
  destruct (reachable_sessions_registered edition a evs) as [Hsess Hhandles].
  simpl. unfold is_connected, on_terminal_input.
  destruct (sockets (run env evs (initial edition a)) !! sid) as [c |] eqn:Hc; [| by left].
  destruct (connected c); [| by left].
  destruct (terminalSession c) as [session |] eqn:Hs; [| by left].
  destruct (Hsess _ _ _ Hc Hs) as (Hauth & Hreg & _ & Howner).
  rewrite Hauth. right. exists session.
  split; [done |]. split; [done |]. split; [by eapply Hhandles |].
  intros sid' c' session' Hc' Hs' Hsame.
  destruct (Hsess _ _ _ Hc' Hs') as (_ & _ & _ & Howner').
  rewrite Hsame in Howner'. congruence.
Qed.

End GatewayRuns.

Lemma sessions_only_for_authenticated_sockets_witness :
  WebTerminal.webTerminals one_terminal_open !! "s1"
  = Some {| WebTerminal.socket := "s1"; WebTerminal.pty := 0; WebTerminal.pid := 100 |}.
Proof.
  refine (proj1 (proj2 (proj1
    (sessions_only_for_authenticated_sockets posix_env License.community
       (WebAuth.generateToken (repeat Byte.xa7 32) 1 WebAuth.initial).1
       [ WebTerminal.Connection "s1";
         WebTerminal.Auth "s1" (Some token0);
         WebTerminal.CreateTerminal "s1" None None None ]
       "s1"
       {| WebTerminal.authenticated := true;
          WebTerminal.terminalSession :=
            Some {| WebTerminal.socket := "s1"; WebTerminal.pty := 0;
                    WebTerminal.pid := 100 |};
          WebTerminal.connected := true |} _) _ eq_refl))).
  vm_compute. reflexivity.
Defined.

Lemma create_terminal_ignores_ceiling_witness :
  WebTerminal.getMaxConnections two_admitted = 1
  ∧ WebTerminal.getConnectionCount two_admitted = 1
  ∧ WebTerminal.getConnectionCount
      (WebTerminal.step posix_env (WebTerminal.CreateTerminal "s2" None None None)
         two_admitted) = 2.
Proof.
  split; [reflexivity |]. split; [vm_compute; reflexivity |].
  refine (proj1 (create_terminal_ignores_ceiling posix_env "s2"
    {| WebTerminal.authenticated := true; WebTerminal.terminalSession := None;
       WebTerminal.connected := true |}
    two_admitted None None None 101 _ eq_refl eq_refl eq_refl _ eq_refl)).
  - vm_compute. reflexivity.
  - vm_compute. reflexivity.
Defined.

Lemma remote_exit_tears_down_current_session_witness :
  WebTerminal.trace
    (WebTerminal.step posix_env (WebTerminal.PtyExit 0 0) second_terminal_open)
  = WebTerminal.trace second_terminal_open
      ++ [WebTerminal.Emit "s1" (WebTerminal.terminal_exit 0); WebTerminal.PtyKill 1].
Proof.
  refine (proj1 (remote_exit_tears_down_current_session posix_env 0 0 "s1"
    {| WebTerminal.authenticated := true;
       WebTerminal.terminalSession :=
         Some {| WebTerminal.socket := "s1"; WebTerminal.pty := 1;
                 WebTerminal.pid := 101 |};
       WebTerminal.connected := true |}
    {| WebTerminal.socket := "s1"; WebTerminal.pty := 1; WebTerminal.pid := 101 |}
    second_terminal_open _ _ eq_refl)).
  - vm_compute. reflexivity.
  - vm_compute. reflexivity.
Defined.

Lemma rotation_affects_only_new_authentications_witness :
  ∃ reason,
    WebTerminal.trace
      (WebTerminal.step posix_env (WebTerminal.Auth "s1" (Some token0))
         (WebTerminal.step posix_env (WebTerminal.RegenerateToken (repeat Byte.x3c 32) 2)
            one_connected))
    = WebTerminal.trace one_connected
        ++ [WebTerminal.Emit "s1" (WebTerminal.auth_error reason);
            WebTerminal.Disconnect "s1"]
    ∧ WebTerminal.is_connected "s1"
        (WebTerminal.step posix_env (WebTerminal.Auth "s1" (Some token0))
           (WebTerminal.step posix_env (WebTerminal.RegenerateToken (repeat Byte.x3c 32) 2)
              one_connected)) = false.
Proof.
  refine (proj1 (proj2 (proj2
    (rotation_affects_only_new_authentications posix_env (repeat Byte.x3c 32) 2
       one_connected eq_refl)))
    "s1"
    {| WebTerminal.authenticated := false; WebTerminal.terminalSession := None;
       WebTerminal.connected := true |}
    token0 _ eq_refl eq_refl eq_refl _).
  - vm_compute. reflexivity.
  - vm_compute. discriminate.
Defined.


Lemma disconnect_frees_a_place_witness :
  WebTerminal.sockets
    (WebTerminal.step posix_env (WebTerminal.Connection "s2")
       (WebTerminal.step posix_env (WebTerminal.SocketClosed "s1") one_terminal_open))
    !! "s2"
  = Some {| WebTerminal.authenticated := false; WebTerminal.terminalSession := None;
            WebTerminal.connected := true |}.
Proof.
  rewrite (proj2 (proj2 (proj2 (proj2 (proj2
    (disconnect_frees_a_place posix_env "s1" "s2"
       {| WebTerminal.authenticated := true;
          WebTerminal.terminalSession :=
            Some {| WebTerminal.socket := "s1"; WebTerminal.pty := 0;
                    WebTerminal.pid := 100 |};
          WebTerminal.connected := true |}
       {| WebTerminal.socket := "s1"; WebTerminal.pty := 0; WebTerminal.pid := 100 |}
       {| WebTerminal.socket := "s1"; WebTerminal.pty := 0; WebTerminal.pid := 100 |}
       one_terminal_open
       ltac:(vm_compute; reflexivity) eq_refl eq_refl
       ltac:(vm_compute; reflexivity) ltac:(vm_compute; reflexivity))))))).
  simpl. apply lookup_insert_eq.
Defined.

Lemma unauthenticated_socket_reaches_no_terminal_witness :
  WebTerminal.step posix_env (WebTerminal.CreateTerminal "s1" None None None) one_connected
  = WebTerminal.emit (WebTerminal.Emit "s1" (WebTerminal.error WebTerminal.NotAuthenticated))
      one_connected.
Proof.
  exact (proj2 (proj2 (proj2
    (unauthenticated_socket_reaches_no_terminal posix_env License.community
       (WebAuth.generateToken (repeat Byte.xa7 32) 1 WebAuth.initial).1
       [ WebTerminal.Connection "s1" ] "s1"
       {| WebTerminal.authenticated := false; WebTerminal.terminalSession := None;
          WebTerminal.connected := true |}
       ltac:(vm_compute; reflexivity) eq_refl))) None None None).
Defined.

(** ** The access token, beyond rotation *)

Section TokenLifecycle.

Import WebAuth.

Lemma validateToken_current (st : State) (token : jsstring) :
  accessToken st = Some token → token ≠ [] → validateToken st token = true.
Proof.
  intros Hacc Hne. unfold validateToken, timingSafeEqual. rewrite Hacc.
  destruct token as [| c token]; [done |]. simpl.
  rewrite bool_decide_true by done. simpl.
  rewrite decide_True by done. by rewrite bool_decide_true.
Qed.

Lemma toString_hex_nonempty (random : list Byte.byte) :
  random ≠ [] → toString_hex random ≠ [].
Proof. by destruct random. Qed.

(** [getToken] creates the token on first use and is stable afterwards:
    once a token exists, further calls return that same value and change
    nothing, whatever the random source would have produced.  The value it
    returns validates.  Before any token exists nothing validates, and the
    empty string never does. *)
Theorem getToken_generates_once (random random' : list Byte.byte) (now now' : N)
    (st : State) :
  random ≠ [] →
  let st1 := (getToken random now st).1 in
  let token := (getToken random now st).2 in
  accessToken st1 = Some token
  ∧ validateToken st1 token = true
  ∧ getToken random' now' st1 = (st1, token)
  ∧ (∀ current, accessToken st = Some current → current ≠ [] →
       st1 = st ∧ token = current)
  ∧ (falsy (accessToken st) = true →
       token = toString_hex random ∧ tokenGeneratedAt st1 = Some now
       ∧ ∀ t, validateToken st t = false)
  ∧ (∀ st0, validateToken st0 [] = false).
Proof.
  intros Hrandom. cbv zeta.
  assert (∀ st0, validateToken st0 [] = false) as Hempty.
  { intros st0. unfold validateToken. by rewrite orb_true_r. }
  destruct (falsy (accessToken st)) eqn:Hfalsy.
  - pose proof (toString_hex_nonempty random Hrandom) as Hne.
    assert (falsy (Some (toString_hex random)) = false) as Hgenerated
      by (destruct (toString_hex random) eqn:Hhex; [by destruct Hne | done]).
    assert (getToken random now st
            = ({| accessToken := Some (toString_hex random);
                  tokenGeneratedAt := Some now |}, toString_hex random)) as ->
      by (unfold getToken; by rewrite Hfalsy).
    cbn [fst snd accessToken tokenGeneratedAt].
    split; [done |]. split; [by apply validateToken_current |].
    split; [unfold getToken; cbn [accessToken]; by rewrite Hgenerated |].
    split.
    { intros current Hcur Hnonempty. rewrite Hcur in Hfalsy. by destruct current. }
    split; [| done]. intros _. split; [done |]. split; [done |].
    intros t. unfold validateToken. by rewrite Hfalsy.
  - destruct (accessToken st) as [[| c current] |] eqn:Hacc; try done.
    assert (∀ r n, getToken r n st = (st, c :: current)) as Hstable
      by (intros r n; unfold getToken; by rewrite Hacc).
    rewrite Hstable. cbn [fst snd].
    split; [done |]. split; [by apply validateToken_current |].
    split; [apply Hstable |].
    split; [by intros ? [= <-] _ |]. done.
Qed.

Lemma getToken_generates_once_witness :
  getToken (repeat Byte.x11 32) 9 (getToken (repeat Byte.xa7 32) 1 initial).1
  = ((getToken (repeat Byte.xa7 32) 1 initial).1, token0).
Proof.
  exact (proj1 (proj2 (proj2
    (getToken_generates_once (repeat Byte.xa7 32) (repeat Byte.x11 32) 1 9 initial
       ltac:(discriminate))))).
Defined.

Lemma hexdigit_inj (d1 d2 : N) :
  (d1 < 16)%N → (d2 < 16)%N → hexdigit d1 = hexdigit d2 → d1 = d2.
Proof.
  unfold hexdigit. intros H1 H2.
  destruct (N.ltb_spec d1 10), (N.ltb_spec d2 10); lia.
Qed.

(** The hex rendering loses nothing: different byte strings give
    different tokens, so a token is as hard to guess as the 32 random
    bytes behind it, and its length is twice theirs. *)
Theorem toString_hex_injective (buf1 buf2 : list Byte.byte) :
  (toString_hex buf1 = toString_hex buf2 → buf1 = buf2)
  ∧ length (toString_hex buf1) = 2 * length buf1.
Proof.
  split; [| apply length_toString_hex].
  revert buf2. induction buf1 as [| b1 buf1 IH]; intros [| b2 buf2]; try done.
  unfold toString_hex. simpl. intros [= Hhi Hlo Hrest].
  pose proof (Byte.to_N_bounded b1) as Hb1. pose proof (Byte.to_N_bounded b2) as Hb2.
  apply hexdigit_inj in Hhi; [| apply N.Div0.div_lt_upper_bound; lia ..].
  apply hexdigit_inj in Hlo; [| apply N.mod_lt; lia ..].
  assert (Byte.to_N b1 = Byte.to_N b2) as Hn.
  { rewrite (N.div_mod' (Byte.to_N b1) 16), (N.div_mod' (Byte.to_N b2) 16). congruence. }
  f_equal; [| by apply IH].
  apply (f_equal Byte.of_N) in Hn. rewrite !Byte.of_to_N in Hn. congruence.
Qed.

Lemma toString_hex_injective_witness :
  toString_hex [Byte.x01; Byte.xfe] ≠ toString_hex [Byte.x01; Byte.xff]
  ∧ length (toString_hex (repeat Byte.xa7 32)) = 64.
Proof.
  split.
  - intros Heq.
    apply (proj1 (toString_hex_injective [Byte.x01; Byte.xfe] [Byte.x01; Byte.xff])) in Heq.
    discriminate Heq.
  - exact (proj2 (toString_hex_injective (repeat Byte.xa7 32) [])).
Defined.

End TokenLifecycle.

(** ** Edition limits *)

Section EditionLimits.

Import License.

(** An upgrade never takes anything away: every feature available in an
    edition is available in the editions above it, and a count that is
    within a limit stays within it after an upgrade. *)
Theorem upgrade_never_restricts (lower higher : Edition) :
  editionRank lower ≤ editionRank higher →
  (∀ feature, isFeatureAvailable lower feature = true →
              isFeatureAvailable higher feature = true)
  ∧ (∀ feature currentCount,
       isWithinLimit lower feature currentCount = true →
       isWithinLimit higher feature currentCount = true).
Proof.
  intros Hrank. split.
  - intros feature. destruct lower, higher; simpl in Hrank; try lia;
      destruct feature; done.
  - intros feature currentCount.
    destruct lower, higher; simpl in Hrank; try lia;
      destruct feature; unfold isWithinLimit; simpl; try done;
      rewrite ?Nat.ltb_lt; lia.
Qed.

Lemma upgrade_never_restricts_witness :
  editionRank community ≤ editionRank pro
  ∧ isWithinLimit community L_maxRemoteConnections 0 = true
  ∧ isWithinLimit pro L_maxRemoteConnections 0 = true.
Proof.
  split; [simpl; lia |]. split; [reflexivity |].
  apply (proj2 (upgrade_never_restricts community pro ltac:(simpl; lia))
           L_maxRemoteConnections 0).
  reflexivity.
Defined.

End EditionLimits.

Section EditionLimitsAndGateway.

Import License WebTerminal.

(** The gateway's gate and the licence check agree up to the cap of 999:
    a connecting socket is admitted exactly when the number of registered
    sessions is below [getMaxConnections], every admitted socket is within
    the edition's [maxRemoteConnections], and the only sockets that the
    licence would allow and the gate turns away are those of the
    enterprise edition at 999 sessions or more. *)
Theorem gate_agrees_with_licence (sid : string) (st : State) :
  let count := getConnectionCount st in
  let admitted :=
    connection sid st
    = set_socket sid {| authenticated := false; terminalSession := None;
                        connected := true |} st in
  let rejected :=
    connection sid st
    = emit (Disconnect sid)
        (emit (Emit sid (error (MaxConnectionsReached (getMaxConnections st)))) st) in
  (count < getMaxConnections st → admitted)
  ∧ (getMaxConnections st ≤ count → rejected)
  ∧ (count < getMaxConnections st →
     isWithinLimit (getEdition st) L_maxRemoteConnections count = true)
  ∧ (isWithinLimit (getEdition st) L_maxRemoteConnections count = true →
     getMaxConnections st ≤ count →
     currentEdition st = enterprise ∧ 999 ≤ count).
Proof.
  cbv zeta. unfold getConnectionCount.
  split; [apply connection_below_capacity |].
  split; [apply connection_at_capacity |].
  rewrite getMaxConnections_by_edition. unfold isWithinLimit, getEdition.
  destruct (currentEdition st); simpl; rewrite ?Nat.ltb_lt; split; try done; lia.
Qed.

Lemma gate_agrees_with_licence_witness :
  isWithinLimit (getEdition enterprise_full) L_maxRemoteConnections
    (getConnectionCount enterprise_full) = true
  ∧ trace (connection "socket-new" enterprise_full)
    = [Emit "socket-new" (error (MaxConnectionsReached 999)); Disconnect "socket-new"].
Proof.
  split; [reflexivity |].
  rewrite (proj1 (proj2 (gate_agrees_with_licence "socket-new" enterprise_full))).
  - reflexivity.
  - vm_compute. lia.
Defined.

End EditionLimitsAndGateway.

(** ** The layout under sequences of actions *)

Section LayoutRuns.

Import AppStore LayoutHandlers.

Implicit Types (st : State) (ps : list SplitPanelState).

Lemma storeRun_invariant (P : State → Prop) :
  P initial →
  (∀ a st, P st → P (storeStep a st)) →
  ∀ actions, P (storeRun actions initial).
Proof.
  intros Hinit Hstep actions. unfold storeRun.
  induction actions as [| a actions IH] using rev_ind; [done |].
  rewrite foldl_app. by apply Hstep.
Qed.

(** *** Panel names and templates *)

Lemma templates_have_their_panels :
  Forall (λ layout, length (defaultRatios layout) = lt_panels layout) SPLIT_LAYOUTS.
Proof. repeat constructor. Qed.

Lemma panel_name_inj : Inj (=) (=) (λ index : nat, "panel-" +:+ pretty index).
Proof. intros i j Heq. simpl in Heq. injection Heq as Heq. by apply (inj pretty). Qed.

Lemma find_template (chosen : string) (layout : SplitLayoutType) :
  List.find (λ l, bool_decide (lt_id l = chosen)) SPLIT_LAYOUTS = Some layout →
  layout ∈ SPLIT_LAYOUTS ∧ lt_id layout = chosen
  ∧ length (defaultRatios layout) = lt_panels layout.
Proof.
  intros Hfind. apply List.find_some in Hfind as [Hin Hid].
  apply list_elem_of_In in Hin. apply bool_decide_eq_true in Hid.
  split; [done |]. split; [done |].
  pose proof templates_have_their_panels as Hall. rewrite Forall_forall in Hall.
  by apply Hall.
Qed.

Lemma setSplitLayout_ids (chosen : string) (layout : SplitLayoutType) st :
  List.find (λ l, bool_decide (lt_id l = chosen)) SPLIT_LAYOUTS = Some layout →
  id <$> panels (splitLayout (setSplitLayout chosen st))
  = (λ index, "panel-" +:+ pretty index) <$> seq 0 (length (defaultRatios layout)).
Proof.
  intros Hfind. apply list_eq. intros i.
  rewrite !list_lookup_fmap, (setSplitLayout_lookup chosen layout st i Hfind).
  destruct (defaultRatios layout !! i) as [r |] eqn:Hr; simpl.
  - apply lookup_lt_Some in Hr. by rewrite lookup_seq_lt.
  - apply lookup_ge_None in Hr.
    assert (seq 0 (length (defaultRatios layout)) !! i = None) as ->; [| done].
    apply lookup_ge_None. by rewrite length_seq.
Qed.

(** An action that keeps the layout id, the direction and the panel names
    keeps the layout well formed. *)
Lemma layout_well_formed_frame st st' :
  layoutId (splitLayout st') = layoutId (splitLayout st) →
  direction (splitLayout st') = direction (splitLayout st) →
  id <$> panels (splitLayout st') = id <$> panels (splitLayout st) →
  layout_well_formed st → layout_well_formed st'.
Proof.
  intros Hl Hd Hids (layout & Hin & Hid & Hdir & Hlen & Hnames).
  exists layout. rewrite Hl, Hd, Hids. repeat split; try done.
  rewrite <- Hlen. rewrite <- (length_fmap id), Hids. by rewrite length_fmap.
Qed.

Lemma fmap_keeps_ids (f : SplitPanelState → SplitPanelState) ps :
  (∀ p, id (f p) = id p) → id <$> (f <$> ps) = id <$> ps.
Proof.
  intros Hf. rewrite <- list_fmap_compose. apply list_fmap_ext. intros _ p _. apply Hf.
Qed.

Lemma swapTerminals_ids (X P2 : string) st :
  id <$> panels (splitLayout (swapTerminals X P2 st)) = id <$> panels (splitLayout st)
  ∧ ratio <$> panels (splitLayout (swapTerminals X P2 st))
    = ratio <$> panels (splitLayout st)
  ∧ layoutId (splitLayout (swapTerminals X P2 st)) = layoutId (splitLayout st)
  ∧ direction (splitLayout (swapTerminals X P2 st)) = direction (splitLayout st).
Proof.
  destruct (List.find (λ p, bool_decide (id p = P2)) (panels (splitLayout st)))
    as [target |] eqn:Htgt.
  - rewrite (swapTerminals_panels X P2 st target Htgt).
    split; [apply fmap_keeps_ids; intros p; apply swapSlot_id |].
    split; [| unfold swapTerminals; by rewrite Htgt].
    rewrite <- list_fmap_compose. apply list_fmap_ext. intros _ p _. apply swapSlot_ratio.
  - unfold swapTerminals. by rewrite Htgt.
Qed.

Lemma updatePanelRatios_ids (ratios : list Q) st :
  id <$> panels (splitLayout (updatePanelRatios ratios st)) = id <$> panels (splitLayout st).
Proof.
  apply list_eq. intros i. rewrite !list_lookup_fmap, updatePanelRatios_lookup.
  by destruct (panels (splitLayout st) !! i).
Qed.

Lemma storeStep_well_formed (a : StoreAction) st :
  layout_well_formed st → layout_well_formed (storeStep a st).
Proof.
  intros Hwf. destruct a as [chosen | pid r | rs | pid t | X P2 | pid]; simpl.
  - unfold setSplitLayout at 1.
    destruct (List.find _ SPLIT_LAYOUTS) as [layout |] eqn:Hfind; [| done].
    destruct (find_template chosen layout Hfind) as (Hin & Hid & Hlen).
    exists layout. simpl. split; [done |]. split; [done |]. split; [done |].
    split; [by rewrite length_imap |].
    pose proof (setSplitLayout_ids chosen layout st Hfind) as Hids.
    unfold setSplitLayout in Hids. rewrite Hfind in Hids. simpl in Hids.
    by rewrite <- Hlen.
  - eapply layout_well_formed_frame; [| | | exact Hwf]; [done | done |].
    simpl. apply fmap_keeps_ids. intros p. by case_bool_decide.
  - eapply layout_well_formed_frame; [| | | exact Hwf]; [done | done |].
    apply updatePanelRatios_ids.
  - eapply layout_well_formed_frame; [| | | exact Hwf]; [done | done |].
    simpl. apply fmap_keeps_ids. intros p. by case_bool_decide.
  - destruct (swapTerminals_ids X P2 st) as (Hids & _ & Hl & Hd).
    by eapply layout_well_formed_frame; [| | | exact Hwf].
  - by eapply layout_well_formed_frame; [| | | exact Hwf].
Qed.

(** Whatever the store is asked to do, with whatever arguments, the layout
    stays an instance of one of the seven templates: it has the template's
    direction and number of panels (between one and four), and the panels
    are called panel-0, panel-1, ... in order, so no two panels share an
    id. *)
Theorem layout_always_instance_of_template (actions : list StoreAction) :
  let st := storeRun actions initial in
  layout_well_formed st
  ∧ NoDup (id <$> panels (splitLayout st))
  ∧ 1 ≤ length (panels (splitLayout st)) ≤ 4
  ∧ (∀ i p, panels (splitLayout st) !! i = Some p → id p = "panel-" +:+ pretty i).
Proof.
  cbv zeta.
  assert (layout_well_formed (storeRun actions initial)) as Hwf.
  { apply storeRun_invariant; [| apply storeStep_well_formed].
    exists {| lt_id := "single"; lt_panels := 1; lt_direction := horizontal;
              defaultRatios := [100%Q] |}.
    split; [apply list_elem_of_here | done]. }
  split; [done |].
  destruct Hwf as (layout & Hin & _ & _ & Hlen & Hnames).
  split; [| split].
  - rewrite Hnames. apply (NoDup_fmap_2 _), NoDup_seq.
  - rewrite Hlen. clear -Hin. unfold SPLIT_LAYOUTS in Hin.
    repeat (apply elem_of_cons in Hin as [-> | Hin]; [simpl; lia |]).
    by apply elem_of_nil in Hin.
  - intros i p Hp.
    assert ((id <$> panels (splitLayout (storeRun actions initial))) !! i = Some (id p))
      as Hid by (by rewrite list_lookup_fmap, Hp).
    rewrite Hnames, list_lookup_fmap in Hid.
    destruct (seq 0 (lt_panels layout) !! i) as [j |] eqn:Hj; [| done].
    apply lookup_seq in Hj as [-> _]. simpl in Hid. by injection Hid as <-.
Qed.

(** *** Shares of the panels *)

Lemma reduceSum_sumQ (l : list Q) : (reduceSum l == sumQ l)%Q.
Proof.
  unfold reduceSum.
  assert (∀ acc, fold_left Qplus l acc == acc + sumQ l)%Q as Hgen.
  { induction l as [| r l IH]; intros acc; simpl.
    - unfold sumQ. simpl. ring.
    - rewrite IH. unfold sumQ. simpl. ring. }
  rewrite Hgen. ring.
Qed.

Lemma sumQ_positive (l : list Q) : l ≠ [] → Forall (λ r, 0 < r)%Q l → (0 < sumQ l)%Q.
Proof.
  intros Hne Hpos. destruct Hpos as [| r l Hr Hl]; [done |]. clear Hne.
  unfold sumQ. simpl.
  assert (0 <= fold_right Qplus 0 l)%Q as Hrest.
  { induction Hl as [| x xs Hx _ IH]; simpl; [lra | lra]. }
  lra.
Qed.

(** Normalising a non-empty list of positive numbers gives positive
    numbers that add up to 100. *)
Lemma normalize_balanced (l : list Q) :
  l ≠ [] → Forall (λ r, 0 < r)%Q l →
  let total := reduceSum l in
  Forall (λ r, 0 < r)%Q ((λ r, (r / total) * 100)%Q <$> l)
  ∧ (sumQ ((λ r, (r / total) * 100)%Q <$> l) == 100)%Q.
Proof.
  intros Hne Hpos total.
  assert (0 < total)%Q as Htotal.
  { unfold total. rewrite reduceSum_sumQ. by apply sumQ_positive. }
  split.
  - apply Forall_fmap. eapply Forall_impl; [exact Hpos |]. intros r Hr. simpl.
    apply Qmult_lt_0_compat; [| lra]. unfold Qdiv.
    apply Qmult_lt_0_compat; [done |]. by apply Qinv_lt_0_compat.
  - rewrite sumQ_normalize.
    assert (sumQ l == total)%Q as -> by (unfold total; by rewrite reduceSum_sumQ).
    field. lra.
Qed.

Lemma updatePanelRatios_ratios (ratios : list Q) st :
  length ratios = length (panels (splitLayout st)) →
  ratio <$> panels (splitLayout (updatePanelRatios ratios st)) = ratios.
Proof.
  intros Hlen. apply list_eq. intros i.
  rewrite list_lookup_fmap, updatePanelRatios_lookup.
  destruct (panels (splitLayout st) !! i) as [p |] eqn:Hp; simpl.
  - apply lookup_lt_Some in Hp. rewrite <- Hlen in Hp.
    by apply lookup_lt_is_Some in Hp as [r ->].
  - apply lookup_ge_None in Hp. rewrite <- Hlen in Hp.
    symmetry. by apply lookup_ge_None.
Qed.

Lemma balanced_shares st :
  balanced st ↔
  Forall (λ r, 0 < r)%Q (ratio <$> panels (splitLayout st))
  ∧ (sumQ (ratio <$> panels (splitLayout st)) == 100)%Q.
Proof.
  unfold balanced, ratioSum, sumQ. rewrite Forall_fmap. done.
Qed.

Lemma balanced_ratios st st' :
  ratio <$> panels (splitLayout st') = ratio <$> panels (splitLayout st) →
  balanced st → balanced st'.
Proof. intros Hr. rewrite !balanced_shares, Hr. done. Qed.

(** Storing a normalised list of positive new ratios. *)
Lemma store_normalized_balanced (newRatios : list Q) st :
  length newRatios = length (panels (splitLayout st)) →
  newRatios ≠ [] →
  Forall (λ r, 0 < r)%Q newRatios →
  balanced
    (updatePanelRatios ((λ r, (r / reduceSum newRatios) * 100)%Q <$> newRatios) st).
Proof.
  intros Hlen Hne Hpos.
  destruct (normalize_balanced newRatios Hne Hpos) as [Hp Hs].
  rewrite balanced_shares, updatePanelRatios_ratios by (by rewrite length_fmap).
  done.
Qed.

Lemma handleResize_balanced (container : option (Q * Q)) (panelIndex : nat) (delta : Q) st :
  balanced st → balanced (handleResize container panelIndex delta st).
Proof.
  intros Hbal. unfold handleResize.
  destruct container as [[offsetWidth offsetHeight] |]; [| done]. cbv zeta.
  destruct (Nat.leb_spec (length (panels (splitLayout st))) (S panelIndex)); [done |].
  apply store_normalized_balanced.
  - by rewrite length_imap.
  - destruct (panels (splitLayout st)); [simpl in *; lia | done].
  - destruct Hbal as [Hpos _]. apply Forall_lookup. intros i r.
    rewrite list_lookup_imap. destruct (panels (splitLayout st) !! i) as [p |] eqn:Hp; [| done].
    intros [= <-]. rewrite Forall_lookup in Hpos. specialize (Hpos _ _ Hp).
    destruct (i =? panelIndex); [| destruct (i =? S panelIndex); [| done]].
    + eapply Qlt_le_trans; [| apply Q.le_max_l]. lra.
    + eapply Qlt_le_trans; [| apply Q.le_max_l]. lra.
Qed.

Lemma handleRatioChange_balanced (panelIndex : nat) (newRatio : Q) st :
  (0 < newRatio)%Q →
  balanced st → balanced (default st (handleRatioChange panelIndex newRatio st)).
Proof.
  intros Hnew Hbal. unfold handleRatioChange. cbv zeta.
  destruct (Nat.leb_spec (length (panels (splitLayout st))) 1); [done |].
  destruct (panels (splitLayout st) !! panelIndex) as [selected |] eqn:Hsel; [| done].
  simpl. apply store_normalized_balanced.
  - by rewrite length_imap.
  - destruct (panels (splitLayout st)); [simpl in *; lia | done].
  - apply Forall_lookup. intros i r.
    rewrite list_lookup_imap. destruct (panels (splitLayout st) !! i) as [p |] eqn:Hp; [| done].
    intros [= <-]. destruct (i =? panelIndex); [done |].
    eapply Qlt_le_trans; [| apply Q.le_max_l]. lra.
Qed.

Lemma templates_are_balanced :
  Forall (λ layout, Forall (λ r, 0 < r)%Q (defaultRatios layout)
                    ∧ (sumQ (defaultRatios layout) == 100)%Q) SPLIT_LAYOUTS.
Proof. repeat constructor. Qed.

Lemma setSplitLayout_balanced (chosen : string) st :
  balanced st → balanced (setSplitLayout chosen st).
Proof.
  intros Hbal.
  destruct (List.find (λ l, bool_decide (lt_id l = chosen)) SPLIT_LAYOUTS)
    as [layout |] eqn:Hfind; [| unfold setSplitLayout; by rewrite Hfind].
  assert (ratio <$> panels (splitLayout (setSplitLayout chosen st)) = defaultRatios layout)
    as Hratios.
  { apply list_eq. intros i.
    rewrite list_lookup_fmap, (setSplitLayout_lookup chosen layout st i Hfind).
    by destruct (defaultRatios layout !! i). }
  destruct (find_template chosen layout Hfind) as (Hin & _ & _).
  pose proof templates_are_balanced as Hall. rewrite Forall_forall in Hall.
  destruct (Hall _ Hin) as [Hpos Hsum].
  rewrite balanced_shares, Hratios. done.
Qed.

Lemma uiStep_balanced (a : UiAction) st :
  sensible a → balanced st → balanced (uiStep a st).
Proof.
  intros Ha Hbal. destruct a as [chosen | container idx delta | idx r | pid t | X P2 | pid];
    simpl.
  - by apply setSplitLayout_balanced.
  - by apply handleResize_balanced.
  - by apply handleRatioChange_balanced.
  - eapply balanced_ratios; [| exact Hbal]. simpl.
    rewrite <- list_fmap_compose. apply list_fmap_ext. intros _ p _. simpl.
    by case_bool_decide.
  - eapply balanced_ratios; [| exact Hbal]. by destruct (swapTerminals_ids X P2 st) as (_ & ? & _).
  - by eapply balanced_ratios; [| exact Hbal].
Qed.

(** Dragging the handle between two panels keeps every share positive and
    the shares adding up to 100, and it changes nothing but ratios: panel
    names, assignments, layout and active panel stay.  Dragging the handle
    after the last panel, or without a container, changes nothing. *)
Theorem handleResize_keeps_balance (offsetWidth offsetHeight : Q) (panelIndex : nat)
    (delta : Q) st :
  balanced st →
  ¬ (offsetWidth == 0)%Q → ¬ (offsetHeight == 0)%Q →
  let st' := handleResize (Some (offsetWidth, offsetHeight)) panelIndex delta st in
  balanced st'
  ∧ id <$> panels (splitLayout st') = id <$> panels (splitLayout st)
  ∧ terminalId <$> panels (splitLayout st') = terminalId <$> panels (splitLayout st)
  ∧ layoutId (splitLayout st') = layoutId (splitLayout st)
  ∧ activePanelId st' = activePanelId st
  ∧ (length (panels (splitLayout st)) ≤ S panelIndex → st' = st)
  ∧ handleResize None panelIndex delta st = st.
Proof.
  intros Hbal _ _. cbv zeta.
  split; [by apply handleResize_balanced |].
  unfold handleResize. cbv zeta.
  destruct (Nat.leb_spec (length (panels (splitLayout st))) (S panelIndex)) as [Hlast | Hin].
  { repeat split; done. }
  split; [apply updatePanelRatios_ids |].
  split.
  { apply list_eq. intros i. rewrite !list_lookup_fmap, updatePanelRatios_lookup.
    by destruct (panels (splitLayout st) !! i). }
  split; [done |]. split; [done |]. split; [lia | done].
Qed.

Lemma handleResize_keeps_balance_witness :
  balanced (handleResize (Some (800, 600)%Q) 0 40 (setSplitLayout "horizontal-2" initial)).
Proof.
  apply (handleResize_keeps_balance 800 600 0 40 (setSplitLayout "horizontal-2" initial)).
  - split; [repeat constructor | reflexivity].
  - discriminate.
  - discriminate.
Defined.

(** Moving a panel's slider to a positive value keeps every share
    positive and the shares adding up to 100.  With a single panel the
    slider does nothing, and a panel index past the end raises a
    [TypeError]. *)
Theorem handleRatioChange_keeps_balance (panelIndex : nat) (newRatio : Q) st :
  balanced st →
  (0 < newRatio)%Q →
  (∀ st', handleRatioChange panelIndex newRatio st = Some st' →
     balanced st'
     ∧ id <$> panels (splitLayout st') = id <$> panels (splitLayout st)
     ∧ terminalId <$> panels (splitLayout st') = terminalId <$> panels (splitLayout st))
  ∧ (length (panels (splitLayout st)) ≤ 1 →
     handleRatioChange panelIndex newRatio st = Some st)
  ∧ (1 < length (panels (splitLayout st)) →
     (handleRatioChange panelIndex newRatio st = None
      ↔ length (panels (splitLayout st)) ≤ panelIndex)).
Proof.
  intros Hbal Hnew.
  pose proof (handleRatioChange_balanced panelIndex newRatio st Hnew Hbal) as Hstep.
  unfold handleRatioChange in *. cbv zeta in *.
  destruct (Nat.leb_spec (length (panels (splitLayout st))) 1) as [Hone | Hmany].
  { split; [by intros st' [= <-] |]. split; [done | lia]. }
  destruct (panels (splitLayout st) !! panelIndex) as [selected |] eqn:Hsel.
  - split.
    + intros st' [= <-]. split; [exact Hstep |].
      split; [apply updatePanelRatios_ids |].
      apply list_eq. intros i. rewrite !list_lookup_fmap, updatePanelRatios_lookup.
      by destruct (panels (splitLayout st) !! i).
    + split; [lia |]. intros _. apply lookup_lt_Some in Hsel. split; [done | lia].
  - split; [by intros st' [=] |]. split; [lia |]. intros _.
    apply lookup_ge_None in Hsel. done.
Qed.

Lemma handleRatioChange_keeps_balance_witness :
  balanced (setSplitLayout "horizontal-3" initial)
  ∧ (0 < 70)%Q
  ∧ is_Some (handleRatioChange 1 70 (setSplitLayout "horizontal-3" initial))
  ∧ balanced (default initial
                (handleRatioChange 1 70 (setSplitLayout "horizontal-3" initial))).
Proof.
  assert (balanced (setSplitLayout "horizontal-3" initial)) as Hbal
    by (split; [repeat constructor | reflexivity]).
  split; [exact Hbal |]. split; [reflexivity |]. split; [by eexists |].
  apply (proj1 (handleRatioChange_keeps_balance 1 70 (setSplitLayout "horizontal-3" initial)
                  Hbal ltac:(reflexivity))).
  reflexivity.
Defined.

(** Through the user interface the shares never degenerate: after any
    sequence of layout selections, handle drags, slider moves, terminal
    selections, drops and panel activations, every panel has a positive
    share and the shares add up to 100. *)
Theorem ui_keeps_shares_balanced (actions : list UiAction) :
  Forall sensible actions →
  balanced (uiRun actions initial).
Proof.
  intros Hsensible. unfold uiRun.
  induction actions as [| a actions IH] using rev_ind.
  - split; [repeat constructor | reflexivity].
  - apply Forall_app in Hsensible as [Hinit Hlast].
    rewrite Forall_singleton in Hlast.
    rewrite foldl_app. simpl. apply uiStep_balanced; [done | by apply IH].
Qed.

Lemma ui_keeps_shares_balanced_witness :
  balanced
    (uiRun [SelectLayout "left-main"; DragHandle (Some (900, 500)%Q) 0 (-120);
            MoveSlider 2 35; DropTerminal "default" "panel-2"] initial).
Proof.
  apply ui_keeps_shares_balanced.
  repeat constructor; simpl; try discriminate; reflexivity.
Defined.

(** *** Swaps lose no terminal *)

Lemma insert_head_Permutation {A} (l : list A) (j : nat) (a y : A) :
  l !! j = Some y → y :: <[j := a]> l ≡ₚ a :: l.
Proof.
  revert j. induction l as [| b l IH]; intros [| j] Hj; simplify_eq/=.
  - apply perm_swap.
  - rewrite perm_swap, (IH j Hj). apply perm_swap.
Qed.

(** Exchanging the values at two positions of a list permutes it. *)
Lemma exchange_Permutation {A} (l : list A) (i j : nat) (x y : A) :
  l !! i = Some x → l !! j = Some y → <[j := x]> (<[i := y]> l) ≡ₚ l.
Proof.
  revert i j. induction l as [| b l IH]; intros [| i] [| j] Hi Hj; simplify_eq/=.
  - done.
  - by apply insert_head_Permutation.
  - symmetry. rewrite <- (insert_head_Permutation l i y x Hi). done.
  - by rewrite (IH i j).
Qed.

Lemma find_lookup {A} (P : A → bool) (l : list A) (x : A) :
  List.find P l = Some x → P x = true ∧ ∃ i, l !! i = Some x.
Proof.
  intros Hfind. apply List.find_some in Hfind as [Hin HP]. split; [done |].
  apply list_elem_of_In in Hin. by apply list_elem_of_lookup_1 in Hin.
Qed.

Lemma NoDup_ids_lookup ps (i j : nat) (p q : SplitPanelState) :
  NoDup (id <$> ps) → ps !! i = Some p → ps !! j = Some q → id p = id q → i = j.
Proof.
  intros Hnodup Hp Hq Hid.
  apply (NoDup_lookup (id <$> ps) i j (id p)); [done | |].
  - by rewrite list_lookup_fmap, Hp.
  - by rewrite list_lookup_fmap, Hq, Hid.
Qed.

(** With distinct panel names, the slot update of a swap exchanges the
    assignments at the positions of source and target. *)
Lemma swapSlot_exchange (X P2 : string) ps (i j : nat) (source target : SplitPanelState) :
  NoDup (id <$> ps) →
  ps !! i = Some source → ps !! j = Some target → id target = P2 →
  terminalId <$> (swapSlot X P2 (Some source) (terminalId target) <$> ps)
  = <[j := Some X]> (<[i := terminalId target]> (terminalId <$> ps)).
Proof.
  intros Hnodup Hsrc Htgt Hid. apply list_eq. intros k.
  rewrite <- list_fmap_compose, list_lookup_fmap.
  destruct (decide (k = j)) as [-> | Hkj].
  - rewrite list_lookup_insert_eq.
    + rewrite Htgt. simpl. unfold swapSlot. by rewrite bool_decide_true.
    + rewrite length_insert, length_fmap. by eapply lookup_lt_Some.
  - rewrite list_lookup_insert_ne by done.
    destruct (decide (k = i)) as [-> | Hki].
    + rewrite list_lookup_insert_eq by (rewrite length_fmap; by eapply lookup_lt_Some).
      rewrite Hsrc. simpl. unfold swapSlot.
      rewrite bool_decide_false.
      * by rewrite bool_decide_true.
      * intros Hsame. apply Hkj.
        apply (NoDup_ids_lookup ps i j source target); congruence.
    + rewrite list_lookup_insert_ne by done. rewrite list_lookup_fmap.
      destruct (ps !! k) as [p |] eqn:Hp; [| done]. simpl. unfold swapSlot.
      rewrite bool_decide_false.
      * rewrite bool_decide_false; [done |]. intros Hsame. apply Hki.
        by apply (NoDup_ids_lookup ps k i p source).
      * intros Hsame. apply Hkj.
        apply (NoDup_ids_lookup ps k j p target); congruence.
Qed.

(** A swap loses no terminal: when panel names are distinct and some panel
    shows the dropped terminal, the assignments after the swap are those
    before it in another order.  When no panel shows it (a tab dropped
    from the tab bar), the target's previous terminal is overwritten and
    the other assignments stay. *)
Theorem swapTerminals_loses_no_terminal (X P2 : string) st :
  NoDup (id <$> panels (splitLayout st)) →
  let before := terminalId <$> panels (splitLayout st) in
  let after := terminalId <$> panels (splitLayout (swapTerminals X P2 st)) in
  (Some X ∈ before → after ≡ₚ before)
  ∧ (Some X ∉ before →
     ∀ j target, panels (splitLayout st) !! j = Some target → id target = P2 →
                 after = <[j := Some X]> before).
Proof.
  intros Hnodup. cbv zeta.
  destruct (List.find (λ p, bool_decide (id p = P2)) (panels (splitLayout st)))
    as [target |] eqn:Htgt.
  - rewrite (swapTerminals_panels X P2 st target Htgt).
    destruct (find_lookup _ _ _ Htgt) as [Hid [j Hj]]. apply bool_decide_eq_true in Hid.
    destruct (List.find (λ p, bool_decide (terminalId p = Some X)) (panels (splitLayout st)))
      as [source |] eqn:Hsrc.
    + destruct (find_lookup _ _ _ Hsrc) as [HX [i Hi]]. apply bool_decide_eq_true in HX.
      split.
      * intros _. rewrite (swapSlot_exchange X P2 _ i j source target) by done.
        apply exchange_Permutation; rewrite list_lookup_fmap.
        -- rewrite Hi. simpl. by rewrite HX.
        -- by rewrite Hj.
      * intros Hnot. exfalso. apply Hnot. apply list_elem_of_fmap. exists source.
        split; [done |]. by eapply list_elem_of_lookup_2.
    + split.
      * intros Hin. exfalso. apply list_elem_of_fmap in Hin as (p & Hp & Hin).
        apply list_elem_of_In in Hin.
        apply (List.find_none _ _ Hsrc) in Hin. simpl in Hin.
        by rewrite bool_decide_true in Hin.
      * intros _ j' target' Hj' Hid'. apply list_eq. intros k.
        rewrite <- list_fmap_compose, list_lookup_fmap.
        destruct (decide (k = j')) as [-> | Hk].
        -- rewrite list_lookup_insert_eq by (rewrite length_fmap; by eapply lookup_lt_Some).
           rewrite Hj'. simpl. unfold swapSlot. by rewrite bool_decide_true.
        -- rewrite list_lookup_insert_ne by done. rewrite list_lookup_fmap.
           destruct (panels (splitLayout st) !! k) as [p |] eqn:Hp; [| done].
           simpl. unfold swapSlot. rewrite bool_decide_false; [done |].
           intros Hsame. apply Hk.
           apply (NoDup_ids_lookup (panels (splitLayout st)) k j' p target'); congruence.
  - assert (swapTerminals X P2 st = st) as -> by (unfold swapTerminals; by rewrite Htgt).
    split; [done |]. intros _ j target Hj Hid. exfalso.
    apply list_elem_of_lookup_2, list_elem_of_In in Hj.
    apply (List.find_none _ _ Htgt) in Hj. simpl in Hj.
    by rewrite bool_decide_true in Hj.
Qed.

Lemma swapTerminals_loses_no_terminal_witness :
  terminalId <$> panels (splitLayout (swapTerminals "X" "panel-1" x_left_y_right))
  ≡ₚ terminalId <$> panels (splitLayout x_left_y_right).
Proof.
  apply (swapTerminals_loses_no_terminal "X" "panel-1" x_left_y_right).
  - change (NoDup ["panel-0"; "panel-1"]).
    apply NoDup_cons. split; [| apply NoDup_singleton].
    intros Hin. apply list_elem_of_singleton in Hin. discriminate Hin.
  - apply list_elem_of_here.
Defined.

End LayoutRuns.

(** ** Quick commands, notifications and terminal callbacks *)

Section CommandRuns.

Import License AppStoreCommands.

Implicit Types (st : State) (cs : list QuickCommand).

Lemma commands_run_invariant (P : State → Prop) (Q : Action → Prop) st
    (actions : list Action) :
  P st →
  (∀ a st, Q a → P st → P (step a st)) →
  Forall Q actions → P (run actions st).
Proof.
  intros Hinit Hstep. unfold run.
  induction actions as [| a actions IH] using rev_ind; [done |].
  intros Hall. apply Forall_app in Hall as [Hall Ha]. rewrite Forall_singleton in Ha.
  rewrite foldl_app. simpl. apply Hstep; [done | by apply IH].
Qed.

(** *** The trailing carriage return *)

Lemma endsWith_CR_append (s : string) : endsWith_CR (s +:+ CR) = true.
Proof.
  induction s as [| c s IH]; [done |].
  destruct s as [| c' s]; [done |]. exact IH.
Qed.

Lemma withCR_runs (command : string) : endsWith_CR (withCR command) = true.
Proof.
  unfold withCR. destruct (endsWith_CR command) eqn:Hends; [done |].
  apply endsWith_CR_append.
Qed.

Lemma step_runs_on_enter (a : Action) st :
  Forall runs_on_enter (quickCommands st) →
  Forall runs_on_enter (quickCommands (step a st)).
Proof.
  intros Hall. destruct a as [e | t | now text | t cb | t | now l c | i | i l c | i];
    simpl; try done.
  - unfold sendToTerminal. by destruct (terminalCallbacks st !! activeTerminalId st).
  - unfold addQuickCommand.
    assert (Forall runs_on_enter
              (quickCommands st ++ [ {| id := "cmd-" +:+ pretty now; label := l;
                                        command := withCR c |} ])) as Happended.
    { apply Forall_app. split; [done |]. apply Forall_singleton. apply withCR_runs. }
    destruct (maxQuickCommands (EDITION_LIMITS (getEdition st))) as [limit |]; [| done].
    by destruct (limit <=? length (quickCommands st)).
  - apply Forall_forall. intros cmd Hin.
    apply list_elem_of_In, List.filter_In in Hin as [Hin _].
    rewrite Forall_forall in Hall. by apply Hall, list_elem_of_In.
  - apply Forall_fmap. eapply Forall_impl; [exact Hall |].
    intros cmd Hcmd. simpl. case_bool_decide; [apply withCR_runs | done].
Qed.

(** Every stored quick command ends with a carriage return, so sending it
    to a terminal runs it: the five defaults do, [addQuickCommand] and
    [updateQuickCommand] append one to a command that lacks it, and nothing
    else touches a command.  A command that already ends with one is
    stored as given, so at most one is added. *)
Theorem quick_commands_end_with_return (actions : list Action) st :
  Forall runs_on_enter (quickCommands st) →
  Forall runs_on_enter (quickCommands (run actions st))
  ∧ Forall runs_on_enter defaultQuickCommands
  ∧ (∀ command, withCR (withCR command) = withCR command)
  ∧ (∀ command, endsWith_CR command = false → withCR command = command +:+ CR).
Proof.
  intros Hall. split.
  - apply (commands_run_invariant (λ st, Forall runs_on_enter (quickCommands st))
             (λ _, True)); [done | | by apply Forall_true].
    intros a st' _. apply step_runs_on_enter.
  - split; [by repeat constructor |]. split.
    + intros command. unfold withCR at 1. by rewrite withCR_runs.
    + intros command Hends. unfold withCR. by rewrite Hends.
Qed.

Lemma quick_commands_end_with_return_witness :
  Forall runs_on_enter
    (quickCommands
       (run [SetEdition pro; AddQuickCommand 1700000000000 "status" "git status";
             UpdateQuickCommand "cmd-2" "/help" "/help"] initial)).
Proof.
  apply (quick_commands_end_with_return
           [SetEdition pro; AddQuickCommand 1700000000000 "status" "git status";
            UpdateQuickCommand "cmd-2" "/help" "/help"] initial).
  by repeat constructor.
Defined.

(** *** The limit of the community edition *)

Lemma length_removeQuickCommand (id' : string) st :
  length (quickCommands (removeQuickCommand id' st)) ≤ length (quickCommands st).
Proof.
  simpl. induction (quickCommands st) as [| cmd cs IH]; [done |].
  simpl. destruct (negb (bool_decide (id cmd = id'))); simpl; lia.
Qed.

Lemma step_community_cap (a : Action) st :
  keeps_community a →
  currentEdition st = community ∧ length (quickCommands st) ≤ 5 →
  currentEdition (step a st) = community ∧ length (quickCommands (step a st)) ≤ 5.
Proof.
  intros Ha [Hed Hlen].
  destruct a as [e | t | now text | t cb | t | now l c | i | i l c | i]; simpl;
    try done.
  - unfold sendToTerminal. by destruct (terminalCallbacks st !! activeTerminalId st).
  - unfold addQuickCommand, getEdition. rewrite Hed.
    cbn [EDITION_LIMITS maxQuickCommands].
    destruct (Nat.leb_spec 5 (length (quickCommands st))); simpl; [done |].
    split; [done |]. rewrite length_app. simpl. lia.
  - split; [done |]. pose proof (length_removeQuickCommand i st). simpl in *. lia.
  - split; [done |]. by rewrite length_fmap.
Qed.

(** Under the community licence the list of quick commands never grows
    past five, whatever is added, removed or rewritten.  The store starts
    with its five defaults, so there every [addQuickCommand] is refused
    with the limit notification and changes no command until one has been
    removed. *)
Theorem community_quick_commands_capped (actions : list Action) st :
  currentEdition st = community →
  length (quickCommands st) ≤ 5 →
  Forall keeps_community actions →
  length (quickCommands (run actions st)) ≤ 5
  ∧ (∀ now label command,
       length (quickCommands st) = 5 →
       addQuickCommand now label command st
       = addNotification now (QuickCommandLimit 5) nt_error st)
  ∧ (∀ now label command id',
       length (quickCommands st) = 5 → (∃ cmd, cmd ∈ quickCommands st ∧ id cmd = id') →
       length (quickCommands (addQuickCommand now label command
                                (removeQuickCommand id' st))) ≤ 5).
Proof.
  intros Hed Hlen Hall. split; [| split].
  - apply (commands_run_invariant
             (λ st, currentEdition st = community ∧ length (quickCommands st) ≤ 5)
             keeps_community st actions); [done | | done].
    intros a st'. apply step_community_cap.
  - intros now label command Hfull. unfold addQuickCommand, getEdition.
    rewrite Hed. cbn [EDITION_LIMITS maxQuickCommands]. by rewrite Hfull.
  - intros now label command id' Hfull _.
    apply (step_community_cap (AddQuickCommand now label command)
             (removeQuickCommand id' st) I).
    split; [done |]. pose proof (length_removeQuickCommand id' st). lia.
Qed.

Lemma community_quick_commands_capped_witness :
  length (quickCommands
            (run [AddQuickCommand 1 "a" "a"; RemoveQuickCommand "cmd-3";
                  AddQuickCommand 2 "b" "b"; AddQuickCommand 3 "c" "c"] initial)) ≤ 5.
Proof.
  apply (community_quick_commands_capped
           [AddQuickCommand 1 "a" "a"; RemoveQuickCommand "cmd-3";
            AddQuickCommand 2 "b" "b"; AddQuickCommand 3 "c" "c"] initial).
  - reflexivity.
  - simpl. lia.
  - by repeat constructor.
Defined.

(** *** Ids made from the clock *)

Lemma addQuickCommand_room (now : N) (label command : string) st :
  below (length (quickCommands st)) (maxQuickCommands (EDITION_LIMITS (getEdition st)))
  = true →
  addQuickCommand now label command st
  = set_quickCommands
      (λ cs, cs ++ [ {| id := "cmd-" +:+ pretty now; label := label;
                        command := withCR command |} ]) st.
Proof.
  intros Hroom. unfold addQuickCommand.
  destruct (maxQuickCommands (EDITION_LIMITS (getEdition st))) as [limit |]; [| done].
  simpl in Hroom. apply Nat.ltb_lt in Hroom.
  by rewrite (proj2 (Nat.leb_gt limit (length (quickCommands st)))) by lia.
Qed.

Lemma below_less (m n : nat) (limit : Limit) :
  m ≤ n → below n limit = true → below m limit = true.
Proof.
  intros Hle. destruct limit as [k |]; [| done]. simpl. rewrite !Nat.ltb_lt. lia.
Qed.

(** A quick command's id is the millisecond it was added in.  While the
    edition's limit leaves room for two more, two commands added in the
    same millisecond are both stored under the same id, and removing by
    that id removes both of them. *)
Theorem same_millisecond_commands_share_an_id (now : N)
    (label1 command1 label2 command2 : string) st :
  below (S (length (quickCommands st))) (maxQuickCommands (EDITION_LIMITS (getEdition st)))
  = true →
  let st2 :=
    addQuickCommand now label2 command2 (addQuickCommand now label1 command1 st) in
  quickCommands st2
  = quickCommands st
    ++ [ {| id := "cmd-" +:+ pretty now; label := label1; command := withCR command1 |};
         {| id := "cmd-" +:+ pretty now; label := label2; command := withCR command2 |} ]
  ∧ notifications st2 = notifications st
  ∧ removeQuickCommand ("cmd-" +:+ pretty now) st2
    = removeQuickCommand ("cmd-" +:+ pretty now) st.
Proof.
  intros Hroom. cbv zeta.
  rewrite (addQuickCommand_room now label1 command1 st)
    by (eapply below_less; [| exact Hroom]; lia).
  rewrite addQuickCommand_room
    by (unfold getEdition in *; simpl; rewrite length_app; simpl;
        by rewrite Nat.add_1_r).
  unfold removeQuickCommand, set_quickCommands. simpl.
  rewrite <- !app_assoc. simpl.
  split; [done |]. split; [done |].
  rewrite List.filter_app. simpl. rewrite !bool_decide_true by done. simpl.
  by rewrite app_nil_r.
Qed.

Lemma same_millisecond_commands_share_an_id_witness :
  quickCommands
    (removeQuickCommand "cmd-7"
       (addQuickCommand 7 "b" "b" (addQuickCommand 7 "a" "a" (setEdition pro initial))))
  = defaultQuickCommands.
Proof.
  exact (f_equal quickCommands
           (proj2 (proj2 (same_millisecond_commands_share_an_id 7 "a" "a" "b" "b"
                            (setEdition pro initial) eq_refl)))).
Defined.

(** *** Callbacks of terminals *)

(** The closure that a registration returns forgets which callback it was
    returned for.  When a terminal id is registered a second time (the
    same terminal shown in two panels) and the first registration is then
    undone, the second callback is gone as well: text sent to that
    terminal no longer calls anything and raises the notification
    "Terminal not connected". *)
Theorem stale_unregister_removes_newer_callback (terminalId : string)
    (callback1 callback2 : nat) (now : N) (text : string) st :
  activeTerminalId st = terminalId →
  let st1 := (registerTerminalCallback terminalId callback1 st).1 in
  let unregister1 := (registerTerminalCallback terminalId callback1 st).2 in
  let st2 := (registerTerminalCallback terminalId callback2 st1).1 in
  let st3 := unregister1 st2 in
  calls (sendToTerminal now text st2) = calls st ++ [(callback2, text)]
  ∧ notifications (sendToTerminal now text st2) = notifications st
  ∧ terminalCallbacks st3 !! terminalId = None
  ∧ (∀ other, other ≠ terminalId →
       terminalCallbacks st3 !! other = terminalCallbacks st !! other)
  ∧ calls (sendToTerminal now text st3) = calls st
  ∧ notifications (sendToTerminal now text st3)
    = notifications st ++ [ {| n_id := "notif-" +:+ pretty now;
                               n_message := TerminalNotConnected; n_type := nt_error |} ].
Proof.
  intros Hactive. cbv zeta. simpl. unfold sendToTerminal. simpl.
  rewrite Hactive, lookup_insert_eq, lookup_delete_eq. simpl.
  split; [done |]. split; [done |]. split; [done |]. split; [| done].
  intros other Hother. by rewrite lookup_delete_ne, !lookup_insert_ne.
Qed.

Lemma stale_unregister_removes_newer_callback_witness :
  notifications
    (sendToTerminal 5 "ls"
       ((registerTerminalCallback "default" 1 initial).2
          (registerTerminalCallback "default" 2
             (registerTerminalCallback "default" 1 initial).1).1))
  = [ {| n_id := "notif-5"; n_message := TerminalNotConnected; n_type := nt_error |} ].
Proof.
  exact (proj2 (proj2 (proj2 (proj2 (proj2
    (stale_unregister_removes_newer_callback "default" 1 2 5 "ls" initial eq_refl)))))).
Defined.

End CommandRuns.
